(** * port-manager: the lease registry, its lock and the allocation engine

    A shallow embedding of [src/lib/registry.mjs], [src/lib/lock.mjs] and
    [src/lib/core-api.mjs], followed by the properties of the lease
    engine that the specification states and by further properties of
    the whole API.

    Conventions of the embedding.
    - A JavaScript number that holds a port, a range bound or a time in
      milliseconds is a [Z].  The loop of [lease] counts with [port++]; on
      the safe integers that is the successor of [Z], beyond them it is
      not, and what is stated of a scan of a range is stated for bounds
      that are safe integers (see [Terms.isSafeInteger]).
    - A string argument or field that the code tests for truthiness
      ([!pool], [lease.tag || ''], [lease.worktreePath && ...]) is a
      [string]; a missing, [null] or [undefined] value is read as the empty
      string, which is what those tests make of it.  The one argument whose
      absence the code tells apart from the empty string, the tag of
      [release], is an [option string].
    - [registry.pools], a JavaScript object used as a map from pool name to
      range, is a [gmap string Pool]; [registry.leases] is a [list].  The
      lookup [registry.pools[name]] is the lookup of the map for every name
      but the few every object inherits ([constructor], [toString], ...);
      what is stated of a name the registry has no pool of is stated for
      names that are not inherited (see [Terms.inheritedName]).
    - The registry file, the lock marker and the clock form the [World] that
      every operation threads; an exception is a [Throw] that keeps the
      world as the effects so far left it.  Inside a call the clock moves
      in the waits of [acquireLock] only, each taken to last its 100 ms;
      what is stated of the lock in front of a marker is stated so that it
      holds however long a wait or a step lasts.  Between calls the clock
      and the marker change freely (see [Terms.reachable]). *)

From Stdlib Require Import ZArith String Ascii List Bool Lia.
From stdpp Require Import base option list gmap strings.

Local Open Scope Z_scope.
Local Open Scope string_scope.

(** ** Data model *)

(** [{ rangeStart, rangeEnd }], both bounds inclusive. *)
Record Pool : Type := mkPool { rangeStart : Z; rangeEnd : Z }.

(** A lease record.  [leasedAt] is the instant the ISO-8601 text denotes, in
    milliseconds; [None] stands for a field that is missing, empty or not a
    date, for which the age test of [findStaleLeases] is false. *)
Record Lease : Type := mkLease {
  port : Z;
  pool : string;
  identifier : string;
  worktreePath : string;
  tag : string;
  leasedAt : option Z
}.

(** The persisted document. *)
Record Registry : Type := mkRegistry {
  version : string;
  pools : gmap string Pool;
  leases : list Lease;
  lastModified : option Z
}.

#[global] Instance Pool_eq_dec : EqDecision Pool.
Proof. solve_decision. Defined.

#[global] Instance Lease_eq_dec : EqDecision Lease.
Proof. solve_decision. Defined.

#[global] Instance Registry_eq_dec : EqDecision Registry.
Proof. solve_decision. Defined.

Definition set_leases (registry : Registry) (ls : list Lease) : Registry :=
  {| version := version registry; pools := pools registry;
     leases := ls; lastModified := lastModified registry |}.

Definition set_pools (registry : Registry) (ps : gmap string Pool) : Registry :=
  {| version := version registry; pools := ps;
     leases := leases registry; lastModified := lastModified registry |}.

Definition set_lastModified (registry : Registry) (t : Z) : Registry :=
  {| version := version registry; pools := pools registry;
     leases := leases registry; lastModified := Some t |}.

(** The messages of the [Error] objects the code throws, one constructor per
    [throw new Error(...)] of the three modules. *)
Inductive Error : Type :=
| PoolRequired                              (* 'Pool is required for lease action' *)
| NotInGitRepository                        (* 'Could not auto-detect ... Not in a git repository.' *)
| UnknownPool (name : string)               (* `Unknown pool: ${poolName}. ...` *)
| PoolExhausted (name : string) (rs re : Z) (* `Pool '${pool}' exhausted (range: ${rangeStart}-${rangeEnd})` *)
| NoLeaseWithTag (t : string)               (* `No lease found with tag '${tag}'` *)
| NoLeasesForProject                        (* 'No leases found for current project' *)
| PoolArgumentsRequired                     (* 'Pool name, range start, and range end are required' *)
| RangeStartNotBelowEnd                     (* 'Range start must be less than range end' *)
| LeasesOutsideRange (n : nat)              (* `${n} lease(s) would be outside the new range. ...` *)
| PoolAlreadyExists (name : string)         (* `Pool '${name}' already exists` *)
| PoolDoesNotExist (name : string)          (* `Pool '${name}' does not exist` *)
| PoolHasLeases (name : string) (n : nat)   (* `Pool '${poolName}' has ${leaseCount} active lease(s). ...` *)
| PoolNameRequired                          (* 'Pool name is required' *)
| RegistryAlreadyExists                     (* `Registry already exists at ${path}` *)
| LockTimeout (timeoutMs : Z).              (* `Failed to acquire lock after ${timeoutMs}ms` *)

Inductive result (A : Type) : Type :=
| Ok (a : A)
| Throw (e : Error).
Arguments Ok {A} a.
Arguments Throw {A} e.

(** ** registry.mjs: helpers on an in-memory registry *)

Module Reg.

(** [getDefaultRegistry]. *)
Definition getDefaultRegistry : Registry :=
  {| version := "1.0";
     pools := <["frontend" := mkPool 3300 3499]>
                (<["backend" := mkPool 5300 5499]>
                   (<["storybook" := mkPool 6300 6499]> ∅));
     leases := [];
     lastModified := None |}.

(** [validatePool]: throws unless [registry.pools[poolName]] is there. *)
Definition validatePool (registry : Registry) (poolName : string) : result unit :=
  match pools registry !! poolName with
  | Some _ => Ok tt
  | None => Throw (UnknownPool poolName)
  end.

(** The predicate of [getExistingLease]'s [find]. *)
Definition sameTriple (ident pl tg : string) (l : Lease) : bool :=
  bool_decide (identifier l = ident) && bool_decide (pool l = pl)
  && bool_decide (tag l = tg).

(** [getExistingLease]: the first lease of the triple, if any. *)
Definition getExistingLease (registry : Registry) (ident pl tg : string)
  : option Lease :=
  List.find (sameTriple ident pl tg) (leases registry).

Definition inPool (pl : string) (l : Lease) : bool := bool_decide (pool l = pl).

(** [getLeasedPorts]: the ports of the leases of one pool. *)
Definition getLeasedPorts (registry : Registry) (pl : string) : list Z :=
  List.map port (List.filter (inPool pl) (leases registry)).

(** [Array.prototype.includes] on a list of ports. *)
Definition includes (ps : list Z) (p : Z) : bool :=
  List.existsb (Z.eqb p) ps.

(** [addLease]: builds the record, pushes it, returns it.  [now] is the
    value of [new Date()] at the call; [worktreePath || ''] and [tag || '']
    are the strings themselves. *)
Definition addLease (registry : Registry) (p : Z) (pl ident wt tg : string)
  (now : Z) : Lease * Registry :=
  let lease := {| port := p; pool := pl; identifier := ident;
                  worktreePath := wt; tag := tg; leasedAt := Some now |} in
  (lease, set_leases registry (leases registry ++ [lease])).

(** The removal helpers replace [registry.leases] by a filtered copy and
    return how many records went away. *)
Definition removeWhere (gone : Lease -> bool) (registry : Registry)
  : nat * Registry :=
  let kept := List.filter (fun l => negb (gone l)) (leases registry) in
  ((length (leases registry) - length kept)%nat, set_leases registry kept).

Definition ofIdentifier (ident : string) (l : Lease) : bool :=
  bool_decide (identifier l = ident).

Definition ofIdentifierTag (ident tg : string) (l : Lease) : bool :=
  bool_decide (identifier l = ident) && bool_decide (tag l = tg).

(** [removeLeasesByIdentifier]. *)
Definition removeLeasesByIdentifier (registry : Registry) (ident : string)
  : nat * Registry :=
  removeWhere (ofIdentifier ident) registry.

(** [removeLeasesByTag]. *)
Definition removeLeasesByTag (registry : Registry) (ident tg : string)
  : nat * Registry :=
  removeWhere (ofIdentifierTag ident tg) registry.

(** [clearPoolLeases]. *)
Definition clearPoolLeases (registry : Registry) (poolName : string)
  : nat * Registry :=
  removeWhere (inPool poolName) registry.

(** Why [findStaleLeases] reports a lease. *)
Inductive StaleReason : Type :=
| WorktreeMissing               (* 'worktree path does not exist' *)
| OldAndUnused (days : Z).      (* `lease older than ${days} days and port not in use` *)

#[global] Instance StaleReason_eq_dec : EqDecision StaleReason.
Proof. solve_decision. Defined.

Section Stale.

(** [existsSync] of node:fs, the optional [isPortInUse] of the options
    argument, [staleThresholdDays] and [Date.now()]. *)
Variable existsSync : string -> bool.
Variable isPortInUse : option (Z -> bool).
Variable staleThresholdDays : Z.
Variable now : Z.

Definition staleThresholdMs : Z := staleThresholdDays * 24 * 60 * 60 * 1000.

(** The body of the loop of [findStaleLeases] for one lease: the reason
    when [isStale] ends up true. *)
Definition staleReason (l : Lease) : option StaleReason :=
  if negb (String.eqb (worktreePath l) "") && negb (existsSync (worktreePath l))
  then Some WorktreeMissing
  else
    match leasedAt l with
    | Some t =>
        if now - t >? staleThresholdMs then
          match isPortInUse with
          | Some probe =>
              if negb (probe (port l)) then Some (OldAndUnused staleThresholdDays)
              else None
          | None => None
          end
        else None
    | None => None
    end.

(** [findStaleLeases]: the [{ lease, reason }] items, in registry order. *)
Fixpoint staleItems (ls : list Lease) : list (Lease * StaleReason) :=
  match ls with
  | [] => []
  | l :: rest =>
      match staleReason l with
      | Some reason => (l, reason) :: staleItems rest
      | None => staleItems rest
      end
  end.

Definition findStaleLeases (registry : Registry) : list (Lease * StaleReason) :=
  staleItems (leases registry).

End Stale.

Definition stalePortsOf (staleLeases : list (Lease * StaleReason)) : list Z :=
  List.map (fun item => port (fst item)) staleLeases.

(** [removeStaleLeases]: drops every lease whose port is the port of an
    item. *)
Definition removeStaleLeases (registry : Registry)
  (staleLeases : list (Lease * StaleReason)) : nat * Registry :=
  removeWhere (fun l => includes (stalePortsOf staleLeases) (port l)) registry.

(** [addPool]. *)
Definition addPool (registry : Registry) (name : string) (rs re : Z)
  : result Registry :=
  match pools registry !! name with
  | Some _ => Throw (PoolAlreadyExists name)
  | None => Ok (set_pools registry (<[name := mkPool rs re]> (pools registry)))
  end.

(** [updatePool]. *)
Definition updatePool (registry : Registry) (name : string) (rs re : Z)
  : result Registry :=
  match pools registry !! name with
  | None => Throw (PoolDoesNotExist name)
  | Some _ => Ok (set_pools registry (<[name := mkPool rs re]> (pools registry)))
  end.

(** [deletePool]: counts the leases of the pool, deletes the pool from the
    object in memory and returns the count. *)
Definition deletePool (registry : Registry) (name : string)
  : result (nat * Registry) :=
  match pools registry !! name with
  | None => Throw (PoolDoesNotExist name)
  | Some _ =>
      let count := length (List.filter (inPool name) (leases registry)) in
      Ok (count, set_pools registry (delete name (pools registry)))
  end.

End Reg.

(** ** The world the operations run in *)

(** [lockFile]: the marker [registry.json.lock], present with its
    modification time or absent.  [registryFile]: the content of
    [registry.json], absent until something writes it.  [clock]: the value
    of [Date.now()]; inside a call time passes only while [acquireLock]
    sleeps.
    Directories are taken to exist, the file to parse, and the file system
    to raise no other error than [EEXIST] and [ENOENT]. *)
Record World : Type := mkWorld {
  lockFile : option Z;
  registryFile : option Registry;
  clock : Z
}.

Definition set_lockFile (w : World) (m : option Z) : World :=
  {| lockFile := m; registryFile := registryFile w; clock := clock w |}.

Definition set_registryFile (w : World) (r : option Registry) : World :=
  {| lockFile := lockFile w; registryFile := r; clock := clock w |}.

Definition set_clock (w : World) (t : Z) : World :=
  {| lockFile := lockFile w; registryFile := registryFile w; clock := t |}.

(** An [async] function: from a world to an outcome and the world it
    leaves.  A thrown error keeps the effects done before it.  [None] is
    the model running out of fuel, which only the polling loop of
    [acquireLock] could do (and does not, see [acquireLock_returns]). *)
Definition M (A : Type) : Type := World -> option (result A * World).

Definition ret {A : Type} (a : A) : M A := fun w => Some (Ok a, w).

Definition throw {A : Type} (e : Error) : M A := fun w => Some (Throw e, w).

Definition bind {A B : Type} (m : M A) (k : A -> M B) : M B :=
  fun w =>
    match m w with
    | None => None
    | Some (Ok a, w') => k a w'
    | Some (Throw e, w') => Some (Throw e, w')
    end.

Definition lift {A : Type} (r : result A) : M A := fun w => Some (r, w).

(** [try { body } finally { cleanup }]: [cleanup] runs whatever [body] did;
    an error of [cleanup] replaces the outcome of [body]. *)
Definition try_finally {A : Type} (body : M A) (cleanup : M unit) : M A :=
  fun w =>
    match body w with
    | None => None
    | Some (r, w') =>
        match cleanup w' with
        | None => None
        | Some (Ok _, w'') => Some (r, w'')
        | Some (Throw e, w'') => Some (Throw e, w'')
        end
    end.

Declare Scope js_scope.
Delimit Scope js_scope with js.
Notation "x <- m ;; k" := (bind m (fun x => k))
  (at level 100, m at next level, right associativity) : js_scope.
Notation "m ;;; k" := (bind m (fun _ => k))
  (at level 100, right associativity) : js_scope.
Local Open Scope js_scope.

(** [Date.now()]. *)
Definition dateNow : M Z := fun w => Some (Ok (clock w), w).

(** ** lock.mjs *)

Module Lock.

Definition STALE_LOCK_AGE_MS : Z := 60000.

(** [open(LOCK_PATH, O_CREAT | O_EXCL | O_WRONLY)] then [close]: [None] is
    the error [EEXIST]. *)
Definition openExclusive (w : World) : option World :=
  match lockFile w with
  | Some _ => None
  | None => Some (set_lockFile w (Some (clock w)))
  end.

(** [stat(LOCK_PATH).mtimeMs]: [None] is the error [ENOENT]. *)
Definition statMtime (w : World) : option Z := lockFile w.

(** [unlink(LOCK_PATH)]: [None] is the error [ENOENT]. *)
Definition unlink (w : World) : option World :=
  match lockFile w with
  | Some _ => Some (set_lockFile w None)
  | None => None
  end.

(** [await new Promise(resolve => setTimeout(resolve, ms))], the timer
    taken to fire on time. *)
Definition sleep (ms : Z) (w : World) : World := set_clock w (clock w + ms).

(** The [while (true)] of [acquireLock]; one unit of [fuel] per turn. *)
Fixpoint acquire_loop (fuel : nat) (timeoutMs startTime : Z) (w : World)
  : option (result unit * World) :=
  match fuel with
  | O => None
  | S fuel' =>
      let checkTimeoutAndWait (w0 : World) :=
        let elapsed := clock w0 - startTime in
        if elapsed >? timeoutMs then Some (Throw (LockTimeout timeoutMs), w0)
        else acquire_loop fuel' timeoutMs startTime (sleep 100 w0) in
      match openExclusive w with
      | Some w' => Some (Ok tt, w')
      | None =>
          match statMtime w with
          | None => acquire_loop fuel' timeoutMs startTime w
          | Some mtimeMs =>
              let lockAge := clock w - mtimeMs in
              if lockAge >? STALE_LOCK_AGE_MS then
                match unlink w with
                | Some w' => acquire_loop fuel' timeoutMs startTime w'
                | None => checkTimeoutAndWait w
                end
              else checkTimeoutAndWait w
          end
      end
  end.

(** Turns that [acquireLock] can need: one per wait of 100 ms up to the
    timeout, the turn that times out, and two for removing a stale marker
    and creating the new one. *)
Definition acquire_fuel (timeoutMs : Z) : nat := (Z.to_nat (timeoutMs / 100) + 3)%nat.

(** [acquireLock]. *)
Definition acquireLock (timeoutMs : Z) : M unit :=
  fun w => acquire_loop (acquire_fuel timeoutMs) timeoutMs (clock w) w.

(** [releaseLock]: [ENOENT] is swallowed. *)
Definition releaseLock : M unit :=
  fun w =>
    match unlink w with
    | Some w' => Some (Ok tt, w')
    | None => Some (Ok tt, w)
    end.

(** [withLock]. *)
Definition withLock {A : Type} (fn : M A) (timeoutMs : Z) : M A :=
  acquireLock timeoutMs ;;;
  try_finally fn releaseLock.

End Lock.

(** ** registry.mjs: the store *)

Module Store.

(** [initRegistry]: writes the default document, stamped. *)
Definition initRegistry : M Registry :=
  fun w =>
    let registry := set_lastModified Reg.getDefaultRegistry (clock w) in
    Some (Ok registry, set_registryFile w (Some registry)).

(** [createNewRegistry]. *)
Definition createNewRegistry : M Registry := initRegistry.

(** [getRegistry]: reads the file, or initialises it when there is none. *)
Definition getRegistry : M Registry :=
  fun w =>
    match registryFile w with
    | None => initRegistry w
    | Some registry => Some (Ok registry, w)
    end.

(** [saveRegistry]: stamps [lastModified] and writes the whole document. *)
Definition saveRegistry (registry : Registry) : M unit :=
  fun w => Some (Ok tt, set_registryFile w (Some (set_lastModified registry (clock w)))).

End Store.

(** ** core-api.mjs: [PortManagerAPI] *)

(** What the methods resolve to. *)
Record LeaseResult : Type := mkLeaseResult {
  lr_port : Z;
  lr_lease : Lease
}.

Record ReleaseResult : Type := mkReleaseResult {
  rr_removedCount : nat;
  rr_leases : list Lease
}.

Record CleanupResult : Type := mkCleanupResult {
  cr_staleLeases : list (Lease * Reg.StaleReason);
  cr_removedCount : nat;
  cr_dryRun : option bool
}.

Record PoolResult : Type := mkPoolResult {
  pr_poolName : string;
  pr_rangeStart : Z;
  pr_rangeEnd : Z
}.

(** Truthiness of a string and of a number. *)
Definition truthyS (s : string) : bool := negb (String.eqb s "").
Definition truthyZ (n : Z) : bool := negb (Z.eqb n 0).

(** [s.replace(/\\/g, '/')] and [s.replace(/:/g, '')]. *)
Fixpoint backslashesToSlashes (s : string) : string :=
  match s with
  | EmptyString => EmptyString
  | String c rest =>
      String (if Ascii.eqb c "\"%char then "/"%char else c) (backslashesToSlashes rest)
  end.

Fixpoint dropColons (s : string) : string :=
  match s with
  | EmptyString => EmptyString
  | String c rest =>
      if Ascii.eqb c ":"%char then dropColons rest else String c (dropColons rest)
  end.

(** ** registry.mjs: the queries *)

Module RegQueries.

(** [getAllLeasedPorts]. *)
Definition getAllLeasedPorts (registry : Registry) : list Z :=
  List.map port (leases registry).

(** [removeLeasesByPort]. *)
Definition removeLeasesByPort (registry : Registry) (p : Z) : nat * Registry :=
  Reg.removeWhere (fun l => Z.eqb (port l) p) registry.

(** [getLeases(registry, { pool, identifier, global })]; an absent [pool] or
    [identifier] is the empty string. *)
Definition getLeases (registry : Registry) (pl ident : string) (global : bool)
  : list Lease :=
  let byIdentifier :=
    if negb global && truthyS ident
    then List.filter (Reg.ofIdentifier ident) (leases registry)
    else leases registry in
  if truthyS pl then List.filter (Reg.inPool pl) byIdentifier else byIdentifier.

(** An item of [getAllPools]. *)
Record PoolEntry : Type := mkPoolEntry {
  pe_name : string;
  pe_rangeStart : Z;
  pe_rangeEnd : Z
}.

(** [getAllPools]: one item per entry of [registry.pools].  The order of
    [Object.entries] is not kept by the map of the model. *)
Definition getAllPools (registry : Registry) : list PoolEntry :=
  List.map (fun entry => mkPoolEntry (fst entry) (rangeStart (snd entry))
                           (rangeEnd (snd entry)))
    (map_to_list (pools registry)).

End RegQueries.

(** What [check] resolves to; [ck_details] is [{ identifier, pool }] of the
    lease found, or the empty object. *)
Record CheckResult : Type := mkCheckResult {
  ck_available : bool;
  ck_leased : bool;
  ck_inUse : bool;
  ck_details : option (string * string)
}.

(** The outcome of [check].  The one error [check] throws, 'Port is
    required for check action', is no message of the lease engine; it is
    carried here as the outcome [CheckPortRequired], so that a [check] that
    resolves to [CheckPortRequired] reads: [check] rejected with that
    error. *)
Inductive CheckOutcome : Type :=
| CheckPortRequired
| Checked (r : CheckResult).

(** What [poolList] resolves to for one pool. *)
Record PoolInfo : Type := mkPoolInfo {
  pi_name : string;
  pi_rangeStart : Z;
  pi_rangeEnd : Z;
  pi_totalPorts : Z;
  pi_reservedCount : nat;
  pi_leases : list Lease
}.

Module API.
Section WithCollaborators.

(** [this.portChecker], the liveness probe; [existsSync]; and what
    [getGitRoot] resolves to: the trimmed output of
    [git rev-parse --show-toplevel], or the empty string for the [null]
    it returns when the command fails (both are falsy). *)
Variable portChecker : Z -> bool.
Variable existsSync : string -> bool.
Variable gitRoot : string.

Definition getGitRoot : string := gitRoot.

(** [getAutoIdentifier]; the empty string is its [null]. *)
Definition getAutoIdentifier : string :=
  if truthyS getGitRoot then dropColons (backslashesToSlashes getGitRoot)
  else "".

(** [identifier] as given, or auto-detected. *)
Definition resolveIdentifier (ident : string) : M string :=
  if truthyS ident then ret ident
  else
    let auto := getAutoIdentifier in
    if truthyS auto then ret auto else throw NotInGitRepository.

(** The [for] loop of [lease] over the [n] candidates from [p] on. *)
Fixpoint scanPorts (leasedPorts : list Z) (n : nat) (p : Z) : option Z :=
  match n with
  | O => None
  | S n' =>
      let portAvailable := negb (Reg.includes leasedPorts p) && negb (portChecker p) in
      if portAvailable then Some p else scanPorts leasedPorts n' (p + 1)
  end.

(** [for (let port = rangeStart; port <= rangeEnd; port++)]. *)
Definition findPort (leasedPorts : list Z) (rs re : Z) : option Z :=
  scanPorts leasedPorts (Z.to_nat (re - rs + 1)) rs.

(** The function [lease] passes to [withLock].  [foundPort] starts as
    [null] and the test after the loop is [if (!foundPort)], which holds of
    [null] and of the number 0 alike. *)
Definition leaseLocked (pl tg ident wt : string) : M LeaseResult :=
  registry <- Store.getRegistry ;;
  lift (Reg.validatePool registry pl) ;;;
  match Reg.getExistingLease registry ident pl tg with
  | Some existingLease => ret (mkLeaseResult (port existingLease) existingLease)
  | None =>
      match pools registry !! pl with
      | None => throw (UnknownPool pl)   (* excluded by [validatePool] *)
      | Some range =>
          let leasedPorts := Reg.getLeasedPorts registry pl in
          let foundPort := findPort leasedPorts (rangeStart range) (rangeEnd range) in
          match foundPort with
          | Some p =>
              if truthyZ p then
                now <- dateNow ;;
                let '(lease, registry') := Reg.addLease registry p pl ident wt tg now in
                Store.saveRegistry registry' ;;;
                ret (mkLeaseResult p lease)
              else throw (PoolExhausted pl (rangeStart range) (rangeEnd range))
          | None => throw (PoolExhausted pl (rangeStart range) (rangeEnd range))
          end
      end
  end.

(** [lease(pool, tag, identifier, worktreePath)]; [tag = tag || ''] is the
    string itself. *)
Definition lease (pl tg ident wt : string) : M LeaseResult :=
  if negb (truthyS pl) then throw PoolRequired
  else
    ident' <- resolveIdentifier ident ;;
    let wt' := if truthyS wt then wt else getGitRoot in
    Lock.withLock (leaseLocked pl tg ident' wt') 30000.

(** The function [release] passes to [withLock]. *)
Definition releaseLocked (tg : option string) (ident : string) : M ReleaseResult :=
  registry <- Store.getRegistry ;;
  let '(removedCount, registry') :=
    match tg with
    | Some t => Reg.removeLeasesByTag registry ident t
    | None => Reg.removeLeasesByIdentifier registry ident
    end in
  if Nat.eqb removedCount 0 then
    match tg with
    | Some t => throw (NoLeaseWithTag t)
    | None => throw NoLeasesForProject
    end
  else
    Store.saveRegistry registry' ;;;
    ret (mkReleaseResult removedCount (leases registry')).

(** [release(tag, identifier)]; [None] is an omitted tag. *)
Definition release (tg : option string) (ident : string) : M ReleaseResult :=
  ident' <- resolveIdentifier ident ;;
  Lock.withLock (releaseLocked tg ident') 30000.

(** The function [cleanup] passes to [withLock]. *)
Definition cleanupLocked (isDryRun : bool) : M CleanupResult :=
  registry <- Store.getRegistry ;;
  now <- dateNow ;;
  let staleLeases := Reg.findStaleLeases existsSync (Some portChecker) 7 now registry in
  if Nat.eqb (length staleLeases) 0 then
    ret (mkCleanupResult [] 0 (Some isDryRun))
  else if isDryRun then
    ret (mkCleanupResult staleLeases 0 (Some true))
  else
    let '(removedCount, registry') := Reg.removeStaleLeases registry staleLeases in
    Store.saveRegistry registry' ;;;
    ret (mkCleanupResult staleLeases removedCount None).

(** [cleanup(isDryRun)]. *)
Definition cleanup (isDryRun : bool) : M CleanupResult :=
  Lock.withLock (cleanupLocked isDryRun) 30000.

(** [init(force)]: no lock is taken. *)
Definition init (force : bool) : M Registry :=
  fun w =>
    if bool_decide (is_Some (registryFile w)) && negb force
    then Some (Throw RegistryAlreadyExists, w)
    else Store.createNewRegistry w.

(** The test at the head of [poolAdd] and of [poolUpdate]. *)
Definition checkPoolArguments (poolName : string) (rs re : Z) : M unit :=
  if negb (truthyS poolName) || negb (truthyZ rs) || negb (truthyZ re)
  then throw PoolArgumentsRequired
  else if (rs >=? re)%Z then throw RangeStartNotBelowEnd
  else ret tt.

(** The function [poolAdd] passes to [withLock]. *)
Definition poolAddLocked (poolName : string) (rs re : Z) : M PoolResult :=
  registry <- Store.getRegistry ;;
  registry' <- lift (Reg.addPool registry poolName rs re) ;;
  Store.saveRegistry registry' ;;;
  ret (mkPoolResult poolName rs re).

(** [poolAdd(poolName, rangeStart, rangeEnd)]. *)
Definition poolAdd (poolName : string) (rs re : Z) : M PoolResult :=
  checkPoolArguments poolName rs re ;;;
  Lock.withLock (poolAddLocked poolName rs re) 30000.

(** The filter of [poolUpdate]: a lease of the pool, or of the pool of
    that name followed by [-https], whose port the new range leaves
    out. *)
Definition outsideNewRange (poolName : string) (rs re : Z) (l : Lease) : bool :=
  (bool_decide (pool l = poolName) || bool_decide (pool l = poolName ++ "-https"))
  && ((port l <? rs)%Z || (port l >? re)%Z).

(** The function [poolUpdate] passes to [withLock]. *)
Definition poolUpdateLocked (poolName : string) (rs re : Z) : M PoolResult :=
  registry <- Store.getRegistry ;;
  let affectedLeases := List.filter (outsideNewRange poolName rs re) (leases registry) in
  if Nat.ltb 0 (length affectedLeases) then
    throw (LeasesOutsideRange (length affectedLeases))
  else
    registry' <- lift (Reg.updatePool registry poolName rs re) ;;
    Store.saveRegistry registry' ;;;
    ret (mkPoolResult poolName rs re).

(** [poolUpdate(poolName, rangeStart, rangeEnd)]. *)
Definition poolUpdate (poolName : string) (rs re : Z) : M PoolResult :=
  checkPoolArguments poolName rs re ;;;
  Lock.withLock (poolUpdateLocked poolName rs re) 30000.

(** The function [poolDelete] passes to [withLock].  [deletePool] has
    already taken the pool out of the object in memory when the count is
    tested; that object is dropped by the [throw]. *)
Definition poolDeleteLocked (poolName : string) : M string :=
  registry <- Store.getRegistry ;;
  deleted <- lift (Reg.deletePool registry poolName) ;;
  let '(leaseCount, registry') := deleted in
  if Nat.ltb 0 leaseCount then throw (PoolHasLeases poolName leaseCount)
  else
    Store.saveRegistry registry' ;;;
    ret poolName.

(** [poolDelete(poolName)]. *)
Definition poolDelete (poolName : string) : M string :=
  if negb (truthyS poolName) then throw PoolNameRequired
  else Lock.withLock (poolDeleteLocked poolName) 30000.

(** The function [poolClear] passes to [withLock]. *)
Definition poolClearLocked (poolName : string) : M nat :=
  registry <- Store.getRegistry ;;
  match pools registry !! poolName with
  | None => throw (PoolDoesNotExist poolName)
  | Some _ =>
      let '(removedCount, registry') := Reg.clearPoolLeases registry poolName in
      if Nat.eqb removedCount 0 then ret 0%nat
      else
        Store.saveRegistry registry' ;;;
        ret removedCount
  end.

(** [poolClear(poolName)]. *)
Definition poolClear (poolName : string) : M nat :=
  if negb (truthyS poolName) then throw PoolNameRequired
  else Lock.withLock (poolClearLocked poolName) 30000.

(** A call of a method of the API.  [CallRead] stands for the methods that
    only read ([list], [check], [env], [poolList]): what they do to the
    world is what [getRegistry] does. *)
Inductive Call : Type :=
| CallLease (pl tg ident wt : string)
| CallRelease (tg : option string) (ident : string)
| CallCleanup (isDryRun : bool)
| CallInit (force : bool)
| CallPoolAdd (poolName : string) (rs re : Z)
| CallPoolUpdate (poolName : string) (rs re : Z)
| CallPoolDelete (poolName : string)
| CallPoolClear (poolName : string)
| CallRead.

(** The world a computation leaves, its outcome forgotten. *)
Definition worldAfter {A : Type} (m : M A) (w : World) : option World :=
  match m w with
  | Some (_, w') => Some w'
  | None => None
  end.

(** The world a call leaves, whether it resolves or rejects. *)
Definition run (c : Call) : World -> option World :=
  match c with
  | CallLease pl tg ident wt => worldAfter (lease pl tg ident wt)
  | CallRelease tg ident => worldAfter (release tg ident)
  | CallCleanup isDryRun => worldAfter (cleanup isDryRun)
  | CallInit force => worldAfter (init force)
  | CallPoolAdd poolName rs re => worldAfter (poolAdd poolName rs re)
  | CallPoolUpdate poolName rs re => worldAfter (poolUpdate poolName rs re)
  | CallPoolDelete poolName => worldAfter (poolDelete poolName)
  | CallPoolClear poolName => worldAfter (poolClear poolName)
  | CallRead => worldAfter Store.getRegistry
  end.

(** [list(filterPool, showGlobal, identifier)]; the method is named
    [listLeases] here, [list] being the type. *)
Definition listLeases (filterPool : string) (showGlobal : bool) (ident : string)
  : M (list Lease) :=
  registry <- Store.getRegistry ;;
  let ident' :=
    if negb showGlobal && negb (truthyS ident) then getAutoIdentifier else ident in
  ret (RegQueries.getLeases registry filterPool ident' showGlobal).

(** [check(port)]: no lock is taken. *)
Definition check (p : Z) : M CheckOutcome :=
  if negb (truthyZ p) then ret CheckPortRequired
  else
    registry <- Store.getRegistry ;;
    match List.find (fun l => Z.eqb (port l) p) (leases registry) with
    | Some lease =>
        ret (Checked (mkCheckResult false true false
                        (Some (identifier lease, pool lease))))
    | None =>
        if portChecker p then ret (Checked (mkCheckResult false false true None))
        else ret (Checked (mkCheckResult true false false None))
    end.

(** [String.prototype.toUpperCase]. *)
Variable toUpperCase : string -> string.

(** The name [env] gives the variable of a lease: [POOL_TAG_PORT], or
    [POOL_PORT] when the tag is empty. *)
Definition envVarName (l : Lease) : string :=
  if truthyS (tag l)
  then toUpperCase (pool l) ++ "_" ++ toUpperCase (tag l) ++ "_PORT"
  else toUpperCase (pool l) ++ "_PORT".

(** [env(identifier)]: the object [envVars] is a map from name to port,
    filled in the order of the leases. *)
Definition env (ident : string) : M (gmap string Z) :=
  ident' <- resolveIdentifier ident ;;
  registry <- Store.getRegistry ;;
  let leases := RegQueries.getLeases registry "" ident' false in
  if Nat.eqb (length leases) 0 then throw NoLeasesForProject
  else
    ret (List.fold_left (fun envVars l => <[envVarName l := port l]> envVars)
           leases ∅).

(** [poolList(poolName)]: the details of one pool, or all the pools. *)
Definition poolList (poolName : string)
  : M (PoolInfo + list RegQueries.PoolEntry) :=
  registry <- Store.getRegistry ;;
  if truthyS poolName then
    match pools registry !! poolName with
    | None => throw (PoolDoesNotExist poolName)
    | Some range =>
        let leases := List.filter (Reg.inPool poolName) (leases registry) in
        ret (inl (mkPoolInfo poolName (rangeStart range) (rangeEnd range)
                    (rangeEnd range - rangeStart range + 1)
                    (length leases) leases))
    end
  else ret (inr (RegQueries.getAllPools registry)).

End WithCollaborators.
End API.

(** * The terms of the statements

    What the properties below are stated with: the registry an operation
    loads, the lock being acquired, a port being free, the registries the
    operations write, and the pools and leases of the registry file as the
    state of a transition system. *)

Module Terms.
Import Reg.

(** What [getRegistry] returns in a world. *)
Definition loaded (w : World) : Registry :=
  match registryFile w with
  | Some registry => registry
  | None => set_lastModified getDefaultRegistry (clock w)
  end.

(** The lock is acquired within the timeout the API passes. *)
Definition acquires (w w1 : World) : Prop :=
  Lock.acquireLock 30000 w = Some (Ok tt, w1).

(** Turns of the loop of [acquireLock] that are enough from a given world
    on. *)
Definition turns_needed (timeoutMs startTime : Z) (w : World) : nat :=
  if clock w - startTime >? timeoutMs then 2%nat
  else (Z.to_nat ((timeoutMs - (clock w - startTime)) / 100) + 3)%nat.

(** A port is recorded as leased in pool [pl]. *)
Definition leasedIn (registry : Registry) (pl : string) (p : Z) : Prop :=
  exists l, In l (leases registry) /\ pool l = pl /\ port l = p.

(** The lease [addLease] builds. *)
Definition newLease (p : Z) (pl ident wt tg : string) (now : Z) : Lease :=
  {| port := p; pool := pl; identifier := ident; worktreePath := wt;
     tag := tg; leasedAt := Some now |}.

(** The registry [lease] writes after allocating [p]. *)
Definition withNewLease (registry : Registry) (l : Lease) (now : Z) : Registry :=
  set_lastModified (set_leases registry (leases registry ++ [l])) now.

(** How many leases of the list are of the triple. *)
Definition countTriple (ident pl tg : string) (ls : list Lease) : nat :=
  length (List.filter (sameTriple ident pl tg) ls).

(** The leases a call of [release] takes out: those of the identifier when
    the tag is omitted, those of the identifier and the tag otherwise. *)
Definition released (tg : option string) (ident : string) : Lease -> bool :=
  match tg with
  | Some t => ofIdentifierTag ident t
  | None => ofIdentifier ident
  end.

(** The error of a release that matches nothing. *)
Definition nothingToRelease (tg : option string) : Error :=
  match tg with
  | Some t => NoLeaseWithTag t
  | None => NoLeasesForProject
  end.

(** The registry [poolUpdate] and [poolAdd] write. *)
Definition withPool (registry : Registry) (poolName : string) (rs re now : Z)
  : Registry :=
  set_lastModified
    (set_pools registry (<[poolName := mkPool rs re]> (pools registry))) now.

(** The registry [poolDelete] writes. *)
Definition withoutPool (registry : Registry) (poolName : string) (now : Z)
  : Registry :=
  set_lastModified (set_pools registry (delete poolName (pools registry))) now.

(** The test [removeStaleLeases] filters with: the port of the lease is the
    port of a stale item. *)
Definition sharesStalePort (staleLeases : list (Lease * StaleReason)) (l : Lease)
  : bool :=
  includes (stalePortsOf staleLeases) (port l).

(** What the registry file says, the time stamp apart: the pools and the
    leases [getRegistry] would return. *)
Definition State : Type := gmap string Pool * list Lease.

Definition view (w : World) : State := (pools (loaded w), leases (loaded w)).

(** The ways a call can change the pools and the leases. *)
Inductive step : State -> State -> Prop :=
| step_none (st : State) :
    step st st
| step_lease (ps : gmap string Pool) (ls : list Lease) (l : Lease) (range : Pool) :
    identifier l <> "" ->
    ps !! pool l = Some range ->
    rangeStart range <= port l <= rangeEnd range ->
    (forall x, In x ls ->
               ~ (identifier x = identifier l /\ pool x = pool l /\ tag x = tag l)) ->
    step (ps, ls) (ps, (ls ++ [l])%list)
| step_remove (ps : gmap string Pool) (ls : list Lease) (gone : Lease -> bool) :
    step (ps, ls) (ps, List.filter (fun l => negb (gone l)) ls)
| step_poolAdd (ps : gmap string Pool) (ls : list Lease) (name : string) (rs re : Z) :
    name <> "" ->
    ps !! name = None ->
    rs <> 0 -> re <> 0 -> rs < re ->
    step (ps, ls) (<[name := mkPool rs re]> ps, ls)
| step_poolUpdate (ps : gmap string Pool) (ls : list Lease) (name : string) (rs re : Z) :
    is_Some (ps !! name) ->
    rs <> 0 -> re <> 0 -> rs < re ->
    (forall l, In l ls -> pool l = name -> rs <= port l <= re) ->
    step (ps, ls) (<[name := mkPool rs re]> ps, ls)
| step_poolDelete (ps : gmap string Pool) (ls : list Lease) (name : string) :
    (forall l, In l ls -> pool l <> name) ->
    step (ps, ls) (delete name ps, ls)
| step_init (st : State) :
    step st (pools getDefaultRegistry, []).

(** The invariants of the registries the API produces. *)
Definition poolsKnown (st : State) : Prop :=
  forall l, In l (snd st) -> is_Some (fst st !! pool l).

Definition boundsValid (st : State) : Prop :=
  forall name p, fst st !! name = Some p ->
                 rangeStart p <> 0 /\ rangeEnd p <> 0 /\ rangeStart p < rangeEnd p.

Definition portsInRange (st : State) : Prop :=
  forall l p, In l (snd st) -> fst st !! pool l = Some p ->
              rangeStart p <= port l <= rangeEnd p.

Definition oneLeasePerTriple (st : State) : Prop :=
  forall ident pl tg, (countTriple ident pl tg (snd st) <= 1)%nat.

Definition namesGiven (st : State) : Prop :=
  (forall name p, fst st !! name = Some p -> name <> "")
  /\ (forall l, In l (snd st) -> identifier l <> "").

Record wellFormed (st : State) : Prop := mkWellFormed {
  wf_known : poolsKnown st;
  wf_bounds : boundsValid st;
  wf_range : portsInRange st;
  wf_unique : oneLeasePerTriple st;
  wf_names : namesGiven st
}.

Section WithCollaborators.

Variable portChecker : Z -> bool.
Variable existsSync : string -> bool.
Variable gitRoot : string.

(** The test of the loop on one candidate. *)
Definition available (leasedPorts : list Z) (p : Z) : bool :=
  negb (includes leasedPorts p) && negb (portChecker p).

(** A port is free for pool [pl]: not recorded as leased in the pool and
    not reported in use by the probe. *)
Definition freePort (registry : Registry) (pl : string) (p : Z) : Prop :=
  ~ leasedIn registry pl p /\ portChecker p = false.

(** The worktree path [lease] records. *)
Definition effectivePath (wt : string) : string :=
  if truthyS wt then wt else gitRoot.

(** The two conditions of the rule, for the threshold of 7 days that
    [cleanup] uses. *)
Definition worktreeGone (l : Lease) : Prop :=
  worktreePath l <> "" /\ existsSync (worktreePath l) = false.

Definition olderThan7Days (now : Z) (l : Lease) : Prop :=
  exists t, leasedAt l = Some t /\ now - t > 7 * 24 * 60 * 60 * 1000.

(** What [cleanup] finds stale in a registry at a given time. *)
Definition staleAt (now : Z) (registry : Registry) : list (Lease * StaleReason) :=
  findStaleLeases existsSync (Some portChecker) 7 now registry.

End WithCollaborators.

(** The worlds the API can get to from a start without a registry file: by
    calls of the API, each with whatever the probe, the file system and git
    answer at that call, and, between two calls, by whatever happens to the
    clock and to the lock marker (time passes, the clock is set, another
    process creates or removes the marker).  The registry file is written
    by the calls of the API only. *)
Inductive reachable : World -> Prop :=
| reach_start (marker : option Z) (now : Z) :
    reachable (mkWorld marker None now)
| reach_call (portChecker : Z -> bool) (existsSync : string -> bool)
    (gitRoot : string) (c : API.Call) (w w' : World) :
    reachable w ->
    API.run portChecker existsSync gitRoot c w = Some w' ->
    reachable w'
| reach_between (marker : option Z) (now : Z) (w : World) :
    reachable w ->
    reachable (mkWorld marker (registryFile w) now).

(** [Number.MAX_SAFE_INTEGER], 2^53 - 1, and [Number.isSafeInteger] on an
    integer.  The code counts ports up with [port++] on JavaScript numbers;
    between safe integers that is the successor on [Z], as the embedding
    has it, and from 2^53 on it is not.  What is stated of a scan of a
    range is stated for bounds that are safe integers. *)
Definition MAX_SAFE_INTEGER : Z := 2 ^ 53 - 1.

Definition isSafeInteger (n : Z) : Prop :=
  - MAX_SAFE_INTEGER <= n <= MAX_SAFE_INTEGER.

(** The property names an object of JavaScript inherits from
    [Object.prototype] (those of Node.js).  For such a name
    [registry.pools[name]] is there, and truthy, whether or not the
    registry has a pool of that name; for every other name it is the pool
    of that name or [undefined], which is what the lookup in the map of
    the embedding gives.  What is stated of a name the registry has no pool
    of is stated for names that are not inherited. *)
Definition objectPrototypeNames : list string :=
  [ "constructor"; "__defineGetter__"; "__defineSetter__"; "hasOwnProperty";
    "__lookupGetter__"; "__lookupSetter__"; "isPrototypeOf";
    "propertyIsEnumerable"; "toString"; "valueOf"; "__proto__";
    "toLocaleString" ].

Definition inheritedName (name : string) : Prop := In name objectPrototypeNames.

End Terms.

Import Terms.

(** * Further terms

    For the properties of the whole API: how a call can change the list of
    leases, and the places and keys of the leases. *)

Module Notions.
Import Reg Terms.

(** The key of a lease, and the place it takes in its pool. *)
Definition tripleOf (l : Lease) : string * string * string :=
  (identifier l, pool l, tag l).

Definition placeOf (l : Lease) : string * Z := (pool l, port l).

(** The ways a call can change the list of leases: not at all, by removing
    some, by appending one whose place no lease has, or by dropping all. *)
Inductive leasesChange : list Lease -> list Lease -> Prop :=
| lc_same (ls : list Lease) :
    leasesChange ls ls
| lc_removed (ls : list Lease) (gone : Lease -> bool) :
    leasesChange ls (List.filter (fun l => negb (gone l)) ls)
| lc_appended (ls : list Lease) (l : Lease) :
    (forall x, In x ls -> placeOf x <> placeOf l) ->
    leasesChange ls (ls ++ [l])%list
| lc_emptied (ls : list Lease) :
    leasesChange ls [].

(** The same, between what the registry file says before and after. *)
Definition leasesRelated (st st' : State) : Prop :=
  leasesChange (snd st) (snd st').

(** The ports of an inclusive range, in ascending order. *)
Definition portsOfRange (range : Pool) : list Z :=
  List.map (fun k => rangeStart range + Z.of_nat k)
    (List.seq 0 (Z.to_nat (rangeEnd range - rangeStart range + 1))).

(** The registry file after a call is the one before it, or the default
    registry where there was none. *)
Definition fileKept (w w' : World) : Prop :=
  registryFile w' = registryFile w
  \/ (registryFile w = None
      /\ exists t, registryFile w' = Some (set_lastModified getDefaultRegistry t)).


(** Two states with the same pools, and with the same leases. *)
Definition poolsSame (st st' : State) : Prop := fst st = fst st'.
Definition leasesSame (st st' : State) : Prop := snd st = snd st'.

End Notions.

Import Notions.

(** * Concrete registries *)

(** A probe that finds no port in use, and one that finds every port in
    use. *)
Definition probeNone (p : Z) : bool := false.
Definition probeAll (p : Z) : bool := true.

(** The world an operation leaves, whatever it returns. *)
Definition after {A : Type} (m : M A) (w : World) : World :=
  match m w with
  | Some (_, w') => w'
  | None => w
  end.

(** The default registry with one lease of [frontend]. *)
Definition leaseOne : Lease :=
  {| port := 3300; pool := "frontend"; identifier := "proj";
     worktreePath := "/p"; tag := ""; leasedAt := Some 1000 |}.

Definition regOne : Registry :=
  {| version := "1.0"; pools := pools Reg.getDefaultRegistry;
     leases := [leaseOne]; lastModified := Some 1000 |}.

Definition worldOne : World := mkWorld None (Some regOne) 2000.

(** The default registry, stamped, without leases. *)
Definition regFresh : Registry := set_lastModified Reg.getDefaultRegistry 1000.

Definition worldFresh : World := mkWorld None (Some regFresh) 1000.

(** A pool of two ports, both leased, by two projects. *)
Definition regFull : Registry :=
  {| version := "1.0";
     pools := <["x" := mkPool 7000 7001]> ∅;
     leases := [ {| port := 7000; pool := "x"; identifier := "projA";
                    worktreePath := "/a"; tag := ""; leasedAt := Some 1000 |};
                 {| port := 7001; pool := "x"; identifier := "projB";
                    worktreePath := "/b"; tag := ""; leasedAt := Some 1000 |} ];
     lastModified := Some 1000 |}.

Definition worldFull : World := mkWorld None (Some regFull) 2000.

(** A pool whose range runs from -1 to 1, with -1 leased: the registry that
    [poolAdd "x" (-1) 1] and then [lease "x" "a" "proj" "/p"] leave when run
    on the default registry (see [regZero_reached]). *)
Definition regZero : Registry :=
  {| version := "1.0";
     pools := <["x" := mkPool (-1) 1]> (pools Reg.getDefaultRegistry);
     leases := [ {| port := -1; pool := "x"; identifier := "proj";
                    worktreePath := "/p"; tag := "a"; leasedAt := Some 1000 |} ];
     lastModified := Some 1000 |}.

Definition worldZero : World := mkWorld None (Some regZero) 1000.

(** Two leases of [backend] for one project, with the default tag and with
    the tag [api], and a lease of another project. *)
Definition leaseDefaultTag : Lease :=
  {| port := 5300; pool := "backend"; identifier := "proj";
     worktreePath := "/p"; tag := ""; leasedAt := Some 1000 |}.

Definition leaseApiTag : Lease :=
  {| port := 5301; pool := "backend"; identifier := "proj";
     worktreePath := "/p"; tag := "api"; leasedAt := Some 1000 |}.

Definition leaseOther : Lease :=
  {| port := 3300; pool := "frontend"; identifier := "other";
     worktreePath := "/o"; tag := ""; leasedAt := Some 1000 |}.

Definition regTags : Registry :=
  {| version := "1.0"; pools := pools Reg.getDefaultRegistry;
     leases := [leaseDefaultTag; leaseApiTag; leaseOther];
     lastModified := Some 1000 |}.

Definition worldTags : World := mkWorld None (Some regTags) 2000.

(** Eight days in milliseconds, and leases taken at time 0. *)
Definition eightDays : Z := 8 * 24 * 60 * 60 * 1000.

Definition onlyHere (path : string) : bool := String.eqb path "/here".

Definition leaseGone : Lease :=
  {| port := 8000; pool := "a"; identifier := "p1";
     worktreePath := "/gone"; tag := ""; leasedAt := Some 0 |}.

Definition leaseHere : Lease :=
  {| port := 8000; pool := "b"; identifier := "p2";
     worktreePath := "/here"; tag := ""; leasedAt := Some 0 |}.

(** A lease of the pool [frontend-https]. *)
Definition leaseHttps : Lease :=
  {| port := 9000; pool := "frontend-https"; identifier := "proj";
     worktreePath := "/p"; tag := ""; leasedAt := Some 1000 |}.

Definition regHttps : Registry :=
  {| version := "1.0";
     pools := <["frontend-https" := mkPool 9000 9010]> (pools Reg.getDefaultRegistry);
     leases := [leaseHttps];
     lastModified := Some 1000 |}.

Definition worldHttps : World := mkWorld None (Some regHttps) 2000.

(** Two pools with the same range, and the same port leased in both: the
    registry that [poolAdd "a" 8000 8010], [poolAdd "b" 8000 8010],
    [lease "a"] and [lease "b"] leave when the probe finds the port free. *)
Definition regShared : Registry :=
  {| version := "1.0";
     pools := <["a" := mkPool 8000 8010]> (<["b" := mkPool 8000 8010]> ∅);
     leases := [leaseGone; leaseHere];
     lastModified := Some 0 |}.

Definition worldShared : World := mkWorld None (Some regShared) 2000.

(** A registry with a pool that starts at 0, which only a hand-written
    file can hold. *)
Definition regZeroBound : Registry :=
  {| version := "1.0"; pools := <["z" := mkPool 0 5]> ∅; leases := [];
     lastModified := Some 0 |}.

(** The registry of [regOne] while another process holds the lock: with a
    marker one second old, with one that is 69 seconds old, and with one
    that is 40 seconds old. *)
Definition worldHeld : World := mkWorld (Some 1000) (Some regOne) 2000.
Definition worldStaleLock : World := mkWorld (Some 1000) (Some regOne) 70000.
Definition worldAgingLock : World := mkWorld (Some 1000) (Some regOne) 41000.

(** The default pools and a pool of two ports, both leased: the registry
    that [poolAdd "x" 7000 7001], [lease "x" "" "projA" "/a"] and
    [lease "x" "" "projB" "/b"] leave when run at time 1000 without a
    registry file (see [worldPacked_reachable]). *)
Definition regPacked : Registry :=
  {| version := "1.0";
     pools := <["x" := mkPool 7000 7001]> (pools Reg.getDefaultRegistry);
     leases := leases regFull;
     lastModified := Some 1000 |}.

Definition worldPacked : World := mkWorld None (Some regPacked) 1000.

(** The two pools of [regShared] with the lease of pool [a] only, and with
    no lease. *)
Definition regSharedA : Registry := set_leases regShared [leaseGone].
Definition regSharedNone : Registry := set_leases regShared [].

(** [toUpperCase] on the letters a to z. *)
Definition upperAscii (c : ascii) : ascii :=
  let n := nat_of_ascii c in
  if (Nat.leb 97 n && Nat.leb n 122)%bool then ascii_of_nat (n - 32) else c.

Fixpoint upperString (s : string) : string :=
  match s with
  | EmptyString => EmptyString
  | String c rest => String (upperAscii c) (upperString rest)
  end.

(** A lease of [backend] with the tag [API]. *)
Definition leaseUpperTag : Lease :=
  {| port := 5302; pool := "backend"; identifier := "proj";
     worktreePath := "/p"; tag := "API"; leasedAt := Some 1000 |}.

Definition regNames : Registry :=
  set_leases regTags [leaseDefaultTag; leaseApiTag; leaseOther; leaseUpperTag].

Definition worldNames : World := mkWorld None (Some regNames) 2000.

(** A file system where every path exists. *)
Definition everywhere (path : string) : bool := true.

(** * Properties *)

(** ** The monad *)

Lemma world_eta (w : World) :
  mkWorld (lockFile w) (registryFile w) (clock w) = w.
Proof. destruct w; reflexivity. Qed.

Lemma bind_ok {A B : Type} (m : M A) (k : A -> M B) (w w' : World) (a : A) :
  m w = Some (Ok a, w') -> bind m k w = k a w'.
Proof. intros H. unfold bind. rewrite H. reflexivity. Qed.

Lemma bind_throw {A B : Type} (m : M A) (k : A -> M B) (w w' : World) (e : Error) :
  m w = Some (Throw e, w') -> bind m k w = Some (Throw e, w').
Proof. intros H. unfold bind. rewrite H. reflexivity. Qed.

(** ** The lock *)

Module LockFacts.
Import Lock.

Lemma releaseLock_spec (w : World) :
  releaseLock w = Some (Ok tt, set_lockFile w None).
Proof.
  unfold releaseLock, unlink.
  destruct (lockFile w) eqn:E; [reflexivity|].
  unfold set_lockFile. rewrite <- E. rewrite world_eta. reflexivity.
Qed.

Lemma acquire_loop_registry (fuel : nat) (timeoutMs startTime : Z) :
  forall (w w' : World) (r : result unit),
    acquire_loop fuel timeoutMs startTime w = Some (r, w') ->
    registryFile w' = registryFile w.
Proof.
  induction fuel as [|fuel IH]; intros w w' r H; simpl in H; [discriminate|].
  unfold openExclusive, statMtime, unlink in H.
  destruct (lockFile w) as [m|] eqn:E.
  - destruct (clock w - m >? STALE_LOCK_AGE_MS).
    + apply IH in H. exact H.
    + destruct (clock w - startTime >? timeoutMs).
      * inversion H; reflexivity.
      * apply IH in H. exact H.
  - inversion H; reflexivity.
Qed.

(** A successful acquisition leaves the marker in place, stamped with the
    time of its creation, and time has not gone backwards. *)
Lemma acquire_loop_ok (fuel : nat) (timeoutMs startTime : Z) :
  forall (w w' : World),
    acquire_loop fuel timeoutMs startTime w = Some (Ok tt, w') ->
    lockFile w' = Some (clock w') /\ clock w <= clock w'.
Proof.
  induction fuel as [|fuel IH]; intros w w' H; simpl in H; [discriminate|].
  unfold openExclusive, statMtime, unlink in H.
  destruct (lockFile w) as [m|] eqn:E.
  - destruct (clock w - m >? STALE_LOCK_AGE_MS).
    + apply IH in H. simpl in H. exact H.
    + destruct (clock w - startTime >? timeoutMs); [discriminate|].
      apply IH in H. simpl in H. split; [tauto|lia].
  - inversion H; subst; simpl. split; [reflexivity|lia].
Qed.

Lemma acquire_loop_returns (fuel : nat) (timeoutMs startTime : Z) :
  forall w : World,
    (turns_needed timeoutMs startTime w <= fuel)%nat ->
    is_Some (acquire_loop fuel timeoutMs startTime w).
Proof.
  induction fuel as [|fuel IH]; intros w Hf.
  - unfold turns_needed in Hf. destruct (_ >? _); lia.
  - simpl. unfold openExclusive, statMtime, unlink.
    destruct (lockFile w) as [m|] eqn:E; [|eauto].
    assert (Hwait : is_Some
              (if clock w - startTime >? timeoutMs
               then Some (Throw (LockTimeout timeoutMs), w)
               else acquire_loop fuel timeoutMs startTime (sleep 100 w))).
    { unfold turns_needed in Hf.
      destruct (clock w - startTime >? timeoutMs) eqn:Et; [eauto|].
      apply IH. unfold turns_needed, sleep; simpl.
      rewrite Z.gtb_ltb in Et. apply Z.ltb_ge in Et.
      destruct (clock w + 100 - startTime >? timeoutMs) eqn:Et'.
      - assert (0 <= (timeoutMs - (clock w - startTime)) / 100)
          by (apply Z.div_pos; lia).
        lia.
      - rewrite Z.gtb_ltb in Et'. apply Z.ltb_ge in Et'.
        replace (timeoutMs - (clock w + 100 - startTime))
          with ((timeoutMs - (clock w - startTime)) + (-1) * 100) by lia.
        rewrite Z.div_add by lia.
        assert (1 <= (timeoutMs - (clock w - startTime)) / 100)
          by (apply Z.div_le_lower_bound; lia).
        lia. }
    destruct (clock w - m >? STALE_LOCK_AGE_MS); [|exact Hwait].
    destruct fuel as [|fuel'].
    + unfold turns_needed in Hf. destruct (_ >? _); lia.
    + simpl. eauto.
Qed.

(** [acquireLock] returns: it resolves or it throws [LockTimeout]. *)
Lemma acquireLock_returns (timeoutMs : Z) (w : World) :
  is_Some (acquireLock timeoutMs w).
Proof.
  unfold acquireLock. apply acquire_loop_returns.
  unfold turns_needed, acquire_fuel.
  replace (clock w - clock w) with 0 by lia.
  destruct (0 >? timeoutMs); [lia|].
  rewrite Z.sub_0_r. lia.
Qed.

Lemma acquireLock_free (timeoutMs : Z) (w : World) :
  lockFile w = None ->
  acquireLock timeoutMs w = Some (Ok tt, set_lockFile w (Some (clock w))).
Proof.
  intros H. unfold acquireLock, acquire_fuel.
  rewrite Nat.add_comm. simpl. unfold openExclusive. rewrite H. reflexivity.
Qed.

Lemma acquireLock_registry (timeoutMs : Z) (w w' : World) (r : result unit) :
  acquireLock timeoutMs w = Some (r, w') -> registryFile w' = registryFile w.
Proof. apply acquire_loop_registry. Qed.

Lemma acquireLock_ok (timeoutMs : Z) (w w' : World) :
  acquireLock timeoutMs w = Some (Ok tt, w') ->
  lockFile w' = Some (clock w') /\ clock w <= clock w'.
Proof. apply acquire_loop_ok. Qed.

(** What [withLock] does once the lock is acquired. *)
Lemma withLock_run {A : Type} (fn : M A) (timeoutMs : Z) (w w1 w2 : World)
  (r : result A) :
  acquireLock timeoutMs w = Some (Ok tt, w1) ->
  fn w1 = Some (r, w2) ->
  withLock fn timeoutMs w = Some (r, set_lockFile w2 None).
Proof.
  intros Ha Hf. unfold withLock. rewrite (bind_ok _ _ _ _ _ Ha).
  unfold try_finally. rewrite Hf, releaseLock_spec. destruct r; reflexivity.
Qed.

(** When the lock is not acquired, [fn] is not run. *)
Lemma withLock_timeout {A : Type} (fn : M A) (timeoutMs : Z) (w w1 : World)
  (e : Error) :
  acquireLock timeoutMs w = Some (Throw e, w1) ->
  withLock fn timeoutMs w = Some (Throw e, w1).
Proof. intros Ha. unfold withLock. apply bind_throw. exact Ha. Qed.

(** Every way [withLock] can come back: the lock was not acquired and [fn]
    did not run, or [fn] ran under the lock and its outcome is handed on
    with the marker removed. *)
Lemma withLock_inv {A : Type} (fn : M A) (timeoutMs : Z) (w w' : World)
  (r : result A) :
  withLock fn timeoutMs w = Some (r, w') ->
  (exists e, acquireLock timeoutMs w = Some (Throw e, w') /\ r = Throw e)
  \/ (exists w1 w2,
        acquireLock timeoutMs w = Some (Ok tt, w1)
        /\ fn w1 = Some (r, w2)
        /\ w' = set_lockFile w2 None).
Proof.
  unfold withLock, bind.
  destruct (acquireLock timeoutMs w) as [[[[]|e] w1]|]; [| |discriminate].
  - unfold try_finally. destruct (fn w1) as [[r2 w2]|] eqn:Hf; [|discriminate].
    rewrite releaseLock_spec. intros H. right. exists w1, w2.
    assert (r2 = r /\ set_lockFile w2 None = w') as [-> <-]
      by (destruct r2; inversion H; split; reflexivity).
    repeat split; [exact Hf].
  - intros H. inversion H; subst. left. exists e. split; reflexivity.
Qed.

Lemma withLock_ok_inv {A : Type} (fn : M A) (timeoutMs : Z) (w w' : World) (a : A) :
  withLock fn timeoutMs w = Some (Ok a, w') ->
  exists w1 w2,
    acquireLock timeoutMs w = Some (Ok tt, w1)
    /\ fn w1 = Some (Ok a, w2)
    /\ w' = set_lockFile w2 None.
Proof.
  intros H. apply withLock_inv in H. destruct H as [(e & _ & He)|H].
  - discriminate.
  - exact H.
Qed.

End LockFacts.

(** ** Truthiness *)

Lemma truthyS_true (s : string) : truthyS s = true <-> s <> "".
Proof.
  unfold truthyS. destruct (String.eqb_spec s ""); simpl; split; congruence.
Qed.

Lemma truthyZ_true (n : Z) : truthyZ n = true <-> n <> 0.
Proof.
  unfold truthyZ. destruct (Z.eqb_spec n 0); simpl; split; congruence.
Qed.

(** ** Registry helpers *)

Module RegFacts.
Import Reg.

Lemma includes_true (ps : list Z) (p : Z) : includes ps p = true <-> In p ps.
Proof.
  unfold includes. rewrite existsb_exists. split.
  - intros (x & Hx & E). apply Z.eqb_eq in E. subst. exact Hx.
  - intros H. exists p. split; [exact H|apply Z.eqb_refl].
Qed.

Lemma includes_leasedPorts (registry : Registry) (pl : string) (p : Z) :
  includes (getLeasedPorts registry pl) p = true <-> leasedIn registry pl p.
Proof.
  rewrite includes_true. unfold getLeasedPorts, leasedIn.
  rewrite in_map_iff. split.
  - intros (l & E & Hl). apply filter_In in Hl. destruct Hl as [Hl Hp].
    unfold inPool in Hp. apply bool_decide_eq_true in Hp. eauto.
  - intros (l & Hl & Hp & E). exists l. split; [exact E|].
    apply filter_In. split; [exact Hl|].
    unfold inPool. apply bool_decide_eq_true. exact Hp.
Qed.

Lemma sameTriple_true (ident pl tg : string) (l : Lease) :
  sameTriple ident pl tg l = true <->
  identifier l = ident /\ pool l = pl /\ tag l = tg.
Proof.
  unfold sameTriple. rewrite !andb_true_iff, !bool_decide_eq_true. tauto.
Qed.

(** [getExistingLease] finds a lease exactly when one of the triple is in
    the list, and what it finds is of the triple. *)
Lemma getExistingLease_Some (registry : Registry) (ident pl tg : string) (l : Lease) :
  getExistingLease registry ident pl tg = Some l ->
  In l (leases registry) /\ identifier l = ident /\ pool l = pl /\ tag l = tg.
Proof.
  unfold getExistingLease. intros H. apply find_some in H.
  rewrite sameTriple_true in H. exact H.
Qed.

Lemma getExistingLease_None (registry : Registry) (ident pl tg : string) :
  getExistingLease registry ident pl tg = None <->
  forall l, In l (leases registry) ->
            ~ (identifier l = ident /\ pool l = pl /\ tag l = tg).
Proof.
  unfold getExistingLease. split.
  - intros H l Hl Ht. apply (find_none _ _ H) in Hl.
    apply sameTriple_true in Ht. congruence.
  - intros H. destruct (find _ _) as [l|] eqn:E; [|reflexivity].
    apply find_some in E. destruct E as [Hl Ht].
    apply sameTriple_true in Ht. exfalso. exact (H l Hl Ht).
Qed.

Lemma getExistingLease_is_Some (registry : Registry) (ident pl tg : string) (l : Lease) :
  In l (leases registry) ->
  identifier l = ident -> pool l = pl -> tag l = tg ->
  is_Some (getExistingLease registry ident pl tg).
Proof.
  intros Hl Hi Hp Ht.
  destruct (getExistingLease registry ident pl tg) eqn:E; [eauto|].
  rewrite getExistingLease_None in E. exfalso. apply (E l Hl). tauto.
Qed.

Lemma find_app_None {A : Type} (f : A -> bool) (xs ys : list A) :
  List.find f xs = None -> List.find f (xs ++ ys) = List.find f ys.
Proof.
  induction xs as [|x xs IH]; simpl; [reflexivity|].
  destruct (f x); [discriminate|exact IH].
Qed.

(** [removeWhere]: what is kept, and what is counted. *)
Lemma filter_length_split {A : Type} (f : A -> bool) (xs : list A) :
  (length (List.filter f xs) + length (List.filter (fun x => negb (f x)) xs)
   = length xs)%nat.
Proof.
  induction xs as [|x xs IH]; simpl; [reflexivity|].
  destruct (f x); simpl; lia.
Qed.

Lemma removeWhere_count (gone : Lease -> bool) (registry : Registry) :
  fst (removeWhere gone registry) = length (List.filter gone (leases registry)).
Proof.
  unfold removeWhere; simpl.
  pose proof (filter_length_split gone (leases registry)). lia.
Qed.

Lemma removeWhere_registry (gone : Lease -> bool) (registry : Registry) :
  snd (removeWhere gone registry)
  = set_leases registry (List.filter (fun l => negb (gone l)) (leases registry)).
Proof. reflexivity. Qed.

Lemma filter_none_length {A : Type} (f : A -> bool) (xs : list A) :
  length (List.filter f xs) = 0%nat ->
  List.filter (fun x => negb (f x)) xs = xs.
Proof.
  induction xs as [|x xs IH]; simpl; [reflexivity|].
  destruct (f x); simpl; [discriminate|].
  intros H. rewrite IH by exact H. reflexivity.
Qed.

End RegFacts.

(** ** The store *)

Module StoreFacts.
Import Store.

Lemma getRegistry_spec (w : World) :
  getRegistry w = Some (Ok (loaded w), set_registryFile w (Some (loaded w))).
Proof.
  unfold getRegistry, loaded, initRegistry.
  destruct (registryFile w) eqn:E; [|reflexivity].
  unfold set_registryFile. rewrite <- E, world_eta. reflexivity.
Qed.

Lemma getRegistry_file (w : World) (registry : Registry) :
  registryFile w = Some registry -> getRegistry w = Some (Ok registry, w).
Proof. intros H. unfold getRegistry. rewrite H. reflexivity. Qed.

End StoreFacts.

(** ** lease *)

Lemma acquires_free (w : World) :
  lockFile w = None -> acquires w (set_lockFile w (Some (clock w))).
Proof. apply LockFacts.acquireLock_free. Qed.

Lemma acquires_registry (w w1 : World) :
  acquires w w1 -> registryFile w1 = registryFile w.
Proof. apply LockFacts.acquireLock_registry. Qed.

Module LeaseFacts.
Section WithCollaborators.
Import Reg RegFacts StoreFacts.

Variable portChecker : Z -> bool.
Variable gitRoot : string.

#[local] Abbreviation scanPorts := (API.scanPorts portChecker).
#[local] Abbreviation findPort := (API.findPort portChecker).
#[local] Abbreviation leaseLocked := (API.leaseLocked portChecker).
#[local] Abbreviation lease := (API.lease portChecker gitRoot).
#[local] Abbreviation available := (Terms.available portChecker).
#[local] Abbreviation freePort := (Terms.freePort portChecker).
#[local] Abbreviation effectivePath := (Terms.effectivePath gitRoot).

Lemma available_free (registry : Registry) (pl : string) (p : Z) :
  available (getLeasedPorts registry pl) p = true <-> freePort registry pl p.
Proof.
  unfold Terms.available, Terms.freePort.
  rewrite andb_true_iff, !negb_true_iff, <- includes_leasedPorts.
  destruct (includes _ _); intuition congruence.
Qed.

Lemma scanPorts_Some (lp : list Z) (n : nat) :
  forall p q : Z,
    scanPorts lp n p = Some q ->
    p <= q < p + Z.of_nat n /\ available lp q = true
    /\ forall q', p <= q' < q -> available lp q' = false.
Proof.
  induction n as [|n IH]; intros p q H; simpl in H; [discriminate|].
  fold (available lp p) in H.
  destruct (available lp p) eqn:E.
  - inversion H; subst. repeat split; try lia. exact E.
  - apply IH in H. destruct H as (Hr & Ha & Hm).
    repeat split; try lia; [exact Ha|].
    intros q' Hq'. destruct (Z.eq_dec q' p) as [->|Hne]; [exact E|].
    apply Hm. lia.
Qed.

Lemma scanPorts_None (lp : list Z) (n : nat) :
  forall p : Z,
    scanPorts lp n p = None <->
    forall q, p <= q < p + Z.of_nat n -> available lp q = false.
Proof.
  induction n as [|n IH]; intros p; simpl.
  - split; [intros _ q Hq; lia|reflexivity].
  - fold (available lp p). split.
    + intros H q Hq. destruct (available lp p) eqn:E; [discriminate|].
      destruct (Z.eq_dec q p) as [->|Hne]; [exact E|].
      apply (proj1 (IH (p + 1)) H). lia.
    + intros H. rewrite (H p) by lia. apply IH. intros q Hq. apply H. lia.
Qed.

Lemma scanPorts_first (lp : list Z) (n : nat) (p q : Z) :
  p <= q < p + Z.of_nat n ->
  available lp q = true ->
  (forall q', p <= q' < q -> available lp q' = false) ->
  scanPorts lp n p = Some q.
Proof.
  intros Hr Ha Hm.
  destruct (scanPorts lp n p) as [q0|] eqn:E.
  - apply scanPorts_Some in E. destruct E as (Hr0 & Ha0 & Hm0).
    destruct (Z.lt_trichotomy q0 q) as [Hlt|[->|Hgt]]; [|reflexivity|].
    + rewrite Hm in Ha0 by lia. discriminate.
    + rewrite Hm0 in Ha by lia. discriminate.
  - rewrite scanPorts_None in E. rewrite (E q Hr) in Ha. discriminate.
Qed.

Lemma findPort_Some (lp : list Z) (rs re q : Z) :
  findPort lp rs re = Some q ->
  rs <= q <= re /\ available lp q = true
  /\ forall q', rs <= q' < q -> available lp q' = false.
Proof.
  unfold API.findPort. intros H. apply scanPorts_Some in H.
  destruct H as (Hr & Ha & Hm). repeat split; try lia; assumption.
Qed.

Lemma findPort_None (lp : list Z) (rs re : Z) :
  findPort lp rs re = None <->
  forall q, rs <= q <= re -> available lp q = false.
Proof.
  unfold API.findPort. rewrite scanPorts_None. split; intros H q Hq; apply H; lia.
Qed.

Lemma findPort_first (lp : list Z) (rs re q : Z) :
  rs <= q <= re ->
  available lp q = true ->
  (forall q', rs <= q' < q -> available lp q' = false) ->
  findPort lp rs re = Some q.
Proof.
  intros Hr Ha Hm. unfold API.findPort. apply scanPorts_first; try assumption. lia.
Qed.

Lemma lease_unfold (pl tg ident wt : string) (w : World) :
  pl <> "" -> ident <> "" ->
  lease pl tg ident wt w
  = Lock.withLock (leaseLocked pl tg ident (effectivePath wt)) 30000 w.
Proof.
  intros Hp Hi. unfold API.lease, API.resolveIdentifier.
  apply truthyS_true in Hp. apply truthyS_true in Hi.
  rewrite Hp, Hi. reflexivity.
Qed.

Lemma leaseLocked_existing (pl tg ident wt : string) (w : World)
  (registry : Registry) (existing : Lease) :
  registryFile w = Some registry ->
  is_Some (pools registry !! pl) ->
  getExistingLease registry ident pl tg = Some existing ->
  leaseLocked pl tg ident wt w
  = Some (Ok (mkLeaseResult (port existing) existing), w).
Proof.
  intros Hf [range Hr] He.
  unfold API.leaseLocked, bind, lift, Store.getRegistry, validatePool.
  rewrite Hf, Hr, He. reflexivity.
Qed.

Lemma leaseLocked_allocates (pl tg ident wt : string) (w : World)
  (registry : Registry) (range : Pool) (p : Z) :
  registryFile w = Some registry ->
  pools registry !! pl = Some range ->
  getExistingLease registry ident pl tg = None ->
  findPort (getLeasedPorts registry pl) (rangeStart range) (rangeEnd range) = Some p ->
  p <> 0 ->
  leaseLocked pl tg ident wt w
  = Some (Ok (mkLeaseResult p (newLease p pl ident wt tg (clock w))),
          set_registryFile w
            (Some (withNewLease registry (newLease p pl ident wt tg (clock w))
                     (clock w)))).
Proof.
  intros Hf Hr He Hp Hz. apply truthyZ_true in Hz.
  unfold API.leaseLocked, bind, lift, Store.getRegistry, validatePool.
  rewrite Hf, Hr, He, Hp, Hz. reflexivity.
Qed.

Lemma leaseLocked_exhausted (pl tg ident wt : string) (w : World)
  (registry : Registry) (range : Pool) :
  registryFile w = Some registry ->
  pools registry !! pl = Some range ->
  getExistingLease registry ident pl tg = None ->
  findPort (getLeasedPorts registry pl) (rangeStart range) (rangeEnd range) = None ->
  leaseLocked pl tg ident wt w
  = Some (Throw (PoolExhausted pl (rangeStart range) (rangeEnd range)), w).
Proof.
  intros Hf Hr He Hp.
  unfold API.leaseLocked, bind, lift, Store.getRegistry, validatePool.
  rewrite Hf, Hr, He, Hp. reflexivity.
Qed.

(** A free candidate 0 is taken for no candidate. *)
Lemma leaseLocked_zero (pl tg ident wt : string) (w : World)
  (registry : Registry) (range : Pool) :
  registryFile w = Some registry ->
  pools registry !! pl = Some range ->
  getExistingLease registry ident pl tg = None ->
  findPort (getLeasedPorts registry pl) (rangeStart range) (rangeEnd range) = Some 0 ->
  leaseLocked pl tg ident wt w
  = Some (Throw (PoolExhausted pl (rangeStart range) (rangeEnd range)), w).
Proof.
  intros Hf Hr He Hp.
  unfold API.leaseLocked, bind, lift, Store.getRegistry, validatePool.
  rewrite Hf, Hr, He, Hp. reflexivity.
Qed.

(** Every way [leaseLocked] can resolve: with the lease the registry it
    leaves has for the triple, first in the list. *)
Lemma leaseLocked_ok (pl tg ident wt : string) (w w' : World) (r : LeaseResult) :
  leaseLocked pl tg ident wt w = Some (Ok r, w') ->
  exists registry',
    registryFile w' = Some registry'
    /\ is_Some (pools registry' !! pl)
    /\ getExistingLease registry' ident pl tg = Some (lr_lease r)
    /\ lr_port r = port (lr_lease r)
    /\ clock w' = clock w /\ lockFile w' = lockFile w
    /\ (is_Some (getExistingLease (loaded w) ident pl tg) ->
        registry' = loaded w)
    /\ (getExistingLease (loaded w) ident pl tg = None ->
        leases registry' = (leases (loaded w) ++ [lr_lease r])%list).
Proof.
  unfold API.leaseLocked. rewrite (bind_ok _ _ _ _ _ (getRegistry_spec w)).
  set (registry := loaded w). set (w1 := set_registryFile w (Some registry)).
  unfold bind, lift, validatePool.
  destruct (pools registry !! pl) as [range|] eqn:Hr; [|discriminate].
  destruct (getExistingLease registry ident pl tg) as [ex|] eqn:He.
  - unfold ret. intros H. inversion H; subst; clear H. exists registry.
    simpl. repeat split; eauto. discriminate.
  - destruct (findPort _ _ _) as [p|] eqn:Hp; [|discriminate].
    destruct (truthyZ p) eqn:Hz; [|discriminate].
    unfold dateNow, Store.saveRegistry, ret; simpl.
    intros H. inversion H; subst; clear H. simpl.
    eexists. split; [reflexivity|]. simpl. repeat split.
    + rewrite Hr. eauto.
    + unfold getExistingLease in *. simpl.
      rewrite (find_app_None _ _ _ He). simpl.
      unfold sameTriple; simpl. rewrite !bool_decide_eq_true_2 by reflexivity.
      reflexivity.
    + intros [? ?]; discriminate.
Qed.

Lemma lease_ok_inv (pl tg ident wt : string) (w w' : World) (r : LeaseResult) :
  ident <> "" ->
  lease pl tg ident wt w = Some (Ok r, w') ->
  pl <> ""
  /\ exists w1 w2,
      acquires w w1
      /\ leaseLocked pl tg ident (effectivePath wt) w1 = Some (Ok r, w2)
      /\ w' = set_lockFile w2 None.
Proof.
  intros Hi H.
  assert (Hp : pl <> "").
  { intros ->. unfold API.lease in H. simpl in H. discriminate. }
  split; [exact Hp|].
  rewrite lease_unfold in H by assumption.
  apply LockFacts.withLock_ok_inv in H. exact H.
Qed.

Lemma loaded_file (w : World) (registry : Registry) :
  registryFile w = Some registry -> loaded w = registry.
Proof. intros H. unfold loaded. rewrite H. reflexivity. Qed.

Lemma countTriple_none (registry : Registry) (ident pl tg : string) :
  getExistingLease registry ident pl tg = None ->
  countTriple ident pl tg (leases registry) = 0%nat.
Proof.
  unfold getExistingLease, countTriple.
  induction (leases registry) as [|l ls IH]; simpl; [reflexivity|].
  destruct (sameTriple ident pl tg l); [discriminate|exact IH].
Qed.

Lemma countTriple_some (registry : Registry) (ident pl tg : string) (l : Lease) :
  getExistingLease registry ident pl tg = Some l ->
  (1 <= countTriple ident pl tg (leases registry))%nat.
Proof.
  unfold getExistingLease, countTriple.
  induction (leases registry) as [|x ls IH]; simpl; [discriminate|].
  destruct (sameTriple ident pl tg x); simpl; [lia|exact IH].
Qed.

(** A call for a triple that has a lease returns the first lease of the
    triple and leaves the registry file as it was. *)
Lemma lease_returns_existing (pl tg ident wt : string) (w w1 : World)
  (registry : Registry) (l : Lease) :
  pl <> "" -> ident <> "" ->
  acquires w w1 ->
  registryFile w = Some registry ->
  is_Some (pools registry !! pl) ->
  In l (leases registry) ->
  identifier l = ident -> pool l = pl -> tag l = tg ->
  exists existing w',
    lease pl tg ident wt w
    = Some (Ok (mkLeaseResult (port existing) existing), w')
    /\ In existing (leases registry)
    /\ identifier existing = ident /\ pool existing = pl /\ tag existing = tg
    /\ ((forall l', In l' (leases registry) ->
                    identifier l' = ident -> pool l' = pl -> tag l' = tg ->
                    l' = l) ->
        existing = l)
    /\ registryFile w' = Some registry
    /\ lockFile w' = None.
Proof.
  revert pl tg ident wt w w1 registry l.
  intros pl tg ident wt w w1 registry l Hp Hi Ha Hf Hk Hin Hli Hlp Hlt.
  destruct (getExistingLease_is_Some registry ident pl tg l Hin Hli Hlp Hlt)
    as [existing He].
  pose proof (getExistingLease_Some _ _ _ _ _ He) as (Hein & Hei & Hep & Het).
  exists existing, (set_lockFile w1 None).
  rewrite lease_unfold by assumption.
  assert (Hf1 : registryFile w1 = Some registry)
    by (rewrite (acquires_registry _ _ Ha); exact Hf).
  rewrite (LockFacts.withLock_run _ _ _ _ _ _ Ha
             (leaseLocked_existing pl tg ident _ w1 registry existing Hf1 Hk He)).
  repeat split; try assumption.
  intros Hu. apply Hu; assumption.
Qed.

(** A call that has succeeded, made again, returns the same port and lease
    and leaves the registry file as the first call left it. *)
Lemma lease_again (pl tg ident wt wt2 : string) (w w' : World)
  (registry : Registry) (r : LeaseResult) :
  ident <> "" ->
  registryFile w = Some registry ->
  lease pl tg ident wt w = Some (Ok r, w') ->
  exists w'' registry',
    lease pl tg ident wt2 w' = Some (Ok r, w'')
    /\ registryFile w' = Some registry'
    /\ registryFile w'' = Some registry'
    /\ ((countTriple ident pl tg (leases registry) <= 1)%nat ->
        countTriple ident pl tg (leases registry') = 1%nat).
Proof.
  revert pl tg ident wt wt2 w w' registry r.
  intros pl tg ident wt wt2 w w' registry r Hi Hf H.
  apply lease_ok_inv in H; [|exact Hi].
  destruct H as (Hp & w1 & w2 & Ha & Hb & ->).
  assert (Hf1 : registryFile w1 = Some registry)
    by (rewrite (acquires_registry _ _ Ha); exact Hf).
  destruct (leaseLocked_ok _ _ _ _ _ _ _ Hb)
    as (registry' & Hf2 & Hk & He & Hport & _ & _ & Hsame & Hnew).
  rewrite (loaded_file _ _ Hf1) in Hsame, Hnew.
  set (w' := set_lockFile w2 None).
  assert (Hfree : lockFile w' = None) by reflexivity.
  assert (Hf' : registryFile w' = Some registry') by exact Hf2.
  exists (set_lockFile (set_lockFile w' (Some (clock w'))) None), registry'.
  rewrite lease_unfold by assumption.
  pose proof (leaseLocked_existing pl tg ident (effectivePath wt2)
                (set_lockFile w' (Some (clock w'))) registry' (lr_lease r)
                Hf' Hk He) as Hrun.
  rewrite (LockFacts.withLock_run _ _ _ _ _ _ (acquires_free w' Hfree) Hrun).
  repeat split.
  + destruct r as [p lse]; simpl in *. subst p. reflexivity.
  + exact Hf'.
  + exact Hf'.
  + intros Hc.
    destruct (getExistingLease registry ident pl tg) as [ex|] eqn:Hex.
    * rewrite Hsame by eauto.
      pose proof (countTriple_some _ _ _ _ _ Hex). lia.
    * rewrite (Hnew eq_refl). unfold countTriple.
      rewrite List.filter_app, length_app.
      fold (countTriple ident pl tg (leases registry)).
      rewrite (countTriple_none _ _ _ _ Hex). simpl.
      apply getExistingLease_Some in He. destruct He as (_ & E1 & E2 & E3).
      replace (sameTriple ident pl tg (lr_lease r)) with true
        by (symmetry; apply sameTriple_true; tauto).
      reflexivity.
Qed.

Lemma not_free_unavailable (registry : Registry) (pl : string) (p : Z) :
  ~ freePort registry pl p -> available (getLeasedPorts registry pl) p = false.
Proof.
  intros H. destruct (available _ p) eqn:E; [|reflexivity].
  apply available_free in E. contradiction.
Qed.

Lemma taken_unavailable (registry : Registry) (pl : string) (p : Z) :
  leasedIn registry pl p \/ portChecker p = true ->
  available (getLeasedPorts registry pl) p = false.
Proof.
  intros H. apply not_free_unavailable. intros [Hl Hu].
  destruct H as [H|H]; [contradiction|congruence].
Qed.

(** X25 -- the lowest free port.  For a call with a pool and an identifier,
    a known pool whose two bounds are safe integers, the lock acquired and
    no lease of the triple yet: when [q] is the smallest port of the
    inclusive range that is neither leased in the pool nor reported in use,
    and [q] is not 0, [lease] returns [q] and writes the registry with the
    new lease appended.  And whenever such a call succeeds on a pool whose
    bounds are safe integers, the port it returns lies in the range of the
    pool, is free, and no smaller port of the range is. *)
Theorem lease_lowest_free_port :
  (forall (pl tg ident wt : string) (w w1 : World) (registry : Registry)
          (range : Pool) (q : Z),
      pl <> "" -> ident <> "" ->
      acquires w w1 ->
      registryFile w = Some registry ->
      pools registry !! pl = Some range ->
      isSafeInteger (rangeStart range) -> isSafeInteger (rangeEnd range) ->
      getExistingLease registry ident pl tg = None ->
      rangeStart range <= q <= rangeEnd range ->
      freePort registry pl q ->
      (forall q', rangeStart range <= q' < q -> ~ freePort registry pl q') ->
      q <> 0 ->
      exists w',
        lease pl tg ident wt w
        = Some (Ok (mkLeaseResult q
                      (newLease q pl ident (effectivePath wt) tg (clock w1))), w')
        /\ registryFile w'
           = Some (withNewLease registry
                     (newLease q pl ident (effectivePath wt) tg (clock w1))
                     (clock w1))
        /\ lockFile w' = None)
  /\ (forall (pl tg ident wt : string) (w w' : World) (registry : Registry)
             (r : LeaseResult),
         ident <> "" ->
         registryFile w = Some registry ->
         getExistingLease registry ident pl tg = None ->
         lease pl tg ident wt w = Some (Ok r, w') ->
         exists range,
           pools registry !! pl = Some range
           /\ (isSafeInteger (rangeStart range) ->
               isSafeInteger (rangeEnd range) ->
               rangeStart range <= lr_port r <= rangeEnd range
               /\ freePort registry pl (lr_port r)
               /\ (forall q', rangeStart range <= q' < lr_port r ->
                              ~ freePort registry pl q'))).
Proof.
  split.
  - intros pl tg ident wt w w1 registry range q Hp Hi Ha Hf Hr _ _ He Hq Hfree Hmin Hz.
    assert (Hf1 : registryFile w1 = Some registry)
      by (rewrite (acquires_registry _ _ Ha); exact Hf).
    assert (Hfind : findPort (getLeasedPorts registry pl)
                      (rangeStart range) (rangeEnd range) = Some q).
    { apply findPort_first; [exact Hq| |].
      - apply available_free. exact Hfree.
      - intros q' Hq'. apply not_free_unavailable. apply Hmin. exact Hq'. }
    eexists. rewrite lease_unfold by assumption.
    rewrite (LockFacts.withLock_run _ _ _ _ _ _ Ha
               (leaseLocked_allocates pl tg ident _ w1 registry range q
                  Hf1 Hr He Hfind Hz)).
    repeat split.
  - intros pl tg ident wt w w' registry r Hi Hf He H.
    apply lease_ok_inv in H; [|exact Hi].
    destruct H as (Hp & w1 & w2 & Ha & Hb & ->).
    assert (Hf1 : registryFile w1 = Some registry)
      by (rewrite (acquires_registry _ _ Ha); exact Hf).
    revert Hb. unfold API.leaseLocked, bind, lift, Store.getRegistry, validatePool.
    rewrite Hf1. destruct (pools registry !! pl) as [range|] eqn:Hr; [|discriminate].
    rewrite He.
    destruct (findPort _ _ _) as [p|] eqn:Hfind; [|discriminate].
    destruct (truthyZ p); [|discriminate].
    unfold dateNow, Store.saveRegistry, ret; simpl. intros H.
    inversion H; subst; clear H. simpl.
    apply findPort_Some in Hfind. destruct Hfind as (Hrange & Hav & Hmin).
    exists range. split; [reflexivity|]. intros _ _. repeat split; try lia.
    + apply available_free in Hav. apply Hav.
    + apply available_free in Hav. apply Hav.
    + intros q' Hq' Hfree. apply available_free in Hfree.
      rewrite Hmin in Hfree by exact Hq'. discriminate.
Qed.

(** C3 -- exhaustion, as the code has it.  For a call with a pool and an
    identifier, a known pool whose two bounds are safe integers, the lock
    acquired and no lease of the triple yet: when every port of the
    inclusive range is leased in the pool or reported in use, [lease] throws
    the exhaustion error, which carries the name of the pool and both
    bounds, and the registry file is left as it was. *)
Theorem lease_exhausted_leaves_registry :
  forall (pl tg ident wt : string) (w w1 : World) (registry : Registry)
         (range : Pool),
    pl <> "" -> ident <> "" ->
    acquires w w1 ->
    registryFile w = Some registry ->
    pools registry !! pl = Some range ->
    isSafeInteger (rangeStart range) -> isSafeInteger (rangeEnd range) ->
    getExistingLease registry ident pl tg = None ->
    (forall q, rangeStart range <= q <= rangeEnd range ->
               leasedIn registry pl q \/ portChecker q = true) ->
    exists w',
      lease pl tg ident wt w
      = Some (Throw (PoolExhausted pl (rangeStart range) (rangeEnd range)), w')
      /\ registryFile w' = Some registry
      /\ lockFile w' = None.
Proof.
  intros pl tg ident wt w w1 registry range Hp Hi Ha Hf Hr _ _ He Hall.
  assert (Hf1 : registryFile w1 = Some registry)
    by (rewrite (acquires_registry _ _ Ha); exact Hf).
  assert (Hfind : findPort (getLeasedPorts registry pl)
                    (rangeStart range) (rangeEnd range) = None).
  { apply findPort_None. intros q Hq. apply taken_unavailable. apply Hall. exact Hq. }
  exists (set_lockFile w1 None). rewrite lease_unfold by assumption.
  rewrite (LockFacts.withLock_run _ _ _ _ _ _ Ha
             (leaseLocked_exhausted pl tg ident _ w1 registry range
                Hf1 Hr He Hfind)).
  repeat split. exact Hf1.
Qed.

End WithCollaborators.
End LeaseFacts.

(** ** withLock *)

(** C8 -- guaranteed lock release.  Once [withLock] has acquired the lock,
    whatever [fn] does to the world and whether it returns or throws, the
    outcome of [fn] is handed on as it is and the lock marker is gone when
    [withLock] is done; nothing else of the world [fn] left is touched.
    Releasing when the marker is already absent succeeds and changes
    nothing. *)
Theorem withLock_always_releases :
  (forall (A : Type) (fn : M A) (timeoutMs : Z) (w w1 w2 : World) (r : result A),
      Lock.acquireLock timeoutMs w = Some (Ok tt, w1) ->
      fn w1 = Some (r, w2) ->
      exists w3,
        Lock.withLock fn timeoutMs w = Some (r, w3)
        /\ lockFile w3 = None
        /\ registryFile w3 = registryFile w2
        /\ clock w3 = clock w2)
  /\ (forall w : World,
         lockFile w = None -> Lock.releaseLock w = Some (Ok tt, w)).
Proof.
  split.
  - intros A fn timeoutMs w w1 w2 r Ha Hf.
    exists (set_lockFile w2 None).
    rewrite (LockFacts.withLock_run fn timeoutMs w w1 w2 r Ha Hf).
    repeat split.
  - intros w H. rewrite LockFacts.releaseLock_spec.
    unfold set_lockFile. rewrite <- H, world_eta. reflexivity.
Qed.

(** A function that writes the registry and then throws, run under a free
    lock and under a stale one. *)
Lemma withLock_always_releases_witness :
  (exists w3,
      Lock.withLock (bind (Store.saveRegistry Reg.getDefaultRegistry)
                          (fun _ => throw PoolRequired)) 30000
                    (mkWorld None None 5000)
      = Some (@Throw unit PoolRequired, w3)
      /\ lockFile w3 = None
      /\ registryFile w3
         = Some (set_lastModified Reg.getDefaultRegistry 5000)
      /\ clock w3 = 5000)
  /\ Lock.releaseLock (mkWorld None None 5000)
     = Some (Ok tt, mkWorld None None 5000).
Proof.
  split.
  - apply (proj1 withLock_always_releases unit _ 30000 (mkWorld None None 5000)
             (mkWorld (Some 5000) None 5000)
             (mkWorld (Some 5000)
                (Some (set_lastModified Reg.getDefaultRegistry 5000)) 5000)).
    + reflexivity.
    + reflexivity.
  - apply (proj2 withLock_always_releases). reflexivity.
Defined.

(** ** Concrete registries *)

Example regZero_reached :
  after (API.lease probeNone "/repo" "x" "a" "proj" "/p")
    (after (API.poolAdd "x" (-1) 1) (mkWorld None None 1000))
  = worldZero.
Proof. vm_compute. reflexivity. Qed.

(** ** lease on concrete registries *)

Lemma lease_lowest_free_port_witness :
  exists w',
    API.lease probeNone "/repo" "frontend" "api" "proj" "" worldOne
    = Some (Ok (mkLeaseResult 3301
                  (newLease 3301 "frontend" "proj" "/repo" "api" 2000)), w')
    /\ registryFile w'
       = Some (withNewLease regOne
                 (newLease 3301 "frontend" "proj" "/repo" "api" 2000)
                 2000)
    /\ lockFile w' = None.
Proof.
  apply (proj1 (LeaseFacts.lease_lowest_free_port probeNone "/repo")
           "frontend" "api" "proj" "" worldOne
           (mkWorld (Some 2000) (Some regOne) 2000) regOne (mkPool 3300 3499) 3301).
  - discriminate.
  - discriminate.
  - reflexivity.
  - reflexivity.
  - reflexivity.
  - unfold isSafeInteger, MAX_SAFE_INTEGER. simpl. lia.
  - unfold isSafeInteger, MAX_SAFE_INTEGER. simpl. lia.
  - reflexivity.
  - simpl. lia.
  - apply LeaseFacts.available_free. reflexivity.
  - intros q' Hq'. simpl in Hq'. assert (q' = 3300) as -> by lia.
    intros Hfree. apply LeaseFacts.available_free in Hfree. discriminate.
  - discriminate.
Defined.

(** C2 -- the lowest free port, where the code falls short of it.  On
    [regZero], a registry the API itself produces, the pool [x] runs from
    -1 to 1 and only -1 is leased; the project has no lease of the tag [b]
    yet, and nothing is reported in use.  So 0 is the smallest free port of
    the range, and 1 is free too: yet [lease] does not return 0, nor any
    port: it throws the exhaustion error and leaves the world as it was.
    The test after the scan, [if (!foundPort)], takes the port 0 for the
    [null] the scan starts from. *)
Theorem lease_passes_over_port_zero :
  reachable worldZero
  /\ registryFile worldZero = Some regZero
  /\ pools regZero !! "x" = Some (mkPool (-1) 1)
  /\ Reg.getExistingLease regZero "proj" "x" "b" = None
  /\ freePort probeNone regZero "x" 0
  /\ (forall q', -1 <= q' < 0 -> ~ freePort probeNone regZero "x" q')
  /\ freePort probeNone regZero "x" 1
  /\ API.findPort probeNone (Reg.getLeasedPorts regZero "x") (-1) 1 = Some 0
  /\ API.lease probeNone "/repo" "x" "b" "proj" "/p" worldZero
     = Some (Throw (PoolExhausted "x" (-1) 1), worldZero).
Proof.
  split.
  { apply (reach_call probeNone (fun _ => true) "/repo"
             (API.CallLease "x" "a" "proj" "/p")
             (after (API.poolAdd "x" (-1) 1) (mkWorld None None 1000))).
    - apply (reach_call probeNone (fun _ => true) "/repo"
               (API.CallPoolAdd "x" (-1) 1) (mkWorld None None 1000)).
      + apply reach_start.
      + vm_compute. reflexivity.
    - vm_compute. reflexivity. }
  split; [reflexivity|]. split; [reflexivity|]. split; [reflexivity|].
  split; [apply LeaseFacts.available_free; reflexivity|].
  split.
  { intros q' Hq'. assert (q' = -1) as -> by lia.
    intros Hfree. apply LeaseFacts.available_free in Hfree. discriminate. }
  split; [apply LeaseFacts.available_free; reflexivity|].
  split; vm_compute; reflexivity.
Qed.

Example lease_on_regZero :
  API.lease probeNone "/repo" "x" "b" "proj" "/p" worldZero
  = Some (Throw (PoolExhausted "x" (-1) 1), worldZero).
Proof. vm_compute. reflexivity. Qed.

Lemma lease_exhausted_leaves_registry_witness :
  exists w',
    API.lease probeNone "/repo" "x" "" "projC" "/c" worldFull
    = Some (Throw (PoolExhausted "x" 7000 7001), w')
    /\ registryFile w' = Some regFull
    /\ lockFile w' = None.
Proof.
  apply (LeaseFacts.lease_exhausted_leaves_registry probeNone "/repo"
           "x" "" "projC" "/c" worldFull
           (mkWorld (Some 2000) (Some regFull) 2000) regFull (mkPool 7000 7001)).
  - discriminate.
  - discriminate.
  - reflexivity.
  - reflexivity.
  - reflexivity.
  - unfold isSafeInteger, MAX_SAFE_INTEGER. simpl. lia.
  - unfold isSafeInteger, MAX_SAFE_INTEGER. simpl. lia.
  - reflexivity.
  - intros q Hq. simpl in Hq. left.
    apply RegFacts.includes_leasedPorts.
    assert (q = 7000 \/ q = 7001) as [-> | ->] by lia; reflexivity.
Defined.

(** Without the condition that the caller has no lease of the triple yet
    the statement fails, on [regFull]: the pool is full, and the holder of
    7000 asking again is given 7000. *)
Lemma lease_exhausted_counterexample :
  ~ (forall (portChecker : Z -> bool) (gitRoot pl tg ident wt : string)
            (w w1 : World) (registry : Registry) (range : Pool),
        pl <> "" -> ident <> "" ->
        acquires w w1 ->
        registryFile w = Some registry ->
        pools registry !! pl = Some range ->
        (forall q, rangeStart range <= q <= rangeEnd range ->
                   leasedIn registry pl q \/ portChecker q = true) ->
        exists w',
          API.lease portChecker gitRoot pl tg ident wt w
          = Some (Throw (PoolExhausted pl (rangeStart range) (rangeEnd range)), w')
          /\ registryFile w' = Some registry).
Proof.
  intros H.
  destruct (H probeNone "/repo" "x" "" "projA" "/a" worldFull
              (mkWorld (Some 2000) (Some regFull) 2000) regFull (mkPool 7000 7001))
    as (w' & Hl & _).
  - discriminate.
  - discriminate.
  - reflexivity.
  - reflexivity.
  - reflexivity.
  - intros q Hq. simpl in Hq. left.
    apply RegFacts.includes_leasedPorts.
    assert (q = 7000 \/ q = 7001) as [-> | ->] by lia; reflexivity.
  - vm_compute in Hl. discriminate.
Qed.

Example lease_on_regFull :
  API.lease probeNone "/repo" "x" "" "projA" "/a" worldFull
  = Some (Ok (mkLeaseResult 7000
                {| port := 7000; pool := "x"; identifier := "projA";
                   worktreePath := "/a"; tag := ""; leasedAt := Some 1000 |}),
          worldFull).
Proof. vm_compute. reflexivity. Qed.

(** ** release *)

Module ReleaseFacts.
Section WithCollaborators.
Import Reg RegFacts StoreFacts.

Variable gitRoot : string.

#[local] Abbreviation release := (API.release gitRoot).

Lemma released_true (tg : option string) (ident : string) (l : Lease) :
  released tg ident l = true <->
  identifier l = ident /\ (forall t, tg = Some t -> tag l = t).
Proof.
  destruct tg as [t|]; simpl.
  - unfold ofIdentifierTag. rewrite andb_true_iff, !bool_decide_eq_true.
    split.
    + intros [Hi Ht]. split; [exact Hi|]. intros t' E. congruence.
    + intros [Hi Ht]. split; [exact Hi|]. apply Ht. reflexivity.
  - unfold ofIdentifier. rewrite bool_decide_eq_true.
    split; [intros Hi; split; [exact Hi|discriminate]|tauto].
Qed.

Lemma releaseLocked_spec (tg : option string) (ident : string) (w : World)
  (registry : Registry) :
  registryFile w = Some registry ->
  API.releaseLocked tg ident w
  = let n := length (List.filter (released tg ident) (leases registry)) in
    let kept := List.filter (fun l => negb (released tg ident l)) (leases registry) in
    if Nat.eqb n 0 then Some (Throw (nothingToRelease tg), w)
    else Some (Ok (mkReleaseResult n kept),
               set_registryFile w
                 (Some (set_lastModified (set_leases registry kept) (clock w)))).
Proof.
  intros Hf. unfold API.releaseLocked.
  rewrite (bind_ok _ _ _ _ _ (getRegistry_file w registry Hf)).
  assert (E : (match tg with
               | Some t => removeLeasesByTag registry ident t
               | None => removeLeasesByIdentifier registry ident
               end) = removeWhere (released tg ident) registry)
    by (destruct tg; reflexivity).
  rewrite E.
  rewrite (surjective_pairing (removeWhere (released tg ident) registry)).
  rewrite removeWhere_count, removeWhere_registry. cbv zeta.
  destruct (Nat.eqb _ 0); [destruct tg; reflexivity|reflexivity].
Qed.

(** C4 -- release by identifier, or by identifier and tag.  For a call with
    an identifier and the lock acquired: the leases taken out are those of
    the identifier whatever their tag when the tag is omitted, and those of
    the identifier with exactly the given tag (the empty tag included) when
    one is given.  When none is of that kind the call throws and the
    registry file is left as it was; otherwise the file is written with the
    other leases, in their order, and [removedCount] is the number of leases
    taken out. *)
Theorem release_by_tag_or_all :
  forall (tg : option string) (ident : string) (w w1 : World) (registry : Registry),
    ident <> "" ->
    acquires w w1 ->
    registryFile w = Some registry ->
    let gone := released tg ident in
    let kept := List.filter (fun l => negb (gone l)) (leases registry) in
    let n := length (List.filter gone (leases registry)) in
    (forall l, gone l = true <->
               identifier l = ident /\ (forall t, tg = Some t -> tag l = t))
    /\ (forall l, In l kept <-> In l (leases registry) /\ gone l = false)
    /\ (n + length kept = length (leases registry))%nat
    /\ (n = 0%nat ->
        exists w',
          release tg ident w = Some (Throw (nothingToRelease tg), w')
          /\ registryFile w' = Some registry
          /\ lockFile w' = None)
    /\ (n <> 0%nat ->
        exists w',
          release tg ident w = Some (Ok (mkReleaseResult n kept), w')
          /\ registryFile w'
             = Some (set_lastModified (set_leases registry kept) (clock w1))
          /\ lockFile w' = None).
Proof.
  intros tg ident w w1 registry Hi Ha Hf gone kept n.
  assert (Hf1 : registryFile w1 = Some registry)
    by (rewrite (acquires_registry _ _ Ha); exact Hf).
  assert (Hrel : release tg ident w
                 = Lock.withLock (API.releaseLocked tg ident) 30000 w).
  { unfold API.release, API.resolveIdentifier.
    apply truthyS_true in Hi. rewrite Hi. reflexivity. }
  pose proof (releaseLocked_spec tg ident w1 registry Hf1) as Hbody.
  cbv zeta in Hbody. fold gone in Hbody. fold kept in Hbody. fold n in Hbody.
  split; [intros l; apply released_true|].
  split.
  { intros l. unfold kept. rewrite filter_In, negb_true_iff. tauto. }
  split; [apply filter_length_split|].
  split.
  - intros Hn. rewrite Hn in Hbody. simpl in Hbody.
    exists (set_lockFile w1 None). rewrite Hrel.
    rewrite (LockFacts.withLock_run _ _ _ _ _ _ Ha Hbody).
    repeat split. exact Hf1.
  - intros Hn. apply Nat.eqb_neq in Hn. rewrite Hn in Hbody.
    eexists. rewrite Hrel.
    rewrite (LockFacts.withLock_run _ _ _ _ _ _ Ha Hbody).
    repeat split.
Qed.

End WithCollaborators.
End ReleaseFacts.

(** ** findStaleLeases *)

Module StaleFacts.
Section WithCollaborators.
Import Reg.

Variable existsSync : string -> bool.
Variable probe : Z -> bool.
Variable now : Z.

#[local] Abbreviation reasonOf := (staleReason existsSync (Some probe) 7 now).
#[local] Abbreviation worktreeGone := (Terms.worktreeGone existsSync).
#[local] Abbreviation olderThan7Days := (Terms.olderThan7Days now).

Lemma worktreeGone_test (l : Lease) :
  negb (String.eqb (worktreePath l) "") && negb (existsSync (worktreePath l)) = true
  <-> worktreeGone l.
Proof.
  unfold Terms.worktreeGone. rewrite andb_true_iff, !negb_true_iff.
  destruct (String.eqb_spec (worktreePath l) ""); intuition congruence.
Qed.

Lemma staleReason_cases (l : Lease) :
  (worktreeGone l /\ reasonOf l = Some WorktreeMissing)
  \/ (~ worktreeGone l /\ olderThan7Days l /\ probe (port l) = false
      /\ reasonOf l = Some (OldAndUnused 7))
  \/ (~ worktreeGone l /\ ~ (olderThan7Days l /\ probe (port l) = false)
      /\ reasonOf l = None).
Proof.
  unfold staleReason, staleThresholdMs.
  destruct (negb (String.eqb (worktreePath l) "")
            && negb (existsSync (worktreePath l))) eqn:Eg.
  - left. split; [apply worktreeGone_test; exact Eg|reflexivity].
  - right.
    assert (Hng : ~ worktreeGone l)
      by (intros Hg; apply worktreeGone_test in Hg; congruence).
    unfold Terms.olderThan7Days.
    destruct (leasedAt l) as [t|] eqn:Et.
    + destruct (Z.gtb_spec (now - t) (7 * 24 * 60 * 60 * 1000)) as [Hold|Hyoung].
      * destruct (probe (port l)) eqn:Ep; simpl.
        -- right. repeat split; [exact Hng|]. intros [_ ?]. discriminate.
        -- left. repeat split; [exact Hng|]. exists t. split; [reflexivity|lia].
      * right. repeat split; [exact Hng|].
        intros [(t' & E & Hold) _]. inversion E; subst. lia.
    + right. repeat split; [exact Hng|].
      intros [(t' & E & _) _]. discriminate.
Qed.

Lemma staleItems_In (ls : list Lease) (l : Lease) (reason : StaleReason) :
  In (l, reason) (staleItems existsSync (Some probe) 7 now ls)
  <-> In l ls /\ reasonOf l = Some reason.
Proof.
  induction ls as [|x ls IH]; simpl; [tauto|].
  destruct (reasonOf x) as [rx|] eqn:Ex; simpl; rewrite IH; split.
  - intros [E|[Hl Hr]]; [inversion E; subst; tauto|tauto].
  - intros [[E|Hl] Hr]; [subst; left; congruence|tauto].
  - tauto.
  - intros [[E|Hl] Hr]; [subst; congruence|tauto].
Qed.

(** C5 -- the staleness rule, as the code has it, with the probe [cleanup]
    passes and the threshold of 7 days.  A lease is reported stale exactly
    when its worktree path is non-empty and does not exist, or, that not
    being so, it was leased more than 7 days ago and the probe reports its
    port not in use; the items [findStaleLeases] returns are the leases of
    the registry for which this holds.  So a lease that is not older than 7
    days and whose worktree path is empty or exists is not reported, and a
    lease whose port is in use and whose worktree path is empty or exists is
    not reported however old it is. *)
Theorem staleness_rule :
  (forall l : Lease,
      is_Some (reasonOf l) <->
      worktreeGone l
      \/ (~ worktreeGone l /\ olderThan7Days l /\ probe (port l) = false))
  /\ (forall (registry : Registry) (l : Lease),
         (exists reason,
             In (l, reason) (findStaleLeases existsSync (Some probe) 7 now registry))
         <-> In l (leases registry) /\ is_Some (reasonOf l))
  /\ (forall l : Lease,
         ~ olderThan7Days l ->
         worktreePath l = "" \/ existsSync (worktreePath l) = true ->
         reasonOf l = None)
  /\ (forall l : Lease,
         probe (port l) = true ->
         worktreePath l = "" \/ existsSync (worktreePath l) = true ->
         reasonOf l = None).
Proof.
  assert (Hkeep : forall l, worktreePath l = "" \/ existsSync (worktreePath l) = true ->
                            ~ worktreeGone l).
  { intros l [E|E] [Hne Hgone]; congruence. }
  split; [|split; [|split]].
  - intros l. split.
    + intros [reason Hr].
      destruct (staleReason_cases l) as [[Hg _]|[(Hng & Ho & Hp & _)|(_ & _ & E)]];
        [tauto|tauto|congruence].
    + intros H.
      destruct (staleReason_cases l) as [[_ E]|[(_ & _ & _ & E)|(Hng & Hn & _)]];
        [rewrite E; eauto|rewrite E; eauto|tauto].
  - intros registry l. unfold findStaleLeases. split.
    + intros [reason Hin]. apply staleItems_In in Hin.
      destruct Hin as [Hl E]. rewrite E. eauto.
    + intros [Hl [reason Hr]]. exists reason. apply staleItems_In. tauto.
  - intros l Hy Hw. specialize (Hkeep l Hw).
    destruct (staleReason_cases l) as [[Hg _]|[(_ & Ho & _)|(_ & _ & E)]];
      [contradiction|contradiction|exact E].
  - intros l Hp Hw. specialize (Hkeep l Hw).
    destruct (staleReason_cases l) as [[Hg _]|[(_ & _ & Hp' & _)|(_ & _ & E)]];
      [contradiction|congruence|exact E].
Qed.

End WithCollaborators.
End StaleFacts.

(** ** Pool management *)

Module PoolFacts.
Import Reg RegFacts StoreFacts.

(** An operation that runs [fn] under the lock returns when [fn] does. *)
Lemma withLock_returns {A : Type} (fn : M A) (timeoutMs : Z) (w : World) :
  (forall w1, is_Some (fn w1)) -> is_Some (Lock.withLock fn timeoutMs w).
Proof.
  intros Hfn. unfold Lock.withLock, bind.
  destruct (LockFacts.acquireLock_returns timeoutMs w) as [[[u|e] w1] Ha];
    rewrite Ha; [|eauto].
  unfold try_finally. destruct (Hfn w1) as [[r w2] Hf]. rewrite Hf.
  rewrite LockFacts.releaseLock_spec. destruct r; eauto.
Qed.

(** The argument test passes exactly on a name and two bounds that are all
    truthy, with the start below the end. *)
Lemma checkPoolArguments_ok (poolName : string) (rs re : Z) (w : World) :
  poolName <> "" -> rs <> 0 -> re <> 0 -> rs < re ->
  API.checkPoolArguments poolName rs re w = Some (Ok tt, w).
Proof.
  intros Hn Hs He Hlt. unfold API.checkPoolArguments.
  apply truthyS_true in Hn. apply truthyZ_true in Hs. apply truthyZ_true in He.
  rewrite Hn, Hs, He. simpl.
  destruct (Z.geb_spec rs re); [lia|reflexivity].
Qed.

Lemma checkPoolArguments_missing (poolName : string) (rs re : Z) (w : World) :
  poolName = "" \/ rs = 0 \/ re = 0 ->
  API.checkPoolArguments poolName rs re w = Some (Throw PoolArgumentsRequired, w).
Proof.
  intros H. unfold API.checkPoolArguments.
  destruct H as [-> | [-> | ->]]; simpl; [reflexivity| |].
  - rewrite orb_true_r. reflexivity.
  - rewrite orb_true_r. reflexivity.
Qed.

Lemma checkPoolArguments_inv (poolName : string) (rs re : Z) (w w' : World) :
  API.checkPoolArguments poolName rs re w = Some (Ok tt, w') ->
  poolName <> "" /\ rs <> 0 /\ re <> 0 /\ rs < re /\ w' = w.
Proof.
  unfold API.checkPoolArguments.
  destruct (truthyS poolName) eqn:En; simpl; [|discriminate].
  destruct (truthyZ rs) eqn:Es; simpl; [|discriminate].
  destruct (truthyZ re) eqn:Ee; simpl; [|discriminate].
  destruct (Z.geb_spec rs re) as [Hge|Hlt]; [discriminate|].
  intros Hw. inversion Hw; subst.
  apply truthyS_true in En. apply truthyZ_true in Es. apply truthyZ_true in Ee.
  repeat split; assumption.
Qed.

Lemma checkPoolArguments_world (poolName : string) (rs re : Z) (w w' : World)
  (r : result unit) :
  API.checkPoolArguments poolName rs re w = Some (r, w') -> w' = w.
Proof.
  unfold API.checkPoolArguments.
  destruct (_ || _); [intros H; inversion H; reflexivity|].
  destruct (_ >=? _)%Z; intros H; inversion H; reflexivity.
Qed.

(** A lease [poolUpdate] counts against the new range. *)
Lemma outsideNewRange_true (poolName : string) (rs re : Z) (l : Lease) :
  API.outsideNewRange poolName rs re l = true <->
  (pool l = poolName \/ pool l = poolName ++ "-https")
  /\ (port l < rs \/ port l > re).
Proof.
  unfold API.outsideNewRange.
  rewrite andb_true_iff, !orb_true_iff, !bool_decide_eq_true.
  rewrite Z.ltb_lt, Z.gtb_ltb, Z.ltb_lt. intuition lia.
Qed.

Lemma filter_nil_iff {A : Type} (f : A -> bool) (xs : list A) :
  List.filter f xs = [] <-> forall x, In x xs -> f x = false.
Proof.
  induction xs as [|x xs IH]; simpl.
  - split; [intros _ y []|reflexivity].
  - destruct (f x) eqn:E.
    + split; [discriminate|]. intros H. specialize (H x (or_introl eq_refl)).
      congruence.
    + rewrite IH. split.
      * intros H y [->|Hy]; [exact E|apply H; exact Hy].
      * intros H y Hy. apply H. right. exact Hy.
Qed.

Lemma filter_length_pos {A : Type} (f : A -> bool) (xs : list A) :
  (0 < length (List.filter f xs))%nat <-> exists x, In x xs /\ f x = true.
Proof.
  split.
  - destruct (List.filter f xs) as [|y ys] eqn:E; simpl; [lia|]. intros _.
    assert (Hy : In y (List.filter f xs)) by (rewrite E; left; reflexivity).
    apply filter_In in Hy. eauto.
  - intros (x & Hx & Hf).
    assert (Hy : In x (List.filter f xs)) by (apply filter_In; tauto).
    destruct (List.filter f xs); [destruct Hy|simpl; lia].
Qed.

Lemma poolUpdateLocked_spec (poolName : string) (rs re : Z) (w : World)
  (registry : Registry) :
  registryFile w = Some registry ->
  API.poolUpdateLocked poolName rs re w
  = let affected := List.filter (API.outsideNewRange poolName rs re) (leases registry) in
    if Nat.ltb 0 (length affected)
    then Some (Throw (LeasesOutsideRange (length affected)), w)
    else
      match pools registry !! poolName with
      | None => Some (Throw (PoolDoesNotExist poolName), w)
      | Some _ =>
          Some (Ok (mkPoolResult poolName rs re),
                set_registryFile w (Some (withPool registry poolName rs re (clock w))))
      end.
Proof.
  intros Hf. unfold API.poolUpdateLocked.
  rewrite (bind_ok _ _ _ _ _ (getRegistry_file w registry Hf)). cbv zeta.
  destruct (Nat.ltb 0 _); [reflexivity|].
  unfold bind, lift, updatePool.
  destruct (pools registry !! poolName); reflexivity.
Qed.

Lemma poolAddLocked_spec (poolName : string) (rs re : Z) (w : World)
  (registry : Registry) :
  registryFile w = Some registry ->
  API.poolAddLocked poolName rs re w
  = match pools registry !! poolName with
    | Some _ => Some (Throw (PoolAlreadyExists poolName), w)
    | None =>
        Some (Ok (mkPoolResult poolName rs re),
              set_registryFile w (Some (withPool registry poolName rs re (clock w))))
    end.
Proof.
  intros Hf. unfold API.poolAddLocked.
  rewrite (bind_ok _ _ _ _ _ (getRegistry_file w registry Hf)).
  unfold bind, lift, addPool.
  destruct (pools registry !! poolName); reflexivity.
Qed.

Lemma poolDeleteLocked_spec (poolName : string) (w : World) (registry : Registry) :
  registryFile w = Some registry ->
  API.poolDeleteLocked poolName w
  = match pools registry !! poolName with
    | None => Some (Throw (PoolDoesNotExist poolName), w)
    | Some _ =>
        let n := length (List.filter (inPool poolName) (leases registry)) in
        if Nat.ltb 0 n then Some (Throw (PoolHasLeases poolName n), w)
        else Some (Ok poolName,
                   set_registryFile w (Some (withoutPool registry poolName (clock w))))
    end.
Proof.
  intros Hf. unfold API.poolDeleteLocked.
  rewrite (bind_ok _ _ _ _ _ (getRegistry_file w registry Hf)).
  unfold bind, lift, deletePool.
  destruct (pools registry !! poolName); [|reflexivity]. cbv zeta.
  destruct (Nat.ltb 0 _); reflexivity.
Qed.

Lemma poolUpdate_unfold (poolName : string) (rs re : Z) (w : World) :
  poolName <> "" -> rs <> 0 -> re <> 0 -> rs < re ->
  API.poolUpdate poolName rs re w
  = Lock.withLock (API.poolUpdateLocked poolName rs re) 30000 w.
Proof.
  intros Hn Hs He Hlt. unfold API.poolUpdate.
  rewrite (bind_ok _ _ _ _ _ (checkPoolArguments_ok poolName rs re w Hn Hs He Hlt)).
  reflexivity.
Qed.

Lemma poolAdd_unfold (poolName : string) (rs re : Z) (w : World) :
  poolName <> "" -> rs <> 0 -> re <> 0 -> rs < re ->
  API.poolAdd poolName rs re w
  = Lock.withLock (API.poolAddLocked poolName rs re) 30000 w.
Proof.
  intros Hn Hs He Hlt. unfold API.poolAdd.
  rewrite (bind_ok _ _ _ _ _ (checkPoolArguments_ok poolName rs re w Hn Hs He Hlt)).
  reflexivity.
Qed.

(** An operation made of the argument test and a function run under the
    lock comes back with an error when the function can only throw, and the
    registry file is the one the function found. *)
Lemma guarded_failure {A : Type} (check : M unit) (fn : M A) (w : World)
  (registry : Registry) :
  (forall r w', check w = Some (r, w') -> w' = w) ->
  is_Some (check w) ->
  registryFile w = Some registry ->
  (forall w1, registryFile w1 = Some registry ->
              exists e, fn w1 = Some (Throw e, w1)) ->
  exists e w',
    bind check (fun _ => Lock.withLock fn 30000) w = Some (Throw e, w')
    /\ registryFile w' = Some registry.
Proof.
  intros Hcw [[rc wc] Hc] Hf Hfn. pose proof (Hcw _ _ Hc) as ->.
  unfold bind. rewrite Hc. destruct rc as [u|e]; [|eauto].
  destruct (LockFacts.acquireLock_returns 30000 w) as [[ra w1] Ha].
  pose proof (LockFacts.acquireLock_registry _ _ _ _ Ha) as Hr1.
  rewrite Hf in Hr1.
  destruct ra as [[]|e].
  - destruct (Hfn w1 Hr1) as [e He].
    rewrite (LockFacts.withLock_run _ _ _ _ _ _ Ha He). eauto.
  - rewrite (LockFacts.withLock_timeout _ _ _ _ _ Ha). eauto.
Qed.

(** C6 -- [poolUpdate] and the leases the new range would leave out.  When
    some lease whose pool is the given name, or that name followed by
    [-https], has its port outside the new inclusive bounds, [poolUpdate]
    throws and the registry file is left as it was, pools and leases alike;
    on a call with a name and bounds that pass the argument test and with
    the lock acquired, the error is the one that counts those leases.
    When there is no such lease, a call that passes the argument test on
    an existing pool, with the lock acquired, writes the registry with the
    range of that pool replaced by the new bounds and nothing else
    changed. *)
Theorem poolUpdate_rejects_or_replaces :
  (forall (poolName : string) (rs re : Z) (w : World) (registry : Registry)
          (l : Lease),
      registryFile w = Some registry ->
      In l (leases registry) ->
      pool l = poolName \/ pool l = poolName ++ "-https" ->
      port l < rs \/ port l > re ->
      (exists e w',
          API.poolUpdate poolName rs re w = Some (Throw e, w')
          /\ registryFile w' = Some registry)
      /\ (forall w1,
             poolName <> "" -> rs <> 0 -> re <> 0 -> rs < re ->
             acquires w w1 ->
             API.poolUpdate poolName rs re w
             = Some (Throw (LeasesOutsideRange
                              (length (List.filter
                                         (API.outsideNewRange poolName rs re)
                                         (leases registry)))),
                     set_lockFile w1 None)))
  /\ (forall (poolName : string) (rs re : Z) (w w1 : World) (registry : Registry),
         poolName <> "" -> rs <> 0 -> re <> 0 -> rs < re ->
         acquires w w1 ->
         registryFile w = Some registry ->
         is_Some (pools registry !! poolName) ->
         (forall l, In l (leases registry) ->
                    pool l = poolName \/ pool l = poolName ++ "-https" ->
                    rs <= port l <= re) ->
         exists w' registry',
           API.poolUpdate poolName rs re w
           = Some (Ok (mkPoolResult poolName rs re), w')
           /\ registryFile w' = Some registry'
           /\ pools registry' !! poolName = Some (mkPool rs re)
           /\ (forall other, other <> poolName ->
                             pools registry' !! other = pools registry !! other)
           /\ leases registry' = leases registry
           /\ lastModified registry' = Some (clock w1)
           /\ lockFile w' = None).
Proof.
  split.
  - intros poolName rs re w registry l Hf Hin Hpool Hport.
    assert (Hpos : Nat.ltb 0 (length (List.filter
                                        (API.outsideNewRange poolName rs re)
                                        (leases registry))) = true).
    { apply Nat.ltb_lt. apply filter_length_pos. exists l. split; [exact Hin|].
      apply outsideNewRange_true. tauto. }
    split.
    + apply guarded_failure; try assumption.
      * intros r w'. apply checkPoolArguments_world.
      * unfold API.checkPoolArguments.
        destruct (_ || _); [eauto|]. destruct (_ >=? _)%Z; eauto.
      * intros w1 Hf1. rewrite (poolUpdateLocked_spec _ _ _ _ _ Hf1).
        cbv zeta. rewrite Hpos. eauto.
    + intros w1 Hn Hs He Hlt Ha.
      assert (Hf1 : registryFile w1 = Some registry)
        by (rewrite (acquires_registry _ _ Ha); exact Hf).
      rewrite poolUpdate_unfold by assumption.
      apply (LockFacts.withLock_run _ _ _ _ _ _ Ha).
      rewrite (poolUpdateLocked_spec _ _ _ _ _ Hf1). cbv zeta.
      rewrite Hpos. reflexivity.
  - intros poolName rs re w w1 registry Hn Hs He Hlt Ha Hf [old Hold] Hall.
    assert (Hf1 : registryFile w1 = Some registry)
      by (rewrite (acquires_registry _ _ Ha); exact Hf).
    assert (Hnone : List.filter (API.outsideNewRange poolName rs re)
                      (leases registry) = []).
    { apply filter_nil_iff. intros l Hl.
      destruct (API.outsideNewRange poolName rs re l) eqn:E; [|reflexivity].
      apply outsideNewRange_true in E. destruct E as [Hp Hout].
      specialize (Hall l Hl Hp). lia. }
    exists (set_lockFile
              (set_registryFile w1
                 (Some (withPool registry poolName rs re (clock w1)))) None),
           (withPool registry poolName rs re (clock w1)).
    rewrite poolUpdate_unfold by assumption.
    split.
    { apply (LockFacts.withLock_run _ _ _ _ _ _ Ha).
      rewrite (poolUpdateLocked_spec _ _ _ _ _ Hf1). cbv zeta.
      rewrite Hnone, Hold. reflexivity. }
    simpl. repeat split.
    + apply lookup_insert_eq.
    + intros other Hne. apply lookup_insert_ne. congruence.
Qed.

(** C7 -- [poolDelete].  For a call with a name, on an existing pool, with
    the lock acquired: when one lease or more is of the pool the call
    throws, and the registry file is left as it was, the pool and the
    leases alike; when no lease is of the pool the call succeeds and writes
    the registry with that one entry taken out of the pools and the leases
    as they were. *)
Theorem poolDelete_rejects_or_removes :
  forall (poolName : string) (w w1 : World) (registry : Registry),
    poolName <> "" ->
    acquires w w1 ->
    registryFile w = Some registry ->
    is_Some (pools registry !! poolName) ->
    ((exists l, In l (leases registry) /\ pool l = poolName) ->
     exists n w',
       API.poolDelete poolName w = Some (Throw (PoolHasLeases poolName n), w')
       /\ n = length (List.filter (inPool poolName) (leases registry))
       /\ (1 <= n)%nat
       /\ registryFile w' = Some registry
       /\ lockFile w' = None)
    /\ ((forall l, In l (leases registry) -> pool l <> poolName) ->
        exists w' registry',
          API.poolDelete poolName w = Some (Ok poolName, w')
          /\ registryFile w' = Some registry'
          /\ pools registry' !! poolName = None
          /\ (forall other, other <> poolName ->
                            pools registry' !! other = pools registry !! other)
          /\ leases registry' = leases registry
          /\ lastModified registry' = Some (clock w1)
          /\ lockFile w' = None).
Proof.
  intros poolName w w1 registry Hn Ha Hf [old Hold].
  assert (Hf1 : registryFile w1 = Some registry)
    by (rewrite (acquires_registry _ _ Ha); exact Hf).
  assert (Hdel : API.poolDelete poolName w
                 = Lock.withLock (API.poolDeleteLocked poolName) 30000 w).
  { unfold API.poolDelete. apply truthyS_true in Hn. rewrite Hn. reflexivity. }
  pose proof (poolDeleteLocked_spec poolName w1 registry Hf1) as Hbody.
  rewrite Hold in Hbody. cbv zeta in Hbody.
  split.
  - intros (l & Hl & Hp).
    assert (Hpos : (0 < length (List.filter (inPool poolName) (leases registry)))%nat).
    { apply filter_length_pos. exists l. split; [exact Hl|].
      unfold inPool. apply bool_decide_eq_true. exact Hp. }
    pose proof (proj2 (Nat.ltb_lt _ _) Hpos) as Hb. rewrite Hb in Hbody.
    eexists _, _. rewrite Hdel.
    rewrite (LockFacts.withLock_run _ _ _ _ _ _ Ha Hbody).
    repeat split; [lia|exact Hf1].
  - intros Hnone.
    assert (Hnil : List.filter (inPool poolName) (leases registry) = []).
    { apply filter_nil_iff. intros l Hl. unfold inPool.
      apply bool_decide_eq_false. apply Hnone. exact Hl. }
    rewrite Hnil in Hbody. simpl in Hbody.
    eexists _, _. rewrite Hdel.
    rewrite (LockFacts.withLock_run _ _ _ _ _ _ Ha Hbody).
    split; [reflexivity|]. simpl. split; [reflexivity|]. simpl. repeat split.
    + apply lookup_delete_eq.
    + intros other Hne. apply lookup_delete_ne. congruence.
Qed.

End PoolFacts.

(** ** cleanup *)

Module CleanupFacts.
Section WithCollaborators.
Import Reg RegFacts StoreFacts.

Variable portChecker : Z -> bool.
Variable existsSync : string -> bool.

#[local] Abbreviation cleanup := (API.cleanup portChecker existsSync).
#[local] Abbreviation staleAt := (Terms.staleAt portChecker existsSync).

Lemma sharesStalePort_true (staleLeases : list (Lease * StaleReason)) (l : Lease) :
  sharesStalePort staleLeases l = true <->
  exists item, In item staleLeases /\ port (fst item) = port l.
Proof.
  unfold sharesStalePort, stalePortsOf. rewrite includes_true, in_map_iff.
  split; intros (item & H1 & H2); exists item; tauto.
Qed.

Lemma staleItems_sublist (isPortInUse : option (Z -> bool)) (days now : Z)
  (ls : list Lease) :
  List.map fst (staleItems existsSync isPortInUse days now ls)
  = List.filter (fun l => bool_decide (is_Some (staleReason existsSync isPortInUse days now l))) ls.
Proof.
  induction ls as [|l ls IH]; simpl; [reflexivity|].
  destruct (staleReason existsSync isPortInUse days now l) eqn:E; simpl.
  - rewrite IH. reflexivity.
  - exact IH.
Qed.

Lemma filter_length_le_of_imp {A : Type} (f g : A -> bool) (xs : list A) :
  (forall x, In x xs -> f x = true -> g x = true) ->
  (length (List.filter f xs) <= length (List.filter g xs))%nat.
Proof.
  induction xs as [|x xs IH]; simpl; intros H; [lia|].
  assert (IH' := IH (fun y Hy => H y (or_intror Hy))).
  destruct (f x) eqn:Ef.
  - rewrite (H x (or_introl eq_refl) Ef). simpl. lia.
  - destruct (g x); simpl; lia.
Qed.

Lemma filter_length_lt_of_imp {A : Type} (f g : A -> bool) (xs : list A) (y : A) :
  (forall x, In x xs -> f x = true -> g x = true) ->
  In y xs -> f y = false -> g y = true ->
  (length (List.filter f xs) < length (List.filter g xs))%nat.
Proof.
  induction xs as [|x xs IH]; simpl; intros H Hy Hfy Hgy; [destruct Hy|].
  pose proof (filter_length_le_of_imp f g xs (fun z Hz => H z (or_intror Hz))) as Hle.
  destruct Hy as [->|Hy].
  - rewrite Hfy, Hgy. simpl. lia.
  - specialize (IH (fun z Hz => H z (or_intror Hz)) Hy Hfy Hgy).
    destruct (f x) eqn:Ef.
    + rewrite (H x (or_introl eq_refl) Ef). simpl. lia.
    + destruct (g x); simpl; lia.
Qed.

Lemma cleanupLocked_live (w : World) (registry : Registry) :
  registryFile w = Some registry ->
  staleAt (clock w) registry <> [] ->
  API.cleanupLocked portChecker existsSync false w
  = let stale := staleAt (clock w) registry in
    let kept := List.filter (fun l => negb (sharesStalePort stale l)) (leases registry) in
    Some (Ok (mkCleanupResult stale
                (length (List.filter (sharesStalePort stale) (leases registry)))
                None),
          set_registryFile w
            (Some (set_lastModified (set_leases registry kept) (clock w)))).
Proof.
  intros Hf Hne. unfold API.cleanupLocked.
  rewrite (bind_ok _ _ _ _ _ (getRegistry_file w registry Hf)).
  unfold bind at 1. unfold dateNow. fold (Terms.staleAt portChecker existsSync (clock w) registry).
  destruct (staleAt (clock w) registry) as [|item items] eqn:Es; [congruence|].
  simpl Nat.eqb. cbv iota.
  unfold removeStaleLeases.
  rewrite (surjective_pairing (removeWhere _ registry)).
  rewrite removeWhere_count, removeWhere_registry. reflexivity.
Qed.

(** C9 -- [cleanup] removes by port.  A live cleanup that finds stale
    leases, run with the lock acquired, writes the registry without any
    lease whose port is the port of a stale item, keeps every other lease,
    and returns as [removedCount] the number of leases it dropped, which is
    at least the number of stale items.  And it can be more: with two leases
    on one port of which one only is stale, both are dropped, and
    [removedCount] is 2 for 1 stale item. *)
Theorem cleanup_removes_by_port :
  forall (w w1 : World) (registry : Registry),
    acquires w w1 ->
    registryFile w = Some registry ->
    staleAt (clock w1) registry <> [] ->
    let stale := staleAt (clock w1) registry in
    let kept := List.filter (fun l => negb (sharesStalePort stale l)) (leases registry) in
    let n := length (List.filter (sharesStalePort stale) (leases registry)) in
    (exists w',
        cleanup false w = Some (Ok (mkCleanupResult stale n None), w')
        /\ registryFile w'
           = Some (set_lastModified (set_leases registry kept) (clock w1))
        /\ lockFile w' = None)
    /\ (forall l, In l kept <->
                  In l (leases registry)
                  /\ ~ exists item, In item stale /\ port (fst item) = port l)
    /\ (length stale <= n)%nat
    /\ (n + length kept = length (leases registry))%nat
    /\ (forall l1 l2,
           In l1 (leases registry) -> In l2 (leases registry) ->
           is_Some (staleReason existsSync (Some portChecker) 7 (clock w1) l1) ->
           staleReason existsSync (Some portChecker) 7 (clock w1) l2 = None ->
           port l2 = port l1 ->
           ~ In l2 kept /\ (length stale < n)%nat).
Proof.
  intros w w1 registry Ha Hf Hne stale kept n.
  assert (Hf1 : registryFile w1 = Some registry)
    by (rewrite (acquires_registry _ _ Ha); exact Hf).
  assert (Hlen : length stale
                 = length (List.filter
                             (fun l => bool_decide
                                         (is_Some (staleReason existsSync
                                                     (Some portChecker) 7 (clock w1) l)))
                             (leases registry))).
  { unfold stale, Terms.staleAt, findStaleLeases.
    rewrite <- staleItems_sublist, length_map. reflexivity. }
  assert (Hshare : forall l, In l (leases registry) ->
                     bool_decide (is_Some (staleReason existsSync
                                             (Some portChecker) 7 (clock w1) l)) = true ->
                     sharesStalePort stale l = true).
  { intros l Hl Hs. apply bool_decide_eq_true in Hs. destruct Hs as [reason Hr].
    apply sharesStalePort_true. exists (l, reason). split; [|reflexivity].
    unfold stale, Terms.staleAt, findStaleLeases.
    apply StaleFacts.staleItems_In. tauto. }
  split; [|split; [|split; [|split]]].
  - eexists. unfold API.cleanup.
    rewrite (LockFacts.withLock_run _ _ _ _ _ _ Ha
               (cleanupLocked_live w1 registry Hf1 Hne)).
    repeat split.
  - intros l. unfold kept. rewrite filter_In, negb_true_iff.
    rewrite <- sharesStalePort_true.
    destruct (sharesStalePort stale l); intuition congruence.
  - unfold n. rewrite Hlen. apply filter_length_le_of_imp. exact Hshare.
  - apply filter_length_split.
  - intros l1 l2 Hl1 Hl2 Hs1 Hs2 Hport.
    assert (Hgone : sharesStalePort stale l2 = true).
    { unfold sharesStalePort. rewrite Hport.
      apply (Hshare l1 Hl1). apply bool_decide_eq_true. exact Hs1. }
    split.
    + unfold kept. rewrite filter_In, Hgone. simpl. intros [_ ?]. discriminate.
    + unfold n. rewrite Hlen.
      apply (filter_length_lt_of_imp _ _ _ l2 Hshare Hl2); [|exact Hgone].
      apply bool_decide_eq_false. rewrite Hs2. intros [? ?]. discriminate.
Qed.

End WithCollaborators.
End CleanupFacts.

(** ** The engine as a transition system *)

Module EngineFacts.
Import Reg RegFacts StoreFacts.

Lemma view_ext (w w' : World) :
  registryFile w' = registryFile w -> view w' = view w.
Proof.
  intros H. unfold view, loaded. rewrite H.
  destruct (registryFile w); reflexivity.
Qed.

Lemma view_file (w : World) (registry : Registry) :
  registryFile w = Some registry -> view w = (pools registry, leases registry).
Proof. intros H. unfold view, loaded. rewrite H. reflexivity. Qed.

Lemma view_loaded (w : World) :
  view (set_registryFile w (Some (loaded w))) = view w.
Proof. reflexivity. Qed.

Lemma view_lockFile (w : World) (m : option Z) : view (set_lockFile w m) = view w.
Proof. reflexivity. Qed.

(** A function run under the lock changes the state as the function
    does. *)
Lemma withLock_step {A : Type} (fn : M A) (timeoutMs : Z) (w w' : World) :
  (forall w1 r w2, fn w1 = Some (r, w2) -> step (view w1) (view w2)) ->
  API.worldAfter (Lock.withLock fn timeoutMs) w = Some w' ->
  step (view w) (view w').
Proof.
  intros Hfn. unfold API.worldAfter.
  destruct (Lock.withLock fn timeoutMs w) as [[r wr]|] eqn:H; [|discriminate].
  intros E. inversion E; subst; clear E.
  apply LockFacts.withLock_inv in H.
  destruct H as [(e & Ha & _)|(w1 & w2 & Ha & Hf & ->)].
  - rewrite (view_ext _ _ (LockFacts.acquireLock_registry _ _ _ _ Ha)).
    apply step_none.
  - rewrite view_lockFile.
    rewrite <- (view_ext _ _ (LockFacts.acquireLock_registry _ _ _ _ Ha)).
    exact (Hfn _ _ _ Hf).
Qed.

(** A function that starts with [getRegistry]. *)
Lemma getRegistry_step {A : Type} (k : Registry -> M A) (w w2 : World) (r : result A) :
  (forall w1, view w1 = view w -> registryFile w1 = Some (loaded w) ->
              k (loaded w) w1 = Some (r, w2) -> step (view w1) (view w2)) ->
  bind Store.getRegistry k w = Some (r, w2) ->
  step (view w) (view w2).
Proof.
  intros Hk. rewrite (bind_ok _ _ _ _ _ (getRegistry_spec w)). intros H.
  rewrite <- (view_loaded w). apply Hk; [reflexivity|reflexivity|exact H].
Qed.

Lemma saved_view (w : World) (registry : Registry) :
  view (set_registryFile w (Some (set_lastModified registry (clock w))))
  = (pools registry, leases registry).
Proof. reflexivity. Qed.

Section WithCollaborators.

Variable portChecker : Z -> bool.
Variable existsSync : string -> bool.
Variable gitRoot : string.

Ltac finish_unchanged :=
  match goal with
  | H : Some (_, ?w) = Some (_, ?w2) |- step (view ?w) (view ?w2) =>
      inversion H; subst; apply step_none
  end.

Lemma leaseLocked_step (pl tg ident wt : string) (w1 w2 : World)
  (r : result LeaseResult) :
  ident <> "" ->
  API.leaseLocked portChecker pl tg ident wt w1 = Some (r, w2) ->
  step (view w1) (view w2).
Proof.
  intros Hident. unfold API.leaseLocked. apply getRegistry_step. intros w Hv Hf.
  set (registry := loaded w1) in *.
  unfold bind, lift, validatePool.
  destruct (pools registry !! pl) as [range|] eqn:Hr; [|intros H; finish_unchanged].
  destruct (getExistingLease registry ident pl tg) eqn:He;
    [unfold ret; intros H; finish_unchanged|].
  destruct (API.findPort _ _ _ _) as [p|] eqn:Hp;
    [|unfold throw; intros H; finish_unchanged].
  destruct (truthyZ p); [|unfold throw; intros H; finish_unchanged].
  unfold dateNow, Store.saveRegistry, ret; simpl. intros H.
  inversion H; subst; clear H.
  rewrite saved_view, (view_file _ _ Hf). simpl.
  apply LeaseFacts.findPort_Some in Hp. destruct Hp as (Hrange & _ & _).
  apply (step_lease _ _ _ range); simpl; [exact Hident|exact Hr|exact Hrange|].
  apply (proj1 (getExistingLease_None _ _ _ _) He).
Qed.

Lemma removeWhere_step (gone : Lease -> bool) (w : World) (registry : Registry) :
  registryFile w = Some registry ->
  step (view w)
    (view (set_registryFile w
             (Some (set_lastModified (snd (removeWhere gone registry)) (clock w))))).
Proof.
  intros Hf. rewrite saved_view, (view_file _ _ Hf). simpl. apply step_remove.
Qed.

Lemma releaseLocked_step (tg : option string) (ident : string) (w1 w2 : World)
  (r : result ReleaseResult) :
  API.releaseLocked tg ident w1 = Some (r, w2) -> step (view w1) (view w2).
Proof.
  unfold API.releaseLocked. apply getRegistry_step. intros w Hv Hf.
  set (registry := loaded w1) in *.
  assert (E : (match tg with
               | Some t => removeLeasesByTag registry ident t
               | None => removeLeasesByIdentifier registry ident
               end) = removeWhere (released tg ident) registry)
    by (destruct tg; reflexivity).
  rewrite E. rewrite (surjective_pairing (removeWhere _ registry)).
  destruct (Nat.eqb _ 0).
  - destruct tg; unfold throw; intros H; finish_unchanged.
  - unfold bind, Store.saveRegistry, ret. intros H. inversion H; subst; clear H.
    apply removeWhere_step. exact Hf.
Qed.

Lemma cleanupLocked_step (isDryRun : bool) (w1 w2 : World) (r : result CleanupResult) :
  API.cleanupLocked portChecker existsSync isDryRun w1 = Some (r, w2) ->
  step (view w1) (view w2).
Proof.
  unfold API.cleanupLocked. apply getRegistry_step. intros w Hv Hf.
  set (registry := loaded w1) in *.
  unfold bind at 1. unfold dateNow.
  destruct (Nat.eqb _ 0); [unfold ret; intros H; finish_unchanged|].
  destruct isDryRun; [unfold ret; intros H; finish_unchanged|].
  unfold removeStaleLeases.
  rewrite (surjective_pairing (removeWhere _ registry)).
  unfold bind, Store.saveRegistry, ret. intros H. inversion H; subst; clear H.
  apply removeWhere_step. exact Hf.
Qed.

Lemma poolClearLocked_step (poolName : string) (w1 w2 : World) (r : result nat) :
  API.poolClearLocked poolName w1 = Some (r, w2) -> step (view w1) (view w2).
Proof.
  unfold API.poolClearLocked. apply getRegistry_step. intros w Hv Hf.
  set (registry := loaded w1) in *.
  destruct (pools registry !! poolName); [|unfold throw; intros H; finish_unchanged].
  unfold clearPoolLeases.
  rewrite (surjective_pairing (removeWhere _ registry)).
  destruct (Nat.eqb _ 0); [unfold ret; intros H; finish_unchanged|].
  unfold bind, Store.saveRegistry, ret. intros H. inversion H; subst; clear H.
  apply removeWhere_step. exact Hf.
Qed.

Lemma poolAddLocked_step (poolName : string) (rs re : Z) (w1 w2 : World)
  (r : result PoolResult) :
  poolName <> "" -> rs <> 0 -> re <> 0 -> rs < re ->
  API.poolAddLocked poolName rs re w1 = Some (r, w2) -> step (view w1) (view w2).
Proof.
  intros Hname Hs He Hlt. unfold API.poolAddLocked. apply getRegistry_step.
  intros w Hv Hf.
  set (registry := loaded w1) in *.
  unfold bind, lift, addPool.
  destruct (pools registry !! poolName) eqn:Hp; [intros H; finish_unchanged|].
  unfold Store.saveRegistry, ret. intros H. inversion H; subst; clear H.
  rewrite saved_view, (view_file _ _ Hf). simpl.
  apply step_poolAdd; assumption.
Qed.

Lemma poolUpdateLocked_step (poolName : string) (rs re : Z) (w1 w2 : World)
  (r : result PoolResult) :
  rs <> 0 -> re <> 0 -> rs < re ->
  API.poolUpdateLocked poolName rs re w1 = Some (r, w2) -> step (view w1) (view w2).
Proof.
  intros Hs He Hlt. unfold API.poolUpdateLocked. apply getRegistry_step.
  intros w Hv Hf. set (registry := loaded w1) in *. cbv zeta.
  destruct (Nat.ltb 0 _) eqn:Haff; [unfold throw; intros H; finish_unchanged|].
  unfold bind, lift, updatePool.
  destruct (pools registry !! poolName) eqn:Hp; [|intros H; finish_unchanged].
  unfold Store.saveRegistry, ret. intros H. inversion H; subst; clear H.
  rewrite saved_view, (view_file _ _ Hf). simpl.
  apply step_poolUpdate; try assumption; [eauto|].
  intros l Hl Hpool.
  apply Nat.ltb_ge in Haff.
  assert (Hnil : List.filter (API.outsideNewRange poolName rs re) (leases registry) = [])
    by (destruct (List.filter _ _); [reflexivity|simpl in Haff; lia]).
  pose proof (proj1 (PoolFacts.filter_nil_iff _ _) Hnil l Hl) as Hin.
  destruct (Z.lt_ge_cases (port l) rs) as [Hlow|Hlow];
    [|destruct (Z.lt_ge_cases re (port l)) as [Hhigh|Hhigh]; [|lia]].
  - assert (API.outsideNewRange poolName rs re l = true)
      by (apply PoolFacts.outsideNewRange_true; split; [tauto|lia]).
    congruence.
  - assert (API.outsideNewRange poolName rs re l = true)
      by (apply PoolFacts.outsideNewRange_true; split; [tauto|lia]).
    congruence.
Qed.

Lemma poolDeleteLocked_step (poolName : string) (w1 w2 : World) (r : result string) :
  API.poolDeleteLocked poolName w1 = Some (r, w2) -> step (view w1) (view w2).
Proof.
  unfold API.poolDeleteLocked. apply getRegistry_step. intros w Hv Hf.
  set (registry := loaded w1) in *.
  unfold bind at 1. unfold lift, deletePool.
  destruct (pools registry !! poolName) eqn:Hp; [|intros H; finish_unchanged].
  destruct (Nat.ltb 0 _) eqn:Hn; [unfold throw; intros H; finish_unchanged|].
  unfold bind, Store.saveRegistry, ret. intros H. inversion H; subst; clear H.
  rewrite saved_view, (view_file _ _ Hf). simpl.
  apply step_poolDelete. intros l Hl Hpool.
  apply Nat.ltb_ge in Hn.
  assert (Hin : In l (List.filter (inPool poolName) (leases registry))).
  { apply filter_In. split; [exact Hl|].
    unfold inPool. apply bool_decide_eq_true. exact Hpool. }
  destruct (List.filter _ _); [destruct Hin|simpl in Hn; lia].
Qed.

Lemma worldAfter_guard {A B : Type} (g : M A) (k : A -> M B) (w w' : World) :
  (forall r wg, g w = Some (r, wg) -> wg = w) ->
  API.worldAfter (bind g k) w = Some w' ->
  w' = w \/ exists a, g w = Some (Ok a, w) /\ API.worldAfter (k a) w = Some w'.
Proof.
  intros Hg. unfold API.worldAfter, bind.
  destruct (g w) as [[[a|e] wg]|] eqn:E; [| |discriminate].
  - pose proof (Hg _ _ eq_refl) as ->. intros H. right. exists a.
    split; [reflexivity|exact H].
  - pose proof (Hg _ _ eq_refl) as ->. intros H. inversion H. left. reflexivity.
Qed.

Lemma resolveIdentifier_world (ident : string) (w wg : World) (r : result string) :
  API.resolveIdentifier gitRoot ident w = Some (r, wg) -> wg = w.
Proof.
  unfold API.resolveIdentifier.
  destruct (truthyS ident); [intros H; inversion H; reflexivity|].
  destruct (truthyS _); intros H; inversion H; reflexivity.
Qed.

Lemma resolveIdentifier_given (ident ident' : string) (w wg : World) :
  API.resolveIdentifier gitRoot ident w = Some (Ok ident', wg) -> ident' <> "".
Proof.
  unfold API.resolveIdentifier, ret, throw.
  destruct (truthyS ident) eqn:E.
  - intros H. inversion H; subst. apply truthyS_true. exact E.
  - cbv zeta. destruct (truthyS (API.getAutoIdentifier gitRoot)) eqn:E'; [|discriminate].
    intros H. inversion H; subst. apply truthyS_true. exact E'.
Qed.

(** Every call of the API changes the pools and the leases by one [step]. *)
Lemma run_step (c : API.Call) (w w' : World) :
  API.run portChecker existsSync gitRoot c w = Some w' ->
  step (view w) (view w').
Proof.
  destruct c as [pl tg ident wt|tg ident|isDryRun|force|poolName rs re
                |poolName rs re|poolName|poolName|]; simpl.
  - unfold API.lease. destruct (negb (truthyS pl)).
    + unfold API.worldAfter, throw. intros H. inversion H. apply step_none.
    + intros H. apply worldAfter_guard in H;
        [|intros r wg; apply resolveIdentifier_world].
      destruct H as [->|(ident' & Hi & H)]; [apply step_none|].
      apply resolveIdentifier_given in Hi.
      revert H. apply withLock_step. intros w1 r w2. apply leaseLocked_step.
      exact Hi.
  - unfold API.release. intros H. apply worldAfter_guard in H;
      [|intros r wg; apply resolveIdentifier_world].
    destruct H as [->|(ident' & _ & H)]; [apply step_none|].
    revert H. apply withLock_step. intros w1 r w2. apply releaseLocked_step.
  - unfold API.cleanup. apply withLock_step. intros w1 r w2.
    apply cleanupLocked_step.
  - unfold API.worldAfter, API.init.
    destruct (_ && _).
    + intros H. inversion H. apply step_none.
    + unfold Store.createNewRegistry, Store.initRegistry. intros H.
      inversion H; subst. apply step_init.
  - unfold API.poolAdd. intros H. apply worldAfter_guard in H;
      [|intros r wg; apply PoolFacts.checkPoolArguments_world].
    destruct H as [->|([] & Hc & H)]; [apply step_none|].
    apply PoolFacts.checkPoolArguments_inv in Hc.
    destruct Hc as (Hname & Hs & He & Hlt & _).
    revert H. apply withLock_step. intros w1 r w2.
    apply poolAddLocked_step; assumption.
  - unfold API.poolUpdate. intros H. apply worldAfter_guard in H;
      [|intros r wg; apply PoolFacts.checkPoolArguments_world].
    destruct H as [->|([] & Hc & H)]; [apply step_none|].
    apply PoolFacts.checkPoolArguments_inv in Hc.
    destruct Hc as (_ & Hs & He & Hlt & _).
    revert H. apply withLock_step. intros w1 r w2.
    apply poolUpdateLocked_step; assumption.
  - unfold API.poolDelete. destruct (negb (truthyS poolName)).
    + unfold API.worldAfter, throw. intros H. inversion H. apply step_none.
    + apply withLock_step. intros w1 r w2. apply poolDeleteLocked_step.
  - unfold API.poolClear. destruct (negb (truthyS poolName)).
    + unfold API.worldAfter, throw. intros H. inversion H. apply step_none.
    + apply withLock_step. intros w1 r w2. apply poolClearLocked_step.
  - unfold API.worldAfter. rewrite getRegistry_spec. intros H.
    inversion H; subst. rewrite view_loaded. apply step_none.
Qed.

(** Every call returns. *)
Lemma run_returns (c : API.Call) (w : World) :
  is_Some (API.run portChecker existsSync gitRoot c w).
Proof.
  assert (Hafter : forall (A : Type) (m : M A) (w0 : World),
             is_Some (m w0) -> is_Some (API.worldAfter m w0)).
  { intros A m w0 [[r w1] H]. unfold API.worldAfter. rewrite H. eauto. }
  assert (Hget : forall (A : Type) (k : Registry -> M A) (w0 : World),
             (forall registry w1, is_Some (k registry w1)) ->
             is_Some (bind Store.getRegistry k w0)).
  { intros A k w0 Hk. rewrite (bind_ok _ _ _ _ _ (getRegistry_spec w0)). apply Hk. }
  assert (Hres : forall (A : Type) (ident : string) (k : string -> M A) (w0 : World),
             (forall i, is_Some (k i w0)) ->
             is_Some (bind (API.resolveIdentifier gitRoot ident) k w0)).
  { intros A ident k w0 Hk. unfold bind, API.resolveIdentifier.
    destruct (truthyS ident); [apply Hk|].
    destruct (truthyS _); [apply Hk|unfold throw; eauto]. }
  assert (Hchk : forall (A : Type) (poolName : string) (rs re : Z) (k : M A) (w0 : World),
             is_Some (k w0) ->
             is_Some (bind (API.checkPoolArguments poolName rs re) (fun _ => k) w0)).
  { intros A poolName rs re k w0 Hk. unfold bind, API.checkPoolArguments.
    destruct (_ || _); [unfold throw; eauto|].
    destruct (_ >=? _)%Z; [unfold throw; eauto|exact Hk]. }
  destruct c as [pl tg ident wt|tg ident|isDryRun|force|poolName rs re
                |poolName rs re|poolName|poolName|]; simpl; apply Hafter.
  - unfold API.lease. destruct (negb (truthyS pl)); [unfold throw; eauto|].
    apply Hres. intros i. apply PoolFacts.withLock_returns. intros w1.
    unfold API.leaseLocked. apply Hget. intros registry w2.
    unfold bind, lift, validatePool.
    destruct (pools registry !! pl); [|eauto].
    destruct (getExistingLease _ _ _ _); [unfold ret; eauto|].
    destruct (API.findPort _ _ _ _); [|unfold throw; eauto].
    destruct (truthyZ _); [|unfold throw; eauto].
    unfold dateNow, Store.saveRegistry, ret; simpl. eauto.
  - unfold API.release. apply Hres. intros i.
    apply PoolFacts.withLock_returns. intros w1.
    unfold API.releaseLocked. apply Hget. intros registry w2.
    destruct (match tg with Some _ => _ | None => _ end) as [n registry'].
    destruct (Nat.eqb n 0); [destruct tg; unfold throw; eauto|].
    unfold bind, Store.saveRegistry, ret. eauto.
  - unfold API.cleanup. apply PoolFacts.withLock_returns. intros w1.
    unfold API.cleanupLocked. apply Hget. intros registry w2.
    unfold bind at 1. unfold dateNow.
    destruct (Nat.eqb _ 0); [unfold ret; eauto|].
    destruct isDryRun; [unfold ret; eauto|].
    destruct (removeStaleLeases _ _) as [n registry'].
    unfold bind, Store.saveRegistry, ret. eauto.
  - unfold API.init. destruct (_ && _); [eauto|].
    unfold Store.createNewRegistry, Store.initRegistry. eauto.
  - unfold API.poolAdd. apply Hchk. apply PoolFacts.withLock_returns. intros w1.
    unfold API.poolAddLocked. apply Hget. intros registry w2.
    unfold bind, lift, addPool. destruct (pools registry !! poolName); [eauto|].
    unfold Store.saveRegistry, ret. eauto.
  - unfold API.poolUpdate. apply Hchk. apply PoolFacts.withLock_returns. intros w1.
    unfold API.poolUpdateLocked. apply Hget. intros registry w2. cbv zeta.
    destruct (Nat.ltb 0 _); [unfold throw; eauto|].
    unfold bind, lift, updatePool. destruct (pools registry !! poolName); [|eauto].
    unfold Store.saveRegistry, ret. eauto.
  - unfold API.poolDelete. destruct (negb (truthyS poolName)); [unfold throw; eauto|].
    apply PoolFacts.withLock_returns. intros w1.
    unfold API.poolDeleteLocked. apply Hget. intros registry w2.
    unfold bind at 1. unfold lift, deletePool.
    destruct (pools registry !! poolName); [|eauto].
    destruct (Nat.ltb 0 _); [unfold throw; eauto|].
    unfold bind, Store.saveRegistry, ret. eauto.
  - unfold API.poolClear. destruct (negb (truthyS poolName)); [unfold throw; eauto|].
    apply PoolFacts.withLock_returns. intros w1.
    unfold API.poolClearLocked. apply Hget. intros registry w2.
    destruct (pools registry !! poolName); [|unfold throw; eauto].
    destruct (clearPoolLeases _ _) as [n registry'].
    destruct (Nat.eqb n 0); [unfold ret; eauto|].
    unfold bind, Store.saveRegistry, ret. eauto.
  - rewrite getRegistry_spec. eauto.
Qed.

End WithCollaborators.

Lemma filter_filter_length {A : Type} (f g : A -> bool) (xs : list A) :
  (length (List.filter f (List.filter g xs)) <= length (List.filter f xs))%nat.
Proof.
  induction xs as [|x xs IH]; simpl; [lia|].
  destruct (g x); simpl; destruct (f x); simpl; lia.
Qed.

Lemma default_wellFormed : wellFormed (pools getDefaultRegistry, []).
Proof.
  split.
  - intros l [].
  - intros name p. unfold getDefaultRegistry; simpl.
    rewrite !lookup_insert_Some, lookup_empty.
    intros [[_ <-]|[_ [[_ <-]|[_ [[_ <-]|[_ ?]]]]]]; simpl; try lia; discriminate.
  - intros l p [].
  - intros ident pl tg. unfold countTriple. simpl. lia.
  - split; [|intros l []].
    intros name p. unfold getDefaultRegistry; simpl.
    rewrite !lookup_insert_Some, lookup_empty.
    intros [[<- _]|[_ [[<- _]|[_ [[<- _]|[_ ?]]]]]]; discriminate.
Qed.

(** Each step keeps the invariants. *)
Lemma step_wellFormed (st st' : State) :
  step st st' -> wellFormed st -> wellFormed st'.
Proof.
  intros Hstep [Hk Hb Hr Hu [Hnp Hnl]].
  destruct Hstep as [st|ps ls l range Hident Hrange Hport Hfresh|ps ls gone
                    |ps ls name rs re Hname Hnew Hs He Hlt
                    |ps ls name rs re Hold Hs He Hlt Hin
                    |ps ls name Hnone|st].
  - split; [assumption..|split; assumption].
  - unfold poolsKnown, boundsValid, portsInRange, oneLeasePerTriple, namesGiven in *.
    simpl in *. split; simpl.
    + intros x Hx. simpl in *. apply in_app_iff in Hx. destruct Hx as [Hx|[E|[]]].
      * apply Hk. exact Hx.
      * subst x. rewrite Hrange. eauto.
    + exact Hb.
    + intros x p Hx Hp. simpl in *. apply in_app_iff in Hx.
      destruct Hx as [Hx|[E|[]]].
      * apply Hr; assumption.
      * subst x. rewrite Hrange in Hp. inversion Hp; subst. exact Hport.
    + intros ident pl tg. simpl in *. unfold countTriple in *.
      rewrite List.filter_app, length_app. simpl.
      destruct (sameTriple ident pl tg l) eqn:E; simpl; [|specialize (Hu ident pl tg); lia].
      apply sameTriple_true in E. destruct E as (<- & <- & <-).
      assert (Hnil : List.filter
                       (sameTriple (identifier l) (pool l) (tag l)) ls = []).
      { apply PoolFacts.filter_nil_iff. intros x Hx.
        destruct (sameTriple _ _ _ x) eqn:Ex; [|reflexivity].
        apply sameTriple_true in Ex. exfalso. exact (Hfresh x Hx Ex). }
      rewrite Hnil. simpl. lia.
    + split; [exact Hnp|]. intros x Hx. simpl in *. apply in_app_iff in Hx.
      destruct Hx as [Hx|[E|[]]]; [apply Hnl; exact Hx|subst x; exact Hident].
  - unfold poolsKnown, boundsValid, portsInRange, oneLeasePerTriple, namesGiven in *.
    simpl in *. split; simpl.
    + intros x Hx. simpl in *. apply filter_In in Hx. apply Hk. tauto.
    + exact Hb.
    + intros x p Hx. simpl in *. apply filter_In in Hx. apply Hr. tauto.
    + intros ident pl tg. simpl in *. unfold countTriple in *.
      pose proof (filter_filter_length (sameTriple ident pl tg)
                    (fun l => negb (gone l)) ls).
      specialize (Hu ident pl tg). lia.
    + split; [exact Hnp|]. intros x Hx. simpl in *. apply filter_In in Hx.
      apply Hnl. tauto.
  - unfold poolsKnown, boundsValid, portsInRange, oneLeasePerTriple, namesGiven in *.
    simpl in *. split; simpl.
    + intros x Hx. simpl in *. destruct (decide (name = pool x)) as [->|Hne].
      * rewrite lookup_insert_eq. eauto.
      * rewrite lookup_insert_ne by exact Hne. apply Hk. exact Hx.
    + intros n p. simpl in *. rewrite lookup_insert_Some.
      intros [[_ <-]|[_ Hp]]; simpl; [tauto|eauto].
    + intros x p Hx. simpl in *. destruct (decide (name = pool x)) as [->|Hne].
      * destruct (Hk x Hx) as [p' Hp']. congruence.
      * rewrite lookup_insert_ne by exact Hne. apply Hr. exact Hx.
    + exact Hu.
    + split; [|exact Hnl]. intros n p. simpl in *. rewrite lookup_insert_Some.
      intros [[<- _]|[_ Hp]]; [exact Hname|eauto].
  - unfold poolsKnown, boundsValid, portsInRange, oneLeasePerTriple, namesGiven in *.
    simpl in *. split; simpl.
    + intros x Hx. simpl in *. destruct (decide (name = pool x)) as [->|Hne].
      * rewrite lookup_insert_eq. eauto.
      * rewrite lookup_insert_ne by exact Hne. apply Hk. exact Hx.
    + intros n p. simpl in *. rewrite lookup_insert_Some.
      intros [[_ <-]|[_ Hp]]; simpl; [tauto|eauto].
    + intros x p Hx. simpl in *. destruct (decide (name = pool x)) as [->|Hne].
      * rewrite lookup_insert_eq. intros E. inversion E; subst. simpl.
        apply Hin; [exact Hx|reflexivity].
      * rewrite lookup_insert_ne by exact Hne. apply Hr. exact Hx.
    + exact Hu.
    + split; [|exact Hnl]. intros n p. simpl in *. rewrite lookup_insert_Some.
      intros [[<- _]|[_ Hp]]; [|eauto].
      destruct Hold as [old Hold]. eauto.
  - unfold poolsKnown, boundsValid, portsInRange, oneLeasePerTriple, namesGiven in *.
    simpl in *. split; simpl.
    + intros x Hx. simpl in *. rewrite lookup_delete_ne.
      * apply Hk. exact Hx.
      * intros E. apply (Hnone x Hx). congruence.
    + intros n p. simpl in *. rewrite lookup_delete_Some. intros [_ Hp]. eauto.
    + intros x p Hx. simpl in *. rewrite lookup_delete_Some. intros [_ Hp]. eauto.
    + exact Hu.
    + split; [|exact Hnl]. intros n p. simpl in *. rewrite lookup_delete_Some.
      intros [_ Hp]. eauto.
  - apply default_wellFormed.
Qed.

Section Reachable.

Variable portChecker : Z -> bool.
Variable existsSync : string -> bool.
Variable gitRoot : string.

(** In every registry the API produces, the pool of each lease exists, the
    bounds of each pool are non-zero with the start below the end, the port
    of each lease lies in the range of its pool, and no two leases have the
    same (identifier, pool, tag). *)
Lemma reachable_wellFormed (w : World) : reachable w -> wellFormed (view w).
Proof.
  induction 1 as [marker now|probe exists_ root c w w' _ IH Hrun|marker now w _ IH].
  - apply default_wellFormed.
  - exact (step_wellFormed _ _ (run_step probe exists_ root c w w' Hrun) IH).
  - rewrite (view_ext w (mkWorld marker (registryFile w) now) eq_refl). exact IH.
Qed.

(** So the pool of a lease found in such a registry is always known. *)
Lemma reachable_pools_known (w : World) (registry : Registry) (l : Lease) :
  reachable w ->
  registryFile w = Some registry ->
  In l (leases registry) ->
  is_Some (pools registry !! pool l).
Proof.
  intros Hreach Hf Hl. apply reachable_wellFormed in Hreach.
  rewrite (view_file _ _ Hf) in Hreach.
  exact (wf_known _ Hreach l Hl).
Qed.

Lemma lease_resolves_inv (pl tg ident wt : string) (w w' : World) (r : LeaseResult) :
  API.lease portChecker gitRoot pl tg ident wt w = Some (Ok r, w') ->
  exists ident' wt' w1 w2,
    acquires w w1
    /\ API.leaseLocked portChecker pl tg ident' wt' w1 = Some (Ok r, w2)
    /\ w' = set_lockFile w2 None.
Proof.
  unfold API.lease. destruct (negb (truthyS pl)); [discriminate|].
  unfold bind, API.resolveIdentifier.
  destruct (truthyS ident).
  - unfold ret. intros H. apply LockFacts.withLock_ok_inv in H.
    destruct H as (w1 & w2 & H). eauto.
  - destruct (truthyS _); [|discriminate].
    unfold ret. intros H. apply LockFacts.withLock_ok_inv in H.
    destruct H as (w1 & w2 & H). eauto.
Qed.

(** And every port [lease] returns in a reachable world, newly allocated
    or already held, lies in the range of the requested pool. *)
Lemma reachable_lease_in_range (pl tg ident wt : string) (w w' : World)
  (r : LeaseResult) :
  reachable w ->
  API.lease portChecker gitRoot pl tg ident wt w = Some (Ok r, w') ->
  exists registry' range,
    registryFile w' = Some registry'
    /\ pools registry' !! pl = Some range
    /\ rangeStart range <= lr_port r <= rangeEnd range.
Proof.
  intros Hreach Hlease.
  assert (Hreach' : reachable w').
  { apply (reach_call portChecker (fun _ => true) gitRoot
             (API.CallLease pl tg ident wt) w w' Hreach).
    simpl. unfold API.worldAfter. rewrite Hlease. reflexivity. }
  apply reachable_wellFormed in Hreach'.
  apply lease_resolves_inv in Hlease.
  destruct Hlease as (ident' & wt' & w1 & w2 & _ & Hbody & ->).
  destruct (LeaseFacts.leaseLocked_ok _ _ _ _ _ _ _ _ Hbody)
    as (registry' & Hf & [range Hrange] & He & Hport & _).
  exists registry', range. split; [exact Hf|]. split; [exact Hrange|].
  rewrite view_lockFile, (view_file _ _ Hf) in Hreach'.
  apply getExistingLease_Some in He. destruct He as (Hin & _ & Hpool & _).
  rewrite Hport. apply (wf_range _ Hreach' (lr_lease r) range Hin).
  simpl. rewrite Hpool. exact Hrange.
Qed.

Lemma oneLease_unique (ident pl tg : string) (ls : list Lease) (l l' : Lease) :
  (countTriple ident pl tg ls <= 1)%nat ->
  In l ls -> In l' ls ->
  sameTriple ident pl tg l = true -> sameTriple ident pl tg l' = true ->
  l' = l.
Proof.
  unfold countTriple. induction ls as [|x ls IH]; simpl; intros Hc Hl Hl' Ht Ht';
    [destruct Hl|].
  destruct (sameTriple ident pl tg x) eqn:Ex; simpl in Hc.
  - assert (Hnil : List.filter (sameTriple ident pl tg) ls = [])
      by (destruct (List.filter _ ls); [reflexivity|simpl in Hc; lia]).
    pose proof (proj1 (PoolFacts.filter_nil_iff _ _) Hnil) as Hnone.
    destruct Hl as [<-|Hl]; [|rewrite (Hnone l Hl) in Ht; discriminate].
    destruct Hl' as [<-|Hl']; [reflexivity|].
    rewrite (Hnone l' Hl') in Ht'. discriminate.
  - destruct Hl as [<-|Hl]; [congruence|].
    destruct Hl' as [<-|Hl']; [congruence|].
    apply IH; assumption.
Qed.

(** C1 -- lease idempotence.  In every world the API can get to, with the
    lock acquired: when the registry holds a lease of the triple
    (identifier, pool, tag), [lease] returns the port of that lease, with
    the lease, and the registry file is left as it was.  On any registry
    file, for a call with a pool that the registry has and an identifier:
    [lease] returns the port of the first lease of the triple, which is
    that lease when it is the only one, and leaves the file as it was.
    And when a call of [lease] has succeeded, the same call again (whatever
    the worktree path) returns the same port and lease and leaves the
    registry file as the first call left it, with exactly one lease of the
    triple when there was at most one before. *)
Theorem lease_idempotent :
  (forall (pl tg ident wt : string) (w w1 : World) (registry : Registry) (l : Lease),
      reachable w ->
      acquires w w1 ->
      registryFile w = Some registry ->
      In l (leases registry) ->
      identifier l = ident -> pool l = pl -> tag l = tg ->
      exists w',
        API.lease portChecker gitRoot pl tg ident wt w
        = Some (Ok (mkLeaseResult (port l) l), w')
        /\ registryFile w' = Some registry
        /\ lockFile w' = None)
  /\ (forall (pl tg ident wt : string) (w w1 : World) (registry : Registry) (l : Lease),
         pl <> "" -> ident <> "" ->
         acquires w w1 ->
         registryFile w = Some registry ->
         is_Some (pools registry !! pl) ->
         In l (leases registry) ->
         identifier l = ident -> pool l = pl -> tag l = tg ->
         exists existing w',
           API.lease portChecker gitRoot pl tg ident wt w
           = Some (Ok (mkLeaseResult (port existing) existing), w')
           /\ In existing (leases registry)
           /\ identifier existing = ident /\ pool existing = pl
           /\ tag existing = tg
           /\ ((forall l', In l' (leases registry) ->
                           identifier l' = ident -> pool l' = pl -> tag l' = tg ->
                           l' = l) ->
               existing = l)
           /\ registryFile w' = Some registry
           /\ lockFile w' = None)
  /\ (forall (pl tg ident wt wt2 : string) (w w' : World) (registry : Registry)
             (r : LeaseResult),
         ident <> "" ->
         registryFile w = Some registry ->
         API.lease portChecker gitRoot pl tg ident wt w = Some (Ok r, w') ->
         exists w'' registry',
           API.lease portChecker gitRoot pl tg ident wt2 w' = Some (Ok r, w'')
           /\ registryFile w' = Some registry'
           /\ registryFile w'' = Some registry'
           /\ ((countTriple ident pl tg (leases registry) <= 1)%nat ->
               countTriple ident pl tg (leases registry') = 1%nat)).
Proof.
  split; [|split].
  - intros pl tg ident wt w w1 registry l Hreach Ha Hf Hl Hi Hp Ht.
    apply reachable_wellFormed in Hreach.
    rewrite (view_file _ _ Hf) in Hreach.
    destruct Hreach as [Hk _ _ Hu [Hnp Hnl]]. simpl in *.
    destruct (Hk l Hl) as [range Hrange]. rewrite Hp in Hrange.
    assert (Hpl : pl <> "") by exact (Hnp pl range Hrange).
    assert (Hid : ident <> "") by (rewrite <- Hi; exact (Hnl l Hl)).
    destruct (LeaseFacts.lease_returns_existing portChecker gitRoot
                pl tg ident wt w w1 registry l Hpl Hid Ha Hf
                (ex_intro _ range Hrange) Hl Hi Hp Ht)
      as (existing & w' & Hlease & Hin & Hei & Hep & Het & _ & Hfile & Hlock).
    assert (E : existing = l).
    { apply (oneLease_unique ident pl tg (leases registry));
        [apply Hu|exact Hl|exact Hin| |]; apply sameTriple_true; tauto. }
    subst existing. exists w'. repeat split; assumption.
  - intros pl tg ident wt w w1 registry l.
    apply LeaseFacts.lease_returns_existing.
  - intros pl tg ident wt wt2 w w' registry r.
    apply LeaseFacts.lease_again.
Qed.

Lemma step_zero_bound (st st' : State) (name : string) (p : Pool) :
  step st st' ->
  fst st' !! name = Some p ->
  rangeStart p = 0 \/ rangeEnd p = 0 ->
  fst st !! name = Some p.
Proof.
  intros Hstep.
  destruct Hstep as [st|ps ls l range Hident Hrange Hport Hfresh|ps ls gone
                    |ps ls n rs re Hname Hnew Hs He Hlt
                    |ps ls n rs re Hold Hs He Hlt Hin
                    |ps ls n Hnone|st]; simpl; try tauto.
  - rewrite lookup_insert_Some. intros [[_ <-]|[_ Hp]]; simpl; [lia|tauto].
  - rewrite lookup_insert_Some. intros [[_ <-]|[_ Hp]]; simpl; [lia|tauto].
  - rewrite lookup_delete_Some. tauto.
  - intros Hp Hz. destruct (wf_bounds _ default_wellFormed name p Hp). lia.
Qed.

(** C10 -- a bound of 0 is a missing argument.  [poolAdd] and [poolUpdate]
    called with an empty name, a start of 0 or an end of 0 throw the error
    of the missing arguments, whatever the other arguments are, without
    touching the world.  And no call of the API creates or changes a pool
    so that it has a zero bound: a pool with a zero bound that the registry
    has after a call was there, with the same bounds, before it. *)
Theorem zero_bound_is_missing_argument :
  (forall (poolName : string) (rs re : Z) (w : World),
      poolName = "" \/ rs = 0 \/ re = 0 ->
      API.poolAdd poolName rs re w = Some (Throw PoolArgumentsRequired, w)
      /\ API.poolUpdate poolName rs re w = Some (Throw PoolArgumentsRequired, w))
  /\ (forall (c : API.Call) (w w' : World) (name : string) (p : Pool),
         API.run portChecker existsSync gitRoot c w = Some w' ->
         fst (view w') !! name = Some p ->
         rangeStart p = 0 \/ rangeEnd p = 0 ->
         fst (view w) !! name = Some p).
Proof.
  split.
  - intros poolName rs re w H. unfold API.poolAdd, API.poolUpdate.
    rewrite !(bind_throw _ _ _ _ _
                (PoolFacts.checkPoolArguments_missing poolName rs re w H)).
    split; reflexivity.
  - intros c w w' name p Hrun. apply step_zero_bound.
    exact (run_step _ _ _ c w w' Hrun).
Qed.

End Reachable.

End EngineFacts.

(** ** The other operations on concrete registries *)

Lemma release_by_tag_or_all_witness :
  (exists w',
      API.release "/repo" (Some "") "proj" worldTags
      = Some (Ok (mkReleaseResult 1 [leaseApiTag; leaseOther]), w')
      /\ registryFile w'
         = Some (set_lastModified
                   (set_leases regTags [leaseApiTag; leaseOther]) 2000)
      /\ lockFile w' = None)
  /\ (exists w',
         API.release "/repo" None "proj" worldTags
         = Some (Ok (mkReleaseResult 2 [leaseOther]), w')
         /\ registryFile w'
            = Some (set_lastModified (set_leases regTags [leaseOther]) 2000)
         /\ lockFile w' = None)
  /\ (exists w',
         API.release "/repo" (Some "web") "proj" worldTags
         = Some (Throw (NoLeaseWithTag "web"), w')
         /\ registryFile w' = Some regTags
         /\ lockFile w' = None).
Proof.
  split; [|split].
  - destruct (ReleaseFacts.release_by_tag_or_all "/repo" (Some "") "proj" worldTags
                (mkWorld (Some 2000) (Some regTags) 2000) regTags)
      as (_ & _ & _ & _ & H); [discriminate|reflexivity|reflexivity|].
    apply H. discriminate.
  - destruct (ReleaseFacts.release_by_tag_or_all "/repo" None "proj" worldTags
                (mkWorld (Some 2000) (Some regTags) 2000) regTags)
      as (_ & _ & _ & _ & H); [discriminate|reflexivity|reflexivity|].
    apply H. discriminate.
  - destruct (ReleaseFacts.release_by_tag_or_all "/repo" (Some "web") "proj" worldTags
                (mkWorld (Some 2000) (Some regTags) 2000) regTags)
      as (_ & _ & _ & H & _); [discriminate|reflexivity|reflexivity|].
    apply H. reflexivity.
Defined.

Lemma staleness_rule_witness :
  Reg.staleReason onlyHere (Some probeNone) 7 1000 leaseHere = None
  /\ Reg.staleReason onlyHere (Some probeAll) 7 eightDays leaseHere = None.
Proof.
  split.
  - apply (proj1 (proj2 (proj2 (StaleFacts.staleness_rule onlyHere probeNone 1000)))).
    + intros (t & E & Hold). inversion E; subst. lia.
    + right. reflexivity.
  - apply (proj2 (proj2 (proj2 (StaleFacts.staleness_rule onlyHere probeAll eightDays)))).
    + reflexivity.
    + right. reflexivity.
Defined.

(** A lease older than 7 days whose port is in use is reported all the
    same when its worktree path is gone. *)
Lemma staleness_rule_counterexample :
  ~ (forall (existsSync : string -> bool) (probe : Z -> bool) (now : Z) (l : Lease),
        olderThan7Days now l ->
        probe (port l) = true ->
        Reg.staleReason existsSync (Some probe) 7 now l = None).
Proof.
  intros H. specialize (H onlyHere probeAll eightDays leaseGone).
  assert (Hold : olderThan7Days eightDays leaseGone).
  { exists 0. split; [reflexivity|]. unfold eightDays. lia. }
  specialize (H Hold eq_refl). vm_compute in H. discriminate.
Qed.

Example staleReason_leaseGone :
  Reg.staleReason onlyHere (Some probeAll) 7 eightDays leaseGone
  = Some Reg.WorktreeMissing.
Proof. reflexivity. Qed.

Lemma poolUpdate_rejects_or_replaces_witness :
  ((exists e w',
       API.poolUpdate "frontend" 3300 3400 worldHttps = Some (Throw e, w')
       /\ registryFile w' = Some regHttps)
   /\ (forall w1,
          "frontend" <> "" -> 3300 <> 0 -> 3400 <> 0 -> 3300 < 3400 ->
          acquires worldHttps w1 ->
          API.poolUpdate "frontend" 3300 3400 worldHttps
          = Some (Throw (LeasesOutsideRange
                           (length (List.filter
                                      (API.outsideNewRange "frontend" 3300 3400)
                                      (leases regHttps)))),
                  set_lockFile w1 None)))
  /\ (exists w' registry',
         API.poolUpdate "backend" 5000 5999 worldHttps
         = Some (Ok (mkPoolResult "backend" 5000 5999), w')
         /\ registryFile w' = Some registry'
         /\ pools registry' !! "backend" = Some (mkPool 5000 5999)
         /\ (forall other, other <> "backend" ->
                           pools registry' !! other = pools regHttps !! other)
         /\ leases registry' = leases regHttps
         /\ lastModified registry' = Some 2000
         /\ lockFile w' = None).
Proof.
  split.
  - apply (proj1 PoolFacts.poolUpdate_rejects_or_replaces
             "frontend" 3300 3400 worldHttps regHttps leaseHttps).
    + reflexivity.
    + left. reflexivity.
    + right. reflexivity.
    + right. simpl. lia.
  - apply (proj2 PoolFacts.poolUpdate_rejects_or_replaces
             "backend" 5000 5999 worldHttps
             (mkWorld (Some 2000) (Some regHttps) 2000) regHttps).
    + discriminate.
    + discriminate.
    + discriminate.
    + lia.
    + reflexivity.
    + reflexivity.
    + eexists. reflexivity.
    + intros l [<-|[]] [E|E]; discriminate E.
Defined.

Lemma poolDelete_rejects_or_removes_witness :
  (exists n w',
      API.poolDelete "frontend" worldOne
      = Some (Throw (PoolHasLeases "frontend" n), w')
      /\ n = length (List.filter (Reg.inPool "frontend") (leases regOne))
      /\ (1 <= n)%nat
      /\ registryFile w' = Some regOne
      /\ lockFile w' = None)
  /\ (exists w' registry',
         API.poolDelete "backend" worldOne = Some (Ok "backend", w')
         /\ registryFile w' = Some registry'
         /\ pools registry' !! "backend" = None
         /\ (forall other, other <> "backend" ->
                           pools registry' !! other = pools regOne !! other)
         /\ leases registry' = leases regOne
         /\ lastModified registry' = Some 2000
         /\ lockFile w' = None).
Proof.
  split.
  - apply (proj1 (PoolFacts.poolDelete_rejects_or_removes "frontend" worldOne
                    (mkWorld (Some 2000) (Some regOne) 2000) regOne
                    ltac:(discriminate) eq_refl eq_refl
                    (ex_intro _ (mkPool 3300 3499) eq_refl))).
    exists leaseOne. split; [left; reflexivity|reflexivity].
  - apply (proj2 (PoolFacts.poolDelete_rejects_or_removes "backend" worldOne
                    (mkWorld (Some 2000) (Some regOne) 2000) regOne
                    ltac:(discriminate) eq_refl eq_refl
                    (ex_intro _ (mkPool 5300 5499) eq_refl))).
    intros l [<-|[]]. discriminate.
Defined.

Lemma cleanup_removes_by_port_witness :
  (exists w',
      API.cleanup probeNone onlyHere false worldShared
      = Some (Ok (mkCleanupResult [(leaseGone, Reg.WorktreeMissing)] 2 None), w')
      /\ registryFile w' = Some (set_lastModified (set_leases regShared []) 2000)
      /\ lockFile w' = None)
  /\ (length (staleAt probeNone onlyHere 2000 regShared) < 2)%nat.
Proof.
  destruct (CleanupFacts.cleanup_removes_by_port probeNone onlyHere worldShared
              (mkWorld (Some 2000) (Some regShared) 2000) regShared)
    as (H1 & _ & _ & _ & H5); [reflexivity|reflexivity|discriminate|].
  split.
  - exact H1.
  - apply (H5 leaseGone leaseHere).
    + left. reflexivity.
    + right. left. reflexivity.
    + eexists. reflexivity.
    + reflexivity.
    + reflexivity.
Defined.

Example regShared_reached :
  after (API.lease probeNone "/here" "b" "" "p2" "/here")
    (after (API.lease probeNone "/gone" "a" "" "p1" "/gone")
       (after (API.poolAdd "b" 8000 8010)
          (after (API.poolAdd "a" 8000 8010)
             (mkWorld None
                (Some {| version := "1.0"; pools := ∅; leases := [];
                         lastModified := Some 0 |}) 0))))
  = mkWorld None (Some regShared) 0.
Proof. vm_compute. reflexivity. Qed.

Lemma zero_bound_is_missing_argument_witness :
  (API.poolAdd "api" 0 8099 worldOne = Some (Throw PoolArgumentsRequired, worldOne)
   /\ API.poolUpdate "api" 0 8099 worldOne = Some (Throw PoolArgumentsRequired, worldOne))
  /\ (API.poolAdd "api" 8000 0 worldOne = Some (Throw PoolArgumentsRequired, worldOne)
      /\ API.poolUpdate "api" 8000 0 worldOne
         = Some (Throw PoolArgumentsRequired, worldOne))
  /\ fst (view (mkWorld None (Some regZeroBound) 10)) !! "z"
     = Some (mkPool 0 5).
Proof.
  split; [|split].
  - apply (proj1 (EngineFacts.zero_bound_is_missing_argument probeNone onlyHere "/repo")).
    right. left. reflexivity.
  - apply (proj1 (EngineFacts.zero_bound_is_missing_argument probeNone onlyHere "/repo")).
    right. right. reflexivity.
  - apply (proj2 (EngineFacts.zero_bound_is_missing_argument probeNone onlyHere "/repo")
             (API.CallPoolAdd "y" 1 2) (mkWorld None (Some regZeroBound) 10)
             (mkWorld None
                (Some (withPool regZeroBound "y" 1 2 10)) 10)).
    + vm_compute. reflexivity.
    + vm_compute. reflexivity.
    + left. reflexivity.
Defined.

(** The world [lease "frontend" "" "proj" "/p"] leaves when run at time 1000
    without a registry file. *)
Lemma worldLeased_reachable :
  reachable (mkWorld None (Some regOne) 1000).
Proof.
  apply (reach_call probeNone onlyHere "/repo"
           (API.CallLease "frontend" "" "proj" "/p") (mkWorld None None 1000)).
  - apply reach_start.
  - vm_compute. reflexivity.
Qed.

Lemma lease_idempotent_witness :
  (exists w',
      API.lease probeNone "/repo" "frontend" "" "proj" "/elsewhere"
        (mkWorld None (Some regOne) 1000)
      = Some (Ok (mkLeaseResult (port leaseOne) leaseOne), w')
      /\ registryFile w' = Some regOne
      /\ lockFile w' = None)
  /\ (exists existing w',
         API.lease probeNone "/repo" "frontend" "" "proj" "/elsewhere" worldOne
         = Some (Ok (mkLeaseResult (port existing) existing), w')
         /\ In existing (leases regOne)
         /\ identifier existing = "proj" /\ pool existing = "frontend"
         /\ tag existing = ""
         /\ ((forall l', In l' (leases regOne) ->
                         identifier l' = "proj" -> pool l' = "frontend" ->
                         tag l' = "" -> l' = leaseOne) ->
             existing = leaseOne)
         /\ registryFile w' = Some regOne
         /\ lockFile w' = None)
  /\ (exists w'' registry',
         API.lease probeNone "/repo" "frontend" "" "proj" "/elsewhere"
           (mkWorld None (Some regOne) 1000)
         = Some (Ok (mkLeaseResult 3300 leaseOne), w'')
         /\ registryFile (mkWorld None (Some regOne) 1000) = Some registry'
         /\ registryFile w'' = Some registry'
         /\ ((countTriple "proj" "frontend" "" (leases regFresh) <= 1)%nat ->
             countTriple "proj" "frontend" "" (leases registry') = 1%nat)).
Proof.
  split; [|split].
  - apply (proj1 (EngineFacts.lease_idempotent probeNone onlyHere "/repo")
             "frontend" "" "proj" "/elsewhere" (mkWorld None (Some regOne) 1000)
             (mkWorld (Some 1000) (Some regOne) 1000) regOne leaseOne).
    + exact worldLeased_reachable.
    + reflexivity.
    + reflexivity.
    + left. reflexivity.
    + reflexivity.
    + reflexivity.
    + reflexivity.
  - apply (proj1 (proj2 (EngineFacts.lease_idempotent probeNone onlyHere "/repo"))
             "frontend" "" "proj" "/elsewhere" worldOne
             (mkWorld (Some 2000) (Some regOne) 2000) regOne leaseOne).
    + discriminate.
    + discriminate.
    + reflexivity.
    + reflexivity.
    + eexists. reflexivity.
    + left. reflexivity.
    + reflexivity.
    + reflexivity.
    + reflexivity.
  - apply (proj2 (proj2 (EngineFacts.lease_idempotent probeNone onlyHere "/repo"))
             "frontend" "" "proj" "/p" "/elsewhere" worldFresh
             (mkWorld None (Some regOne) 1000) regFresh
             (mkLeaseResult 3300 leaseOne)).
    + discriminate.
    + reflexivity.
    + vm_compute. reflexivity.
Defined.

(** * Further properties of the API *)

(** ** How calls change the list of leases *)

Module ChangeFacts.
Import Reg RegFacts StoreFacts EngineFacts.

Section WithCollaborators.

Variable portChecker : Z -> bool.
Variable existsSync : string -> bool.
Variable gitRoot : string.

(** A relation on what the registry file says that every state has with
    itself is kept by a function run under the lock when the function
    keeps it. *)
Lemma withLock_related (R : State -> State -> Prop) {A : Type} (fn : M A)
  (timeoutMs : Z) (w w' : World) :
  (forall st, R st st) ->
  (forall w1 r w2, fn w1 = Some (r, w2) -> R (view w1) (view w2)) ->
  API.worldAfter (Lock.withLock fn timeoutMs) w = Some w' ->
  R (view w) (view w').
Proof.
  intros Hrefl Hfn. unfold API.worldAfter.
  destruct (Lock.withLock fn timeoutMs w) as [[r wr]|] eqn:H; [|discriminate].
  intros E. inversion E; subst; clear E.
  apply LockFacts.withLock_inv in H.
  destruct H as [(e & Ha & _)|(w1 & w2 & Ha & Hf & ->)].
  - rewrite (view_ext _ _ (LockFacts.acquireLock_registry _ _ _ _ Ha)).
    apply Hrefl.
  - rewrite view_lockFile.
    rewrite <- (view_ext _ _ (LockFacts.acquireLock_registry _ _ _ _ Ha)).
    exact (Hfn _ _ _ Hf).
Qed.

Lemma getRegistry_related (R : State -> State -> Prop) {A : Type}
  (k : Registry -> M A) (w w2 : World) (r : result A) :
  (forall w1, view w1 = view w -> registryFile w1 = Some (loaded w) ->
              k (loaded w) w1 = Some (r, w2) -> R (view w1) (view w2)) ->
  bind Store.getRegistry k w = Some (r, w2) ->
  R (view w) (view w2).
Proof.
  intros Hk. rewrite (bind_ok _ _ _ _ _ (getRegistry_spec w)). intros H.
  rewrite <- (view_loaded w). apply Hk; [reflexivity|reflexivity|exact H].
Qed.

Ltac unchanged :=
  match goal with
  | H : Some (_, ?w) = Some (_, ?w2) |- leasesRelated (view ?w) (view ?w2) =>
      inversion H; subst; apply lc_same
  end.

Lemma removeWhere_related (gone : Lease -> bool) (w : World) (registry : Registry) :
  registryFile w = Some registry ->
  leasesRelated (view w)
    (view (set_registryFile w
             (Some (set_lastModified (snd (removeWhere gone registry)) (clock w))))).
Proof.
  intros Hf. unfold leasesRelated. rewrite saved_view, (view_file _ _ Hf). simpl.
  apply lc_removed.
Qed.

Lemma leaseLocked_related (pl tg ident wt : string) (w1 w2 : World)
  (r : result LeaseResult) :
  API.leaseLocked portChecker pl tg ident wt w1 = Some (r, w2) ->
  leasesRelated (view w1) (view w2).
Proof.
  unfold API.leaseLocked. apply getRegistry_related. intros w Hv Hf.
  set (registry := loaded w1) in *.
  unfold bind, lift, validatePool.
  destruct (pools registry !! pl) as [range|] eqn:Hr; [|intros H; unchanged].
  destruct (getExistingLease registry ident pl tg) eqn:He;
    [unfold ret; intros H; unchanged|].
  destruct (API.findPort _ _ _ _) as [p|] eqn:Hp;
    [|unfold throw; intros H; unchanged].
  destruct (truthyZ p); [|unfold throw; intros H; unchanged].
  unfold dateNow, Store.saveRegistry, ret; simpl. intros H.
  inversion H; subst; clear H.
  unfold leasesRelated. rewrite saved_view, (view_file _ _ Hf). simpl.
  apply LeaseFacts.findPort_Some in Hp. destruct Hp as (_ & Hav & _).
  apply LeaseFacts.available_free in Hav. destruct Hav as [Hnot _].
  apply lc_appended. intros x Hx E. apply Hnot. exists x.
  unfold placeOf in E. simpl in E. inversion E. tauto.
Qed.

Lemma releaseLocked_related (tg : option string) (ident : string) (w1 w2 : World)
  (r : result ReleaseResult) :
  API.releaseLocked tg ident w1 = Some (r, w2) -> leasesRelated (view w1) (view w2).
Proof.
  unfold API.releaseLocked. apply getRegistry_related. intros w Hv Hf.
  set (registry := loaded w1) in *.
  assert (E : (match tg with
               | Some t => removeLeasesByTag registry ident t
               | None => removeLeasesByIdentifier registry ident
               end) = removeWhere (released tg ident) registry)
    by (destruct tg; reflexivity).
  rewrite E. rewrite (surjective_pairing (removeWhere _ registry)).
  destruct (Nat.eqb _ 0).
  - destruct tg; unfold throw; intros H; unchanged.
  - unfold bind, Store.saveRegistry, ret. intros H. inversion H; subst; clear H.
    apply removeWhere_related. exact Hf.
Qed.

Lemma cleanupLocked_related (isDryRun : bool) (w1 w2 : World)
  (r : result CleanupResult) :
  API.cleanupLocked portChecker existsSync isDryRun w1 = Some (r, w2) ->
  leasesRelated (view w1) (view w2).
Proof.
  unfold API.cleanupLocked. apply getRegistry_related. intros w Hv Hf.
  set (registry := loaded w1) in *.
  unfold bind at 1. unfold dateNow.
  destruct (Nat.eqb _ 0); [unfold ret; intros H; unchanged|].
  destruct isDryRun; [unfold ret; intros H; unchanged|].
  unfold removeStaleLeases.
  rewrite (surjective_pairing (removeWhere _ registry)).
  unfold bind, Store.saveRegistry, ret. intros H. inversion H; subst; clear H.
  apply removeWhere_related. exact Hf.
Qed.

Lemma poolClearLocked_related (poolName : string) (w1 w2 : World) (r : result nat) :
  API.poolClearLocked poolName w1 = Some (r, w2) -> leasesRelated (view w1) (view w2).
Proof.
  unfold API.poolClearLocked. apply getRegistry_related. intros w Hv Hf.
  set (registry := loaded w1) in *.
  destruct (pools registry !! poolName); [|unfold throw; intros H; unchanged].
  unfold clearPoolLeases.
  rewrite (surjective_pairing (removeWhere _ registry)).
  destruct (Nat.eqb _ 0); [unfold ret; intros H; unchanged|].
  unfold bind, Store.saveRegistry, ret. intros H. inversion H; subst; clear H.
  apply removeWhere_related. exact Hf.
Qed.

Lemma poolAddLocked_related (poolName : string) (rs re : Z) (w1 w2 : World)
  (r : result PoolResult) :
  API.poolAddLocked poolName rs re w1 = Some (r, w2) ->
  leasesRelated (view w1) (view w2).
Proof.
  unfold API.poolAddLocked. apply getRegistry_related. intros w Hv Hf.
  set (registry := loaded w1) in *.
  unfold bind, lift, addPool.
  destruct (pools registry !! poolName) eqn:Hp; [intros H; unchanged|].
  unfold Store.saveRegistry, ret. intros H. inversion H; subst; clear H.
  unfold leasesRelated. rewrite saved_view, (view_file _ _ Hf). simpl.
  apply lc_same.
Qed.

Lemma poolUpdateLocked_related (poolName : string) (rs re : Z) (w1 w2 : World)
  (r : result PoolResult) :
  API.poolUpdateLocked poolName rs re w1 = Some (r, w2) ->
  leasesRelated (view w1) (view w2).
Proof.
  unfold API.poolUpdateLocked. apply getRegistry_related.
  intros w Hv Hf. set (registry := loaded w1) in *. cbv zeta.
  destruct (Nat.ltb 0 _) eqn:Haff; [unfold throw; intros H; unchanged|].
  unfold bind, lift, updatePool.
  destruct (pools registry !! poolName) eqn:Hp; [|intros H; unchanged].
  unfold Store.saveRegistry, ret. intros H. inversion H; subst; clear H.
  unfold leasesRelated. rewrite saved_view, (view_file _ _ Hf). simpl.
  apply lc_same.
Qed.

Lemma poolDeleteLocked_related (poolName : string) (w1 w2 : World)
  (r : result string) :
  API.poolDeleteLocked poolName w1 = Some (r, w2) ->
  leasesRelated (view w1) (view w2).
Proof.
  unfold API.poolDeleteLocked. apply getRegistry_related. intros w Hv Hf.
  set (registry := loaded w1) in *.
  unfold bind at 1. unfold lift, deletePool.
  destruct (pools registry !! poolName) eqn:Hp; [|intros H; unchanged].
  destruct (Nat.ltb 0 _) eqn:Hn; [unfold throw; intros H; unchanged|].
  unfold bind, Store.saveRegistry, ret. intros H. inversion H; subst; clear H.
  unfold leasesRelated. rewrite saved_view, (view_file _ _ Hf). simpl.
  apply lc_same.
Qed.

(** Every call changes the list of leases in one of the four ways. *)
Lemma run_leasesChange (c : API.Call) (w w' : World) :
  API.run portChecker existsSync gitRoot c w = Some w' ->
  leasesChange (snd (view w)) (snd (view w')).
Proof.
  change (API.run portChecker existsSync gitRoot c w = Some w' ->
          leasesRelated (view w) (view w')).
  assert (Hrefl : forall st, leasesRelated st st) by (intros st; apply lc_same).
  destruct c as [pl tg ident wt|tg ident|isDryRun|force|poolName rs re
                |poolName rs re|poolName|poolName|]; simpl.
  - unfold API.lease. destruct (negb (truthyS pl)).
    + unfold API.worldAfter, throw. intros H. inversion H. apply Hrefl.
    + intros H. apply worldAfter_guard in H;
        [|intros r wg; apply resolveIdentifier_world].
      destruct H as [->|(ident' & _ & H)]; [apply Hrefl|].
      revert H. apply withLock_related; [exact Hrefl|].
      intros w1 r w2. apply leaseLocked_related.
  - unfold API.release. intros H. apply worldAfter_guard in H;
      [|intros r wg; apply resolveIdentifier_world].
    destruct H as [->|(ident' & _ & H)]; [apply Hrefl|].
    revert H. apply withLock_related; [exact Hrefl|].
    intros w1 r w2. apply releaseLocked_related.
  - unfold API.cleanup. apply withLock_related; [exact Hrefl|].
    intros w1 r w2. apply cleanupLocked_related.
  - unfold API.worldAfter, API.init.
    destruct (_ && _).
    + intros H. inversion H. apply Hrefl.
    + unfold Store.createNewRegistry, Store.initRegistry. intros H.
      inversion H; subst. apply lc_emptied.
  - unfold API.poolAdd. intros H. apply worldAfter_guard in H;
      [|intros r wg; apply PoolFacts.checkPoolArguments_world].
    destruct H as [->|([] & Hc & H)]; [apply Hrefl|].
    revert H. apply withLock_related; [exact Hrefl|].
    intros w1 r w2. apply poolAddLocked_related.
  - unfold API.poolUpdate. intros H. apply worldAfter_guard in H;
      [|intros r wg; apply PoolFacts.checkPoolArguments_world].
    destruct H as [->|([] & Hc & H)]; [apply Hrefl|].
    revert H. apply withLock_related; [exact Hrefl|].
    intros w1 r w2. apply poolUpdateLocked_related.
  - unfold API.poolDelete. destruct (negb (truthyS poolName)).
    + unfold API.worldAfter, throw. intros H. inversion H. apply Hrefl.
    + apply withLock_related; [exact Hrefl|].
      intros w1 r w2. apply poolDeleteLocked_related.
  - unfold API.poolClear. destruct (negb (truthyS poolName)).
    + unfold API.worldAfter, throw. intros H. inversion H. apply Hrefl.
    + apply withLock_related; [exact Hrefl|].
      intros w1 r w2. apply poolClearLocked_related.
  - unfold API.worldAfter. rewrite getRegistry_spec. intros H.
    inversion H; subst. rewrite view_loaded. apply Hrefl.
Qed.

End WithCollaborators.

End ChangeFacts.

(** ** Invariants of the registries the API produces *)

Module InvariantFacts.
Import Reg RegFacts StoreFacts EngineFacts.

Lemma NoDup_map_filter {A B : Type} (f : A -> B) (g : A -> bool) (xs : list A) :
  List.NoDup (List.map f xs) -> List.NoDup (List.map f (List.filter g xs)).
Proof.
  induction xs as [|x xs IH]; simpl; intros H; [constructor|].
  apply List.NoDup_cons_iff in H. destruct H as [Hx Hxs].
  destruct (g x); simpl; [|apply IH; exact Hxs].
  apply List.NoDup_cons_iff. split; [|apply IH; exact Hxs].
  intros Hin. apply Hx. apply in_map_iff in Hin. destruct Hin as (y & E & Hy).
  apply filter_In in Hy. apply in_map_iff. exists y. tauto.
Qed.

Lemma NoDup_map_snoc {A B : Type} (f : A -> B) (xs : list A) (a : A) :
  List.NoDup (List.map f xs) ->
  (forall x, In x xs -> f x <> f a) ->
  List.NoDup (List.map f (xs ++ [a])).
Proof.
  induction xs as [|x xs IH]; simpl; intros H Hfresh.
  - constructor; [intros []|constructor].
  - apply List.NoDup_cons_iff in H. destruct H as [Hx Hxs].
    apply List.NoDup_cons_iff. split.
    + rewrite map_app, in_app_iff. simpl. intros [Hin|[E|[]]]; [tauto|].
      apply (Hfresh x); [left; reflexivity|congruence].
    + apply IH; [exact Hxs|]. intros y Hy. apply Hfresh. right. exact Hy.
Qed.

Lemma NoDup_map_eq {A B : Type} (f : A -> B) (xs : list A) (x y : A) :
  List.NoDup (List.map f xs) -> In x xs -> In y xs -> f x = f y -> x = y.
Proof.
  induction xs as [|z xs IH]; simpl; intros H Hx Hy E; [destruct Hx|].
  apply List.NoDup_cons_iff in H. destruct H as [Hz Hxs].
  destruct Hx as [<-|Hx], Hy as [<-|Hy].
  - reflexivity.
  - exfalso. apply Hz. rewrite E. apply in_map. exact Hy.
  - exfalso. apply Hz. rewrite <- E. apply in_map. exact Hx.
  - apply IH; assumption.
Qed.

Lemma leasesChange_places (ls ls' : list Lease) :
  leasesChange ls ls' ->
  List.NoDup (List.map placeOf ls) -> List.NoDup (List.map placeOf ls').
Proof.
  intros [ls0|ls0 gone|ls0 l Hfresh|ls0] H.
  - exact H.
  - apply NoDup_map_filter. exact H.
  - apply NoDup_map_snoc; assumption.
  - constructor.
Qed.

Lemma portsOfRange_In (range : Pool) (q : Z) :
  In q (portsOfRange range) <-> rangeStart range <= q <= rangeEnd range.
Proof.
  unfold portsOfRange. rewrite in_map_iff. split.
  - intros (k & <- & Hk). apply in_seq in Hk. lia.
  - intros Hq. exists (Z.to_nat (q - rangeStart range)). split; [lia|].
    apply in_seq. lia.
Qed.

Lemma portsOfRange_length (range : Pool) :
  length (portsOfRange range) = Z.to_nat (rangeEnd range - rangeStart range + 1).
Proof. unfold portsOfRange. rewrite length_map, length_seq. reflexivity. Qed.

(** No two leases of a reachable registry have the same pool and port. *)
Lemma reachable_places (w : World) :
  reachable w -> List.NoDup (List.map placeOf (snd (view w))).
Proof.
  induction 1 as [marker now|probe exists_ root c w w' _ IH Hrun|marker now w _ IH].
  - simpl. constructor.
  - exact (leasesChange_places _ _
             (ChangeFacts.run_leasesChange probe exists_ root c w w' Hrun) IH).
  - rewrite (view_ext w (mkWorld marker (registryFile w) now) eq_refl). exact IH.
Qed.

(** In a reachable registry the ports leased in a pool are distinct ports
    of its range. *)
Lemma reachable_pool_ports (w : World) (registry : Registry) (name : string)
  (range : Pool) :
  reachable w ->
  registryFile w = Some registry ->
  pools registry !! name = Some range ->
  List.NoDup (getLeasedPorts registry name)
  /\ incl (getLeasedPorts registry name) (portsOfRange range).
Proof.
  intros Hreach Hf Hrange.
  pose proof (reachable_places w Hreach) as Hnd.
  pose proof (reachable_wellFormed w Hreach) as Hwf.
  rewrite (view_file _ _ Hf) in Hnd, Hwf. simpl in Hnd.
  unfold getLeasedPorts.
  set (inside := List.filter (inPool name) (leases registry)).
  split.
  - apply (NoDup_map_filter placeOf (inPool name)) in Hnd. fold inside in Hnd.
    assert (E : List.map placeOf inside
                = List.map (fun q => (name, q)) (List.map port inside)).
    { rewrite map_map. apply map_ext_in. intros l Hl.
      apply filter_In in Hl. destruct Hl as [_ Hl].
      unfold inPool in Hl. apply bool_decide_eq_true in Hl.
      unfold placeOf. rewrite Hl. reflexivity. }
    rewrite E in Hnd. exact (List.NoDup_map_inv _ _ Hnd).
  - intros q Hq. apply in_map_iff in Hq. destruct Hq as (l & <- & Hl).
    apply filter_In in Hl. destruct Hl as [Hl Hp].
    unfold inPool in Hp. apply bool_decide_eq_true in Hp.
    apply portsOfRange_In. apply (wf_range _ Hwf l range Hl).
    simpl. rewrite Hp. exact Hrange.
Qed.


(** X1 -- the registries the API produces are well formed.  In every world
    the API can get to from a start without a registry file, the registry
    file, when there is one, is such that: each pool has a non-empty name,
    non-zero bounds and its start below its end; each lease has a
    non-empty identifier, a pool of the registry, and a port in the
    inclusive range of that pool; and two leases with the same
    (identifier, pool, tag) are one lease. *)
Theorem api_keeps_registry_well_formed :
  forall (w : World) (registry : Registry),
    reachable w ->
    registryFile w = Some registry ->
    (forall name range,
        pools registry !! name = Some range ->
        name <> "" /\ rangeStart range <> 0 /\ rangeEnd range <> 0
        /\ rangeStart range < rangeEnd range)
    /\ (forall l,
           In l (leases registry) ->
           identifier l <> ""
           /\ exists range,
               pools registry !! pool l = Some range
               /\ rangeStart range <= port l <= rangeEnd range)
    /\ (forall l l',
           In l (leases registry) -> In l' (leases registry) ->
           tripleOf l = tripleOf l' -> l = l').
Proof.
  intros w registry Hreach Hf.
  pose proof (reachable_wellFormed w Hreach) as Hwf.
  rewrite (view_file _ _ Hf) in Hwf.
  destruct Hwf as [Hk Hb Hr Hu [Hnp Hnl]]. simpl in *.
  split; [|split].
  - intros name range Hrange. split; [exact (Hnp name range Hrange)|].
    exact (Hb name range Hrange).
  - intros l Hl. split; [exact (Hnl l Hl)|].
    destruct (Hk l Hl) as [range Hrange]. exists range.
    split; [exact Hrange|]. exact (Hr l range Hl Hrange).
  - intros l l' Hl Hl' E. unfold tripleOf in E. inversion E as [[Ei Ep Et]].
    symmetry.
    apply (oneLease_unique (identifier l) (pool l) (tag l) (leases registry));
      [apply Hu|exact Hl|exact Hl'| |]; apply sameTriple_true; auto.
Qed.

(** X2 -- a port is leased once in a pool.  In every world the API can get
    to, no two leases of the registry have the same pool and the same port:
    the list of the (pool, port) pairs of the leases has no duplicate, and
    two leases of one pool with one port are one lease. *)
Theorem api_leases_a_port_once_per_pool :
  forall (w : World) (registry : Registry),
    reachable w ->
    registryFile w = Some registry ->
    List.NoDup (List.map placeOf (leases registry))
    /\ (forall l l',
           In l (leases registry) -> In l' (leases registry) ->
           pool l = pool l' -> port l = port l' -> l = l').
Proof.
  intros w registry Hreach Hf.
  pose proof (reachable_places w Hreach) as Hnd.
  rewrite (view_file _ _ Hf) in Hnd. simpl in Hnd.
  split; [exact Hnd|].
  intros l l' Hl Hl' Hp Hq.
  apply (NoDup_map_eq placeOf (leases registry)); try assumption.
  unfold placeOf. congruence.
Qed.

End InvariantFacts.

(** ** Leases are never edited *)

Module ShapeFacts.
Import Reg.

Lemma filter_sublist {A : Type} (f : A -> bool) (xs : list A) :
  sublist (List.filter f xs) xs.
Proof.
  induction xs as [|x xs IH]; simpl; [constructor|].
  destruct (f x); [apply sublist_skip|apply sublist_cons]; exact IH.
Qed.

Lemma leasesChange_shape (ls ls' : list Lease) :
  leasesChange ls ls' ->
  sublist ls' ls \/ exists l, ls' = (ls ++ [l])%list.
Proof.
  intros [ls0|ls0 gone|ls0 l _|ls0].
  - left. reflexivity.
  - left. apply filter_sublist.
  - right. exists l. reflexivity.
  - left. apply sublist_nil_l.
Qed.

Section WithCollaborators.

Variable portChecker : Z -> bool.
Variable existsSync : string -> bool.
Variable gitRoot : string.

(** X3 -- no call edits or reorders the leases.  Whatever the call of the
    API and whether it resolves or rejects, the leases the registry file
    holds afterwards are either the leases it held before with some of
    them taken out (the others in the same order and with every field as
    it was), or the leases it held before followed by one new lease.  A
    missing registry file counts as the default registry, which has no
    lease. *)
Theorem calls_remove_leases_or_append_one :
  forall (c : API.Call) (w w' : World),
    API.run portChecker existsSync gitRoot c w = Some w' ->
    sublist (leases (loaded w')) (leases (loaded w))
    \/ exists l, leases (loaded w') = (leases (loaded w) ++ [l])%list.
Proof.
  intros c w w' Hrun. apply leasesChange_shape.
  exact (ChangeFacts.run_leasesChange portChecker existsSync gitRoot c w w' Hrun).
Qed.

End WithCollaborators.
End ShapeFacts.

(** ** Calls that reject *)

Module RejectFacts.
Import Reg RegFacts StoreFacts EngineFacts.

Lemma fileKept_refl (w : World) : fileKept w w.
Proof. left. reflexivity. Qed.

Lemma fileKept_read (w : World) :
  fileKept w (set_registryFile w (Some (loaded w))).
Proof.
  unfold fileKept, loaded. simpl.
  destruct (registryFile w) eqn:E; [left; reflexivity|].
  right. split; [reflexivity|]. eexists. reflexivity.
Qed.

Lemma fileKept_lock (w w1 w2 : World) (m : option Z) :
  registryFile w1 = registryFile w -> fileKept w1 w2 ->
  fileKept w (set_lockFile w2 m).
Proof. unfold fileKept. simpl. intros ->. tauto. Qed.

(** A function that throws having only read the registry makes [withLock]
    throw with the registry file kept. *)
Lemma withLock_throw_kept {A : Type} (fn : M A) (w w' : World) (e : Error) :
  (forall w1 w2 e', fn w1 = Some (Throw e', w2) ->
                    w2 = set_registryFile w1 (Some (loaded w1))) ->
  Lock.withLock fn 30000 w = Some (Throw e, w') ->
  fileKept w w'.
Proof.
  intros Hfn H. apply LockFacts.withLock_inv in H.
  destruct H as [(e' & Ha & _)|(w1 & w2 & Ha & Hf & ->)].
  - left. exact (LockFacts.acquireLock_registry _ _ _ _ Ha).
  - apply (fileKept_lock w w1).
    + exact (LockFacts.acquireLock_registry _ _ _ _ Ha).
    + rewrite (Hfn _ _ _ Hf). apply fileKept_read.
Qed.

Ltac thrown :=
  match goal with
  | |- Some (Throw _, _) = Some (Throw _, _) -> _ =>
      let H := fresh in intros H; inversion H; reflexivity
  | |- throw _ _ = Some (Throw _, _) -> _ =>
      let H := fresh in unfold throw; intros H; inversion H; reflexivity
  | |- _ = Some (Throw _, _) -> _ => discriminate
  end.

Section WithCollaborators.

Variable portChecker : Z -> bool.
Variable existsSync : string -> bool.
Variable gitRoot : string.

Lemma leaseLocked_throw (pl tg ident wt : string) (w1 w2 : World) (e : Error) :
  API.leaseLocked portChecker pl tg ident wt w1 = Some (Throw e, w2) ->
  w2 = set_registryFile w1 (Some (loaded w1)).
Proof.
  unfold API.leaseLocked. rewrite (bind_ok _ _ _ _ _ (getRegistry_spec w1)).
  unfold bind, lift, validatePool.
  destruct (pools (loaded w1) !! pl) as [range|]; [|thrown].
  destruct (getExistingLease _ _ _ _); [unfold ret; thrown|].
  destruct (API.findPort _ _ _ _) as [p|]; [|thrown].
  destruct (truthyZ p); [|thrown].
  unfold dateNow, Store.saveRegistry, ret; simpl. thrown.
Qed.

Lemma releaseLocked_throw (tg : option string) (ident : string) (w1 w2 : World)
  (e : Error) :
  API.releaseLocked tg ident w1 = Some (Throw e, w2) ->
  w2 = set_registryFile w1 (Some (loaded w1)).
Proof.
  unfold API.releaseLocked. rewrite (bind_ok _ _ _ _ _ (getRegistry_spec w1)).
  destruct tg as [t|]; simpl;
    match goal with |- context [Nat.eqb ?n 0] => destruct (Nat.eqb n 0) end;
    try thrown; unfold bind, Store.saveRegistry, ret; thrown.
Qed.

Lemma cleanupLocked_throw (isDryRun : bool) (w1 w2 : World) (e : Error) :
  API.cleanupLocked portChecker existsSync isDryRun w1 = Some (Throw e, w2) ->
  w2 = set_registryFile w1 (Some (loaded w1)).
Proof.
  unfold API.cleanupLocked. rewrite (bind_ok _ _ _ _ _ (getRegistry_spec w1)).
  unfold bind at 1. unfold dateNow.
  destruct (Nat.eqb _ 0); [unfold ret; thrown|].
  destruct isDryRun; [unfold ret; thrown|].
  rewrite (surjective_pairing (removeStaleLeases _ _)).
  unfold bind, Store.saveRegistry, ret. thrown.
Qed.

Lemma poolAddLocked_throw (poolName : string) (rs re : Z) (w1 w2 : World)
  (e : Error) :
  API.poolAddLocked poolName rs re w1 = Some (Throw e, w2) ->
  w2 = set_registryFile w1 (Some (loaded w1)).
Proof.
  unfold API.poolAddLocked. rewrite (bind_ok _ _ _ _ _ (getRegistry_spec w1)).
  unfold bind, lift, addPool.
  destruct (pools (loaded w1) !! poolName); [thrown|].
  unfold Store.saveRegistry, ret. thrown.
Qed.

Lemma poolUpdateLocked_throw (poolName : string) (rs re : Z) (w1 w2 : World)
  (e : Error) :
  API.poolUpdateLocked poolName rs re w1 = Some (Throw e, w2) ->
  w2 = set_registryFile w1 (Some (loaded w1)).
Proof.
  unfold API.poolUpdateLocked. rewrite (bind_ok _ _ _ _ _ (getRegistry_spec w1)).
  cbv zeta. destruct (Nat.ltb 0 _); [thrown|].
  unfold bind, lift, updatePool.
  destruct (pools (loaded w1) !! poolName); [|thrown].
  unfold Store.saveRegistry, ret. thrown.
Qed.

Lemma poolDeleteLocked_throw (poolName : string) (w1 w2 : World) (e : Error) :
  API.poolDeleteLocked poolName w1 = Some (Throw e, w2) ->
  w2 = set_registryFile w1 (Some (loaded w1)).
Proof.
  unfold API.poolDeleteLocked. rewrite (bind_ok _ _ _ _ _ (getRegistry_spec w1)).
  unfold bind at 1. unfold lift, deletePool.
  destruct (pools (loaded w1) !! poolName); [|thrown].
  destruct (Nat.ltb 0 _); [thrown|].
  unfold bind, Store.saveRegistry, ret. thrown.
Qed.

Lemma poolClearLocked_throw (poolName : string) (w1 w2 : World) (e : Error) :
  API.poolClearLocked poolName w1 = Some (Throw e, w2) ->
  w2 = set_registryFile w1 (Some (loaded w1)).
Proof.
  unfold API.poolClearLocked. rewrite (bind_ok _ _ _ _ _ (getRegistry_spec w1)).
  destruct (pools (loaded w1) !! poolName); [|thrown].
  rewrite (surjective_pairing (clearPoolLeases _ _)).
  destruct (Nat.eqb _ 0); [unfold ret; thrown|].
  unfold bind, Store.saveRegistry, ret. thrown.
Qed.

(** A guard that throws or hands over without touching the world. *)
Lemma guard_throw_kept {A B : Type} (g : M A) (k : A -> M B) (w w' : World)
  (e : Error) :
  (forall r wg, g w = Some (r, wg) -> wg = w) ->
  (forall a, k a w = Some (Throw e, w') -> fileKept w w') ->
  bind g k w = Some (Throw e, w') ->
  fileKept w w'.
Proof.
  intros Hg Hk. unfold bind.
  destruct (g w) as [[[a|e'] wg]|]; [| |discriminate].
  - rewrite (Hg _ _ eq_refl). apply Hk.
  - intros H. inversion H; subst. rewrite (Hg _ _ eq_refl). apply fileKept_refl.
Qed.

Lemma lease_throw_kept (pl tg ident wt : string) (w w' : World) (e : Error) :
  API.lease portChecker gitRoot pl tg ident wt w = Some (Throw e, w') ->
  fileKept w w'.
Proof.
  unfold API.lease. destruct (negb (truthyS pl)).
  - unfold throw. intros H. inversion H. apply fileKept_refl.
  - apply guard_throw_kept; [intros r wg; apply resolveIdentifier_world|].
    intros ident'. apply withLock_throw_kept. intros w1 w2 e'.
    apply leaseLocked_throw.
Qed.

Lemma release_throw_kept (tg : option string) (ident : string) (w w' : World)
  (e : Error) :
  API.release gitRoot tg ident w = Some (Throw e, w') -> fileKept w w'.
Proof.
  unfold API.release.
  apply guard_throw_kept; [intros r wg; apply resolveIdentifier_world|].
  intros ident'. apply withLock_throw_kept. intros w1 w2 e'.
  apply releaseLocked_throw.
Qed.

Lemma cleanup_throw_kept (isDryRun : bool) (w w' : World) (e : Error) :
  API.cleanup portChecker existsSync isDryRun w = Some (Throw e, w') ->
  fileKept w w'.
Proof.
  unfold API.cleanup. apply withLock_throw_kept. intros w1 w2 e'.
  apply cleanupLocked_throw.
Qed.

Lemma init_throw_kept (force : bool) (w w' : World) (e : Error) :
  API.init force w = Some (Throw e, w') -> w' = w.
Proof.
  unfold API.init. destruct (_ && _).
  - intros H. inversion H. reflexivity.
  - discriminate.
Qed.

Lemma poolAdd_throw_kept (poolName : string) (rs re : Z) (w w' : World) (e : Error) :
  API.poolAdd poolName rs re w = Some (Throw e, w') -> fileKept w w'.
Proof.
  unfold API.poolAdd.
  apply guard_throw_kept; [intros r wg; apply PoolFacts.checkPoolArguments_world|].
  intros _. apply withLock_throw_kept. intros w1 w2 e'.
  apply poolAddLocked_throw.
Qed.

Lemma poolUpdate_throw_kept (poolName : string) (rs re : Z) (w w' : World)
  (e : Error) :
  API.poolUpdate poolName rs re w = Some (Throw e, w') -> fileKept w w'.
Proof.
  unfold API.poolUpdate.
  apply guard_throw_kept; [intros r wg; apply PoolFacts.checkPoolArguments_world|].
  intros _. apply withLock_throw_kept. intros w1 w2 e'.
  apply poolUpdateLocked_throw.
Qed.

Lemma poolDelete_throw_kept (poolName : string) (w w' : World) (e : Error) :
  API.poolDelete poolName w = Some (Throw e, w') -> fileKept w w'.
Proof.
  unfold API.poolDelete. destruct (negb (truthyS poolName)).
  - unfold throw. intros H. inversion H. apply fileKept_refl.
  - apply withLock_throw_kept. intros w1 w2 e'. apply poolDeleteLocked_throw.
Qed.

Lemma poolClear_throw_kept (poolName : string) (w w' : World) (e : Error) :
  API.poolClear poolName w = Some (Throw e, w') -> fileKept w w'.
Proof.
  unfold API.poolClear. destruct (negb (truthyS poolName)).
  - unfold throw. intros H. inversion H. apply fileKept_refl.
  - apply withLock_throw_kept. intros w1 w2 e'. apply poolClearLocked_throw.
Qed.

(** X4 -- a call that rejects has written nothing.  When [lease],
    [release], [cleanup], [poolAdd], [poolUpdate], [poolDelete] or
    [poolClear] throws, for whatever reason (a bad argument, an unknown
    pool, an exhausted pool, nothing to release, leases in the way, the
    lock not acquired), the registry file is the one the call found; the
    one exception is a call that found no registry file, which may have
    left the default registry in its place.  When [init] throws, the world
    is as it was. *)
Theorem rejected_call_keeps_registry_file :
  forall (w w' : World) (e : Error),
    (forall pl tg ident wt,
        API.lease portChecker gitRoot pl tg ident wt w = Some (Throw e, w') ->
        fileKept w w')
    /\ (forall tg ident,
           API.release gitRoot tg ident w = Some (Throw e, w') -> fileKept w w')
    /\ (forall isDryRun,
           API.cleanup portChecker existsSync isDryRun w = Some (Throw e, w') ->
           fileKept w w')
    /\ (forall poolName rs re,
           API.poolAdd poolName rs re w = Some (Throw e, w') -> fileKept w w')
    /\ (forall poolName rs re,
           API.poolUpdate poolName rs re w = Some (Throw e, w') -> fileKept w w')
    /\ (forall poolName,
           API.poolDelete poolName w = Some (Throw e, w') -> fileKept w w')
    /\ (forall poolName,
           API.poolClear poolName w = Some (Throw e, w') -> fileKept w w')
    /\ (forall force, API.init force w = Some (Throw e, w') -> w' = w).
Proof.
  intros w w' e. repeat apply conj.
  - intros pl tg ident wt. apply lease_throw_kept.
  - intros tg ident. apply release_throw_kept.
  - intros isDryRun. apply cleanup_throw_kept.
  - intros poolName rs re. apply poolAdd_throw_kept.
  - intros poolName rs re. apply poolUpdate_throw_kept.
  - intros poolName. apply poolDelete_throw_kept.
  - intros poolName. apply poolClear_throw_kept.
  - intros force. apply init_throw_kept.
Qed.

End WithCollaborators.
End RejectFacts.

(** ** The lock in front of a marker *)

Module WaitFacts.
Import Lock.

(** What the loop of [acquireLock] comes back with, however long it has
    polled: the registry file is as it was and time has not gone back.
    When it resolves, the marker is its own, and a marker that was there
    before has been found older than 60 seconds.  When it throws, the error
    is the timeout, more than [timeoutMs] after [startTime], and the marker
    that was there is still there, and no older than 60 seconds. *)
Lemma acquire_loop_outcome (fuel : nat) (timeoutMs startTime : Z) :
  forall (w w' : World) (r : result unit),
    acquire_loop fuel timeoutMs startTime w = Some (r, w') ->
    registryFile w' = registryFile w
    /\ clock w <= clock w'
    /\ match r with
       | Ok _ =>
           lockFile w' = Some (clock w')
           /\ (forall m, lockFile w = Some m -> clock w' - m > STALE_LOCK_AGE_MS)
       | Throw e =>
           e = LockTimeout timeoutMs
           /\ clock w' - startTime > timeoutMs
           /\ lockFile w' = lockFile w
           /\ exists m, lockFile w = Some m /\ clock w' - m <= STALE_LOCK_AGE_MS
       end.
Proof.
  induction fuel as [|fuel IH]; intros w w' r H; simpl in H; [discriminate|].
  unfold openExclusive, statMtime, unlink in H.
  destruct (lockFile w) as [m|] eqn:E.
  - destruct (Z.gtb_spec (clock w - m) STALE_LOCK_AGE_MS) as [Hs|Hs].
    + apply IH in H. simpl in H. destruct H as (Hr & Hc & Hm).
      split; [exact Hr|]. split; [exact Hc|].
      destruct r as [u|e].
      * destruct Hm as [Hl _]. split; [exact Hl|].
        intros m' Hm'. inversion Hm'; subst m'. lia.
      * destruct Hm as (_ & _ & _ & m' & Hm' & _). discriminate.
    + destruct (Z.gtb_spec (clock w - startTime) timeoutMs) as [Ht|Ht].
      * inversion H; subst. split; [reflexivity|]. split; [lia|].
        split; [reflexivity|]. split; [lia|]. split; [exact E|].
        exists m. split; [reflexivity|lia].
      * apply IH in H. simpl in H. rewrite E in H.
        destruct H as (Hr & Hc & Hm).
        split; [exact Hr|]. split; [lia|].
        destruct r as [u|e]; exact Hm.
  - inversion H; subst; simpl. split; [reflexivity|]. split; [lia|].
    split; [reflexivity|]. intros m Hm. discriminate.
Qed.

(** A marker older than 60 seconds is removed and replaced at the first
    poll. *)
Lemma acquireLock_stale (timeoutMs : Z) (w : World) (m : Z) :
  lockFile w = Some m ->
  clock w - m > STALE_LOCK_AGE_MS ->
  acquireLock timeoutMs w = Some (Ok tt, set_lockFile w (Some (clock w))).
Proof.
  intros Hm Hs. unfold acquireLock, acquire_fuel.
  rewrite Nat.add_comm. simpl.
  unfold openExclusive, statMtime, unlink. rewrite Hm.
  destruct (Z.gtb_spec (clock w - m) STALE_LOCK_AGE_MS) as [_|Hf]; [|lia].
  reflexivity.
Qed.


End WaitFacts.

Module LockOutcomeFacts.
Import Lock WaitFacts.

(** X5 -- what [acquireLock] does in front of the marker it finds.  With
    no marker it creates one at once.  A marker older than 60 seconds is
    removed and replaced at once.  And whatever marker it finds, it comes
    back, with the registry file untouched.  When it resolves, the marker
    it leaves is its own, stamped during the call, and a marker that was
    there before is by then older than 60 seconds.  When it throws, the
    error is 'Failed to acquire lock after [timeoutMs]ms', more than
    [timeoutMs] have gone by since the call began, and the marker that was
    there, no older than 60 seconds when the call began, is untouched. *)
Theorem acquireLock_outcomes :
  forall (timeoutMs : Z) (w : World),
    (lockFile w = None ->
     acquireLock timeoutMs w = Some (Ok tt, set_lockFile w (Some (clock w))))
    /\ (forall m,
           lockFile w = Some m ->
           clock w - m > STALE_LOCK_AGE_MS ->
           acquireLock timeoutMs w = Some (Ok tt, set_lockFile w (Some (clock w))))
    /\ exists r w',
        acquireLock timeoutMs w = Some (r, w')
        /\ registryFile w' = registryFile w
        /\ clock w <= clock w'
        /\ match r with
           | Ok _ =>
               (exists t, lockFile w' = Some t /\ clock w <= t <= clock w')
               /\ (forall m, lockFile w = Some m ->
                             clock w' - m > STALE_LOCK_AGE_MS)
           | Throw e =>
               e = LockTimeout timeoutMs
               /\ clock w' - clock w > timeoutMs
               /\ lockFile w' = lockFile w
               /\ exists m, lockFile w = Some m
                            /\ clock w - m <= STALE_LOCK_AGE_MS
           end.
Proof.
  intros timeoutMs w.
  split; [apply LockFacts.acquireLock_free|].
  split; [apply acquireLock_stale|].
  destruct (LockFacts.acquireLock_returns timeoutMs w) as [[r w'] H].
  exists r, w'. split; [exact H|].
  apply acquire_loop_outcome in H. destruct H as (Hr & Hc & Hm).
  split; [exact Hr|]. split; [exact Hc|].
  destruct r as [u|e].
  - destruct Hm as [Hl Hm]. split; [|exact Hm].
    exists (clock w'). split; [exact Hl|lia].
  - destruct Hm as (He & Hout & Hl & m & Hm & Hage).
    split; [exact He|]. split; [exact Hout|]. split; [exact Hl|].
    exists m. split; [exact Hm|lia].
Qed.

Section WithCollaborators.

Variable portChecker : Z -> bool.
Variable existsSync : string -> bool.
Variable gitRoot : string.



















End WithCollaborators.
End LockOutcomeFacts.

(** ** poolList *)

Module PoolListFacts.
Import Reg RegFacts StoreFacts RegQueries.

Lemma getAllPools_In (registry : Registry) (entry : PoolEntry) :
  In entry (getAllPools registry)
  <-> pools registry !! pe_name entry
      = Some (mkPool (pe_rangeStart entry) (pe_rangeEnd entry)).
Proof.
  unfold getAllPools. rewrite in_map_iff. split.
  - intros ([name range] & <- & Hin). simpl.
    apply list_elem_of_In, elem_of_map_to_list in Hin.
    rewrite Hin. destruct range; reflexivity.
  - intros H. exists (pe_name entry, mkPool (pe_rangeStart entry) (pe_rangeEnd entry)).
    split; [destruct entry; reflexivity|].
    apply list_elem_of_In, elem_of_map_to_list. exact H.
Qed.

Lemma getAllPools_names (registry : Registry) :
  List.map pe_name (getAllPools registry) = (map_to_list (pools registry)).*1.
Proof.
  unfold getAllPools. rewrite map_map. reflexivity.
Qed.

Lemma getAllPools_NoDup (registry : Registry) :
  List.NoDup (List.map pe_name (getAllPools registry)).
Proof.
  rewrite getAllPools_names. apply NoDup_ListNoDup, NoDup_fst_map_to_list.
Qed.


(** X8 -- [poolList] without a name lists every pool once.  It resolves
    to the items of [getAllPools]: an item [{ name, rangeStart, rangeEnd }]
    is in the list exactly when the registry has a pool of that name with
    these bounds, no name comes twice, and there are as many items as
    pools.  Pools without leases are listed like the others, and a missing
    registry file is initialised first. *)
Theorem poolList_lists_every_pool_once :
  forall (w : World),
    exists entries,
      API.poolList "" w
      = Some (Ok (inr entries), set_registryFile w (Some (loaded w)))
      /\ (forall entry,
             In entry entries
             <-> pools (loaded w) !! pe_name entry
                 = Some (mkPool (pe_rangeStart entry) (pe_rangeEnd entry)))
      /\ List.NoDup (List.map pe_name entries)
      /\ length entries = size (pools (loaded w)).
Proof.
  intros w. exists (getAllPools (loaded w)).
  unfold API.poolList. rewrite (bind_ok _ _ _ _ _ (getRegistry_spec w)). simpl.
  split; [reflexivity|]. split; [|split].
  - intros entry. apply getAllPools_In.
  - apply getAllPools_NoDup.
  - unfold getAllPools. rewrite length_map. apply length_map_to_list.
Qed.

End PoolListFacts.

(** ** Calls with the lock free *)

Module FreeLockFacts.

Lemma unlock_locked (w : World) (m : option Z) :
  lockFile w = None -> set_lockFile (set_lockFile w m) None = w.
Proof.
  intros H. unfold set_lockFile; simpl. rewrite <- H. apply world_eta.
Qed.

Lemma unlock_saved (w : World) (m : option Z) (file : option Registry) :
  lockFile w = None ->
  set_lockFile (set_registryFile (set_lockFile w m) file) None
  = set_registryFile w file.
Proof.
  intros H. unfold set_lockFile, set_registryFile; simpl. rewrite H. reflexivity.
Qed.

(** [withLock] when no marker is there: the function runs at once, with
    the marker stamped with the time of the call. *)
Lemma withLock_free {A : Type} (fn : M A) (w : World) :
  lockFile w = None ->
  Lock.withLock fn 30000 w
  = match fn (set_lockFile w (Some (clock w))) with
    | Some (r, w2) => Some (r, set_lockFile w2 None)
    | None => None
    end.
Proof.
  intros H. unfold Lock.withLock.
  rewrite (bind_ok _ _ _ _ _ (LockFacts.acquireLock_free 30000 w H)).
  unfold try_finally.
  destruct (fn _) as [[r w2]|]; [|reflexivity].
  rewrite LockFacts.releaseLock_spec. destruct r; reflexivity.
Qed.

End FreeLockFacts.

(** ** lease looks at one pool *)

Module BlindFacts.
Import Reg RegFacts StoreFacts FreeLockFacts.

Lemma find_filter_imp {A : Type} (f g : A -> bool) (xs : list A) :
  (forall x, f x = true -> g x = true) ->
  List.find f (List.filter g xs) = List.find f xs.
Proof.
  intros Himp. induction xs as [|x xs IH]; simpl; [reflexivity|].
  destruct (g x) eqn:Eg; simpl.
  - destruct (f x); [reflexivity|exact IH].
  - destruct (f x) eqn:Ef; [|exact IH].
    apply Himp in Ef. congruence.
Qed.

Lemma getExistingLease_inPool (registry : Registry) (ident pl tg : string) :
  getExistingLease registry ident pl tg
  = List.find (sameTriple ident pl tg) (List.filter (inPool pl) (leases registry)).
Proof.
  unfold getExistingLease. symmetry. apply find_filter_imp.
  intros l H. apply sameTriple_true in H. unfold inPool.
  apply bool_decide_eq_true. tauto.
Qed.

Section WithCollaborators.

Variable portChecker : Z -> bool.
Variable gitRoot : string.

Lemma leaseLocked_one_pool (pl tg ident wt : string) (w1 w2 : World)
  (registry1 registry2 : Registry) :
  registryFile w1 = Some registry1 ->
  registryFile w2 = Some registry2 ->
  clock w1 = clock w2 ->
  pools registry1 !! pl = pools registry2 !! pl ->
  List.filter (inPool pl) (leases registry1)
  = List.filter (inPool pl) (leases registry2) ->
  fst <$> API.leaseLocked portChecker pl tg ident wt w1
  = fst <$> API.leaseLocked portChecker pl tg ident wt w2.
Proof.
  intros Hf1 Hf2 Hc Hp Hl. unfold API.leaseLocked.
  rewrite (bind_ok _ _ _ _ _ (getRegistry_file w1 registry1 Hf1)).
  rewrite (bind_ok _ _ _ _ _ (getRegistry_file w2 registry2 Hf2)).
  unfold bind, lift, validatePool. rewrite !getExistingLease_inPool.
  unfold getLeasedPorts. rewrite Hp, Hl.
  destruct (pools registry2 !! pl) as [range|]; [|reflexivity].
  destruct (List.find _ _); [reflexivity|].
  destruct (API.findPort _ _ _ _) as [p|]; [|reflexivity].
  destruct (truthyZ p); [|reflexivity].
  unfold dateNow, Store.saveRegistry, ret; simpl. rewrite Hc. reflexivity.
Qed.

(** X9 -- [lease] looks at the leases of the pool it is asked for, and at
    no other.  Two registry files that have the same range for a pool and
    the same leases in that pool, read at the same time with the lock
    free, give a call of [lease] on that pool the same outcome: the same
    port and lease record, or the same error.  What the other pools hold
    -- leases on the very same port numbers included, when ranges overlap
    -- has no part in the choice of the port. *)
Theorem lease_ignores_other_pools :
  forall (pl tg ident wt : string) (w1 w2 : World) (registry1 registry2 : Registry),
    lockFile w1 = None -> lockFile w2 = None ->
    clock w1 = clock w2 ->
    registryFile w1 = Some registry1 ->
    registryFile w2 = Some registry2 ->
    pools registry1 !! pl = pools registry2 !! pl ->
    List.filter (inPool pl) (leases registry1)
    = List.filter (inPool pl) (leases registry2) ->
    fst <$> API.lease portChecker gitRoot pl tg ident wt w1
    = fst <$> API.lease portChecker gitRoot pl tg ident wt w2.
Proof.
  intros pl tg ident wt w1 w2 registry1 registry2 Hl1 Hl2 Hc Hf1 Hf2 Hp Hl.
  unfold API.lease. destruct (negb (truthyS pl)); [reflexivity|].
  unfold API.resolveIdentifier, bind.
  assert (Hbody : forall ident',
             fst <$> Lock.withLock (API.leaseLocked portChecker pl tg ident'
                                      (if truthyS wt then wt else API.getGitRoot gitRoot))
                       30000 w1
             = fst <$> Lock.withLock (API.leaseLocked portChecker pl tg ident'
                                        (if truthyS wt then wt else API.getGitRoot gitRoot))
                         30000 w2).
  { intros ident'. rewrite !withLock_free by assumption.
    pose proof (leaseLocked_one_pool pl tg ident'
                  (if truthyS wt then wt else API.getGitRoot gitRoot)
                  (set_lockFile w1 (Some (clock w1)))
                  (set_lockFile w2 (Some (clock w2))) registry1 registry2
                  Hf1 Hf2 Hc Hp Hl) as E.
    destruct (API.leaseLocked _ _ _ _ _ (set_lockFile w1 _)) as [[r1 w1']|],
             (API.leaseLocked _ _ _ _ _ (set_lockFile w2 _)) as [[r2 w2']|];
      simpl in *; congruence. }
  destruct (truthyS ident); [unfold ret; apply Hbody|].
  destruct (truthyS (API.getAutoIdentifier gitRoot));
    [unfold ret; apply Hbody|reflexivity].
Qed.

End WithCollaborators.
End BlindFacts.

(** ** lease and release *)

Module RoundTripFacts.
Import Reg RegFacts StoreFacts FreeLockFacts.

Lemma filter_all {A : Type} (f : A -> bool) (xs : list A) :
  (forall x, In x xs -> f x = true) -> List.filter f xs = xs.
Proof.
  induction xs as [|x xs IH]; simpl; intros H; [reflexivity|].
  rewrite (H x (or_introl eq_refl)). f_equal. apply IH.
  intros y Hy. apply H. right. exact Hy.
Qed.

Lemma filter_none {A : Type} (f : A -> bool) (xs : list A) :
  (forall x, In x xs -> f x = false) -> List.filter f xs = [].
Proof. apply PoolFacts.filter_nil_iff. Qed.

Section WithCollaborators.

Variable portChecker : Z -> bool.
Variable gitRoot : string.

(** A lease that resolves where the triple had none has allocated. *)
Lemma leaseLocked_new_inv (pl tg ident wt : string) (w w' : World)
  (registry : Registry) (r : LeaseResult) :
  registryFile w = Some registry ->
  getExistingLease registry ident pl tg = None ->
  API.leaseLocked portChecker pl tg ident wt w = Some (Ok r, w') ->
  exists p range,
    pools registry !! pl = Some range
    /\ API.findPort portChecker (getLeasedPorts registry pl)
         (rangeStart range) (rangeEnd range) = Some p
    /\ p <> 0
    /\ r = mkLeaseResult p (newLease p pl ident wt tg (clock w))
    /\ w' = set_registryFile w
              (Some (withNewLease registry (newLease p pl ident wt tg (clock w))
                       (clock w))).
Proof.
  intros Hf He. unfold API.leaseLocked.
  rewrite (bind_ok _ _ _ _ _ (getRegistry_file w registry Hf)).
  unfold bind, lift, validatePool.
  destruct (pools registry !! pl) as [range|] eqn:Hr; [|discriminate].
  rewrite He.
  destruct (API.findPort _ _ _ _) as [p|] eqn:Hp; [|discriminate].
  destruct (truthyZ p) eqn:Hz; [|discriminate].
  unfold dateNow, Store.saveRegistry, ret; simpl.
  intros H. inversion H; subst; clear H.
  exists p, range. apply truthyZ_true in Hz. repeat split; assumption.
Qed.

Lemma lease_new_free (pl tg ident wt : string) (w w' : World)
  (registry : Registry) (r : LeaseResult) :
  lockFile w = None ->
  registryFile w = Some registry ->
  ident <> "" ->
  getExistingLease registry ident pl tg = None ->
  API.lease portChecker gitRoot pl tg ident wt w = Some (Ok r, w') ->
  exists l,
    r = mkLeaseResult (port l) l
    /\ identifier l = ident /\ pool l = pl /\ tag l = tg
    /\ w' = set_registryFile w (Some (withNewLease registry l (clock w))).
Proof.
  intros Hl Hf Hi He H.
  destruct (LeaseFacts.lease_ok_inv portChecker gitRoot pl tg ident wt w w' r Hi H)
    as (Hp & w1 & w2 & Ha & Hb & ->).
  unfold acquires in Ha. rewrite (LockFacts.acquireLock_free 30000 w Hl) in Ha.
  inversion Ha; subst w1; clear Ha.
  apply (leaseLocked_new_inv _ _ _ _ _ _ registry) in Hb; [|exact Hf|exact He].
  destruct Hb as (p & range & _ & _ & _ & -> & ->).
  exists (newLease p pl ident (effectivePath gitRoot wt) tg (clock w)).
  simpl. repeat split. apply unlock_saved. exact Hl.
Qed.

Lemma release_free (tg : option string) (ident : string) (w : World)
  (registry : Registry) :
  lockFile w = None ->
  registryFile w = Some registry ->
  ident <> "" ->
  API.release gitRoot tg ident w
  = let n := length (List.filter (released tg ident) (leases registry)) in
    let kept := List.filter (fun l => negb (released tg ident l)) (leases registry) in
    if Nat.eqb n 0 then Some (Throw (nothingToRelease tg), w)
    else Some (Ok (mkReleaseResult n kept),
               set_registryFile w
                 (Some (set_lastModified (set_leases registry kept) (clock w)))).
Proof.
  intros Hl Hf Hi. unfold API.release, API.resolveIdentifier.
  apply truthyS_true in Hi. rewrite Hi. unfold bind at 1. unfold ret.
  rewrite withLock_free by exact Hl.
  rewrite (ReleaseFacts.releaseLocked_spec tg ident _ registry) by exact Hf.
  cbv zeta. destruct (Nat.eqb _ 0).
  - rewrite unlock_locked by exact Hl. reflexivity.
  - rewrite unlock_saved by exact Hl. reflexivity.
Qed.

(** X10 -- releasing by tag undoes a fresh lease.  With the lock free and
    an identifier given: when no lease of the identifier has the tag, in
    any pool, a [lease] that resolves followed by [release] with the same
    tag and identifier removes exactly the one lease just made, and leaves
    the registry file with the pools and the leases it had before the two
    calls, in the same order. *)
Theorem release_undoes_fresh_lease :
  forall (pl tg ident wt : string) (w w' : World) (registry : Registry)
         (r : LeaseResult),
    lockFile w = None ->
    registryFile w = Some registry ->
    ident <> "" ->
    (forall l, In l (leases registry) -> identifier l = ident -> tag l <> tg) ->
    API.lease portChecker gitRoot pl tg ident wt w = Some (Ok r, w') ->
    API.release gitRoot (Some tg) ident w'
    = Some (Ok (mkReleaseResult 1 (leases registry)),
            set_registryFile w (Some (set_lastModified registry (clock w)))).
Proof.
  intros pl tg ident wt w w' registry r Hl Hf Hi Hnone H.
  assert (He : getExistingLease registry ident pl tg = None).
  { apply getExistingLease_None. intros l Hin (Ei & _ & Et).
    exact (Hnone l Hin Ei Et). }
  destruct (lease_new_free pl tg ident wt w w' registry r Hl Hf Hi He H)
    as (l & _ & Eli & _ & Elt & ->).
  rewrite (release_free (Some tg) ident _ (withNewLease registry l (clock w)));
    [|exact Hl|reflexivity|exact Hi].
  simpl leases. cbv zeta. rewrite !List.filter_app.
  assert (Hold : forall x, In x (leases registry) ->
                           released (Some tg) ident x = false).
  { intros x Hx. destruct (released (Some tg) ident x) eqn:E; [|reflexivity].
    apply ReleaseFacts.released_true in E. destruct E as [Ei Et].
    exfalso. exact (Hnone x Hx Ei (Et tg eq_refl)). }
  assert (Hnew : released (Some tg) ident l = true).
  { apply ReleaseFacts.released_true. split; [exact Eli|].
    intros t E. inversion E; subst. reflexivity. }
  rewrite (filter_none _ _ Hold).
  rewrite (filter_all (fun x => negb (released (Some tg) ident x)) (leases registry))
    by (intros x Hx; rewrite (Hold x Hx); reflexivity).
  simpl List.filter. simpl in Hnew. rewrite Hnew. simpl. rewrite app_nil_r.
  reflexivity.
Qed.

End WithCollaborators.
End RoundTripFacts.

(** ** Pools: clear, add, delete *)

Module PoolCycleFacts.
Import Reg RegFacts StoreFacts EngineFacts FreeLockFacts.

Lemma poolClearLocked_spec (poolName : string) (w : World) (registry : Registry) :
  registryFile w = Some registry ->
  API.poolClearLocked poolName w
  = match pools registry !! poolName with
    | None => Some (Throw (PoolDoesNotExist poolName), w)
    | Some _ =>
        let n := length (List.filter (inPool poolName) (leases registry)) in
        let kept :=
          List.filter (fun l => negb (inPool poolName l)) (leases registry) in
        if Nat.eqb n 0 then Some (Ok 0%nat, w)
        else Some (Ok n,
                   set_registryFile w
                     (Some (set_lastModified (set_leases registry kept) (clock w))))
    end.
Proof.
  intros Hf. unfold API.poolClearLocked.
  rewrite (bind_ok _ _ _ _ _ (getRegistry_file w registry Hf)).
  destruct (pools registry !! poolName); [|reflexivity].
  unfold clearPoolLeases.
  rewrite (surjective_pairing (removeWhere (inPool poolName) registry)).
  rewrite removeWhere_count, removeWhere_registry. cbv zeta.
  destruct (Nat.eqb _ 0); reflexivity.
Qed.

Lemma poolClear_free (poolName : string) (w : World) (registry : Registry) :
  lockFile w = None ->
  registryFile w = Some registry ->
  poolName <> "" ->
  API.poolClear poolName w
  = match pools registry !! poolName with
    | None => Some (Throw (PoolDoesNotExist poolName), w)
    | Some _ =>
        let n := length (List.filter (inPool poolName) (leases registry)) in
        let kept :=
          List.filter (fun l => negb (inPool poolName l)) (leases registry) in
        if Nat.eqb n 0 then Some (Ok 0%nat, w)
        else Some (Ok n,
                   set_registryFile w
                     (Some (set_lastModified (set_leases registry kept) (clock w))))
    end.
Proof.
  intros Hl Hf Hn. unfold API.poolClear. apply truthyS_true in Hn. rewrite Hn.
  cbn [negb]. rewrite withLock_free by exact Hl.
  rewrite (poolClearLocked_spec poolName _ registry) by exact Hf.
  destruct (pools registry !! poolName); cbv zeta.
  - destruct (Nat.eqb _ 0).
    + rewrite unlock_locked by exact Hl. reflexivity.
    + rewrite unlock_saved by exact Hl. reflexivity.
  - rewrite unlock_locked by exact Hl. reflexivity.
Qed.

Lemma poolDelete_free (poolName : string) (w : World) (registry : Registry) :
  lockFile w = None ->
  registryFile w = Some registry ->
  poolName <> "" ->
  API.poolDelete poolName w
  = match pools registry !! poolName with
    | None => Some (Throw (PoolDoesNotExist poolName), w)
    | Some _ =>
        let n := length (List.filter (inPool poolName) (leases registry)) in
        if Nat.ltb 0 n then Some (Throw (PoolHasLeases poolName n), w)
        else Some (Ok poolName,
                   set_registryFile w (Some (withoutPool registry poolName (clock w))))
    end.
Proof.
  intros Hl Hf Hn. unfold API.poolDelete. apply truthyS_true in Hn. rewrite Hn.
  cbn [negb]. rewrite withLock_free by exact Hl.
  rewrite (PoolFacts.poolDeleteLocked_spec poolName _ registry) by exact Hf.
  destruct (pools registry !! poolName); cbv zeta.
  - destruct (Nat.ltb 0 _).
    + rewrite unlock_locked by exact Hl. reflexivity.
    + rewrite unlock_saved by exact Hl. reflexivity.
  - rewrite unlock_locked by exact Hl. reflexivity.
Qed.

Lemma poolAdd_free (poolName : string) (rs re : Z) (w : World) (registry : Registry) :
  lockFile w = None ->
  registryFile w = Some registry ->
  poolName <> "" -> rs <> 0 -> re <> 0 -> rs < re ->
  API.poolAdd poolName rs re w
  = match pools registry !! poolName with
    | Some _ => Some (Throw (PoolAlreadyExists poolName), w)
    | None =>
        Some (Ok (mkPoolResult poolName rs re),
              set_registryFile w (Some (withPool registry poolName rs re (clock w))))
    end.
Proof.
  intros Hl Hf Hn Hs He Hlt.
  rewrite PoolFacts.poolAdd_unfold by assumption.
  rewrite withLock_free by exact Hl.
  rewrite (PoolFacts.poolAddLocked_spec poolName rs re _ registry) by exact Hf.
  destruct (pools registry !! poolName).
  - rewrite unlock_locked by exact Hl. reflexivity.
  - rewrite unlock_saved by exact Hl. reflexivity.
Qed.

Lemma filter_filter_none {A : Type} (f : A -> bool) (xs : list A) :
  List.filter f (List.filter (fun x => negb (f x)) xs) = [].
Proof.
  apply PoolFacts.filter_nil_iff. intros x Hx. apply filter_In in Hx.
  destruct Hx as [_ Hx]. destruct (f x); [discriminate|reflexivity].
Qed.

(** X11 -- [poolClear] empties one pool, after which the pool can be
    deleted.  With the lock free and a non-empty name: for a name that the
    registry has no pool of, and that no object inherits, [poolClear]
    throws and writes nothing; for a
    pool of the registry it resolves to the number of leases of that pool,
    the file keeps its pools and exactly the leases of the other pools, in
    their order (nothing is written when the pool had no lease), and a
    [poolDelete] of the same name right after it resolves, leaving the
    registry without the pool and with those same leases. *)
Theorem poolClear_empties_pool_for_delete :
  forall (poolName : string) (w : World) (registry : Registry),
    lockFile w = None ->
    registryFile w = Some registry ->
    poolName <> "" ->
    (pools registry !! poolName = None ->
     ~ inheritedName poolName ->
     API.poolClear poolName w = Some (Throw (PoolDoesNotExist poolName), w))
    /\ (is_Some (pools registry !! poolName) ->
        exists w' registry',
          API.poolClear poolName w
          = Some (Ok (length (List.filter (inPool poolName) (leases registry))), w')
          /\ registryFile w' = Some registry'
          /\ pools registry' = pools registry
          /\ leases registry'
             = List.filter (fun l => negb (inPool poolName l)) (leases registry)
          /\ (List.filter (inPool poolName) (leases registry) = [] -> w' = w)
          /\ API.poolDelete poolName w'
             = Some (Ok poolName,
                     set_registryFile w
                       (Some (withoutPool registry' poolName (clock w))))).
Proof.
  intros poolName w registry Hl Hf Hn.
  rewrite (poolClear_free poolName w registry Hl Hf Hn). split.
  - intros -> _. reflexivity.
  - intros [range Hr]. rewrite Hr. cbv zeta.
    destruct (Nat.eqb _ 0) eqn:En.
    + apply Nat.eqb_eq in En. exists w, registry.
      rewrite En, (filter_none_length _ _ En).
      repeat split; try assumption.
      rewrite (poolDelete_free poolName w registry Hl Hf Hn), Hr, En.
      simpl. reflexivity.
    + apply Nat.eqb_neq in En.
      eexists. eexists. split; [reflexivity|]. split; [reflexivity|].
      simpl. repeat split.
      * intros E. rewrite E in En. simpl in En. congruence.
      * erewrite poolDelete_free; [|exact Hl|reflexivity|exact Hn].
        simpl. rewrite Hr, filter_filter_none. simpl. reflexivity.
Qed.

(** X12 -- [poolAdd] takes any unused name, and [poolDelete] undoes it.
    With the lock free, on a registry file the API has produced, and with
    arguments that pass the checks of [poolAdd]: the name of a pool of the
    registry makes it throw and write nothing; a name that the registry
    has no pool of, and that no object inherits, is added with the given
    bounds, whatever the ranges of the pools already there (ranges may
    overlap), the other pools and the leases untouched; and a [poolDelete]
    of that name right after it resolves and gives back the pools and the
    leases the registry had before. *)
Theorem poolAdd_then_poolDelete_restores :
  forall (poolName : string) (rs re : Z) (w : World) (registry : Registry),
    reachable w ->
    lockFile w = None ->
    registryFile w = Some registry ->
    poolName <> "" -> rs <> 0 -> re <> 0 -> rs < re ->
    (is_Some (pools registry !! poolName) ->
     API.poolAdd poolName rs re w = Some (Throw (PoolAlreadyExists poolName), w))
    /\ (pools registry !! poolName = None ->
        ~ inheritedName poolName ->
        exists w' registry',
          API.poolAdd poolName rs re w = Some (Ok (mkPoolResult poolName rs re), w')
          /\ registryFile w' = Some registry'
          /\ pools registry' !! poolName = Some (mkPool rs re)
          /\ (forall other, other <> poolName ->
                            pools registry' !! other = pools registry !! other)
          /\ leases registry' = leases registry
          /\ API.poolDelete poolName w'
             = Some (Ok poolName,
                     set_registryFile w
                       (Some (set_lastModified registry (clock w))))).
Proof.
  intros poolName rs re w registry Hreach Hl Hf Hn Hs He Hlt.
  rewrite (poolAdd_free poolName rs re w registry Hl Hf Hn Hs He Hlt). split.
  - intros [range ->]. reflexivity.
  - intros Hr _. rewrite Hr. eexists. eexists.
    split; [reflexivity|]. split; [reflexivity|]. simpl.
    split; [apply lookup_insert_eq|].
    split; [intros other Ho; apply lookup_insert_ne; congruence|].
    split; [reflexivity|].
    erewrite poolDelete_free; [|exact Hl|reflexivity|exact Hn].
    simpl. rewrite lookup_insert_eq.
    assert (Hnone : List.filter (inPool poolName) (leases registry) = []).
    { apply PoolFacts.filter_nil_iff. intros l Hin.
      pose proof (reachable_wellFormed w Hreach) as Hwf.
      rewrite (view_file _ _ Hf) in Hwf.
      destruct (wf_known _ Hwf l Hin) as [range Hrange]. simpl in Hrange.
      unfold inPool. apply bool_decide_eq_false. intros E.
      rewrite E in Hrange. congruence. }
    rewrite Hnone. simpl.
    unfold withoutPool, withPool, set_pools, set_lastModified; simpl.
    rewrite delete_insert_id by exact Hr.
    destruct registry; reflexivity.
Qed.

End PoolCycleFacts.

(** ** init and the calls that read *)

Module ReadFacts.
Import Reg RegFacts StoreFacts RegQueries.

Lemma truthyS_false (s : string) : truthyS s = false <-> s = "".
Proof.
  rewrite <- not_true_iff_false, truthyS_true.
  destruct (decide (s = "")); tauto.
Qed.

Lemma find_port_Some (p : Z) (ls : list Lease) (l : Lease) :
  List.find (fun l => Z.eqb (port l) p) ls = Some l -> In l ls /\ port l = p.
Proof.
  intros H. apply find_some in H. destruct H as [Hin H].
  apply Z.eqb_eq in H. tauto.
Qed.

Lemma find_port_None (p : Z) (ls : list Lease) :
  List.find (fun l => Z.eqb (port l) p) ls = None <->
  forall l, In l ls -> port l <> p.
Proof.
  split.
  - intros H l Hl E. apply (find_none _ _ H) in Hl. apply Z.eqb_neq in Hl. tauto.
  - intros H. destruct (List.find _ _) as [l|] eqn:E; [|reflexivity].
    apply find_port_Some in E. destruct E as [Hin E]. destruct (H l Hin E).
Qed.

(** The identifier [list] filters with. *)
Lemma getLeases_In (registry : Registry) (pl ident : string) (global : bool)
  (l : Lease) :
  In l (getLeases registry pl ident global) <->
  In l (leases registry)
  /\ (global = true \/ ident = "" \/ identifier l = ident)
  /\ (pl = "" \/ pool l = pl).
Proof.
  unfold getLeases.
  destruct global; simpl;
    destruct (truthyS ident) eqn:Ei, (truthyS pl) eqn:Ep;
    rewrite ?filter_In; unfold inPool, ofIdentifier;
    rewrite ?bool_decide_eq_true;
    try apply truthyS_true in Ei; try apply truthyS_true in Ep;
    try apply truthyS_false in Ei; try apply truthyS_false in Ep;
    intuition congruence.
Qed.

Lemma getLeases_sublist (registry : Registry) (pl ident : string) (global : bool) :
  sublist (getLeases registry pl ident global) (leases registry).
Proof.
  unfold getLeases.
  destruct (negb global && truthyS ident), (truthyS pl);
    repeat (etrans; [apply ShapeFacts.filter_sublist|]); reflexivity.
Qed.

(** A map filled by assignments in the order of a list holds, under a key,
    the value of the last item of the list with that key. *)
Lemma fold_insert_lookup {A : Type} (key : A -> string) (val : A -> Z)
  (xs : list A) (k : string) :
  List.fold_left (fun m x => <[key x := val x]> m) xs (∅ : gmap string Z) !! k
  = val <$> List.find (fun x => bool_decide (key x = k)) (List.rev xs).
Proof.
  induction xs as [|x xs IH] using rev_ind; [reflexivity|].
  rewrite fold_left_app, rev_app_distr. simpl.
  destruct (bool_decide (key x = k)) eqn:E.
  - apply bool_decide_eq_true in E. subst k. apply lookup_insert_eq.
  - apply bool_decide_eq_false in E. rewrite lookup_insert_ne by exact E.
    exact IH.
Qed.

(** X13 -- [init] and the lock.  [init] refuses, touching nothing, when
    the registry file exists and [force] is not set.  Otherwise it writes
    the default registry -- the pools [frontend] 3300-3499, [backend]
    5300-5499 and [storybook] 6300-6499, stamped with the time of the
    call -- whatever the file held: every lease and every other pool is
    gone, and [list] finds nothing afterwards.  It neither takes nor looks
    at the lock: the marker of another process is left where it is. *)
Theorem init_resets_without_lock :
  forall (gitRoot : string) (force : bool) (w : World),
    (is_Some (registryFile w) -> force = false ->
     API.init force w = Some (Throw RegistryAlreadyExists, w))
    /\ (registryFile w = None \/ force = true ->
        exists w',
          API.init force w
          = Some (Ok (set_lastModified getDefaultRegistry (clock w)), w')
          /\ registryFile w'
             = Some (set_lastModified
                       {| version := "1.0";
                          pools := <["frontend" := mkPool 3300 3499]>
                                     (<["backend" := mkPool 5300 5499]>
                                        (<["storybook" := mkPool 6300 6499]> ∅));
                          leases := [];
                          lastModified := None |} (clock w))
          /\ lockFile w' = lockFile w
          /\ clock w' = clock w
          /\ forall filterPool showGlobal ident,
               API.listLeases gitRoot filterPool showGlobal ident w'
               = Some (Ok [], w')).
Proof.
  intros gitRoot force w. unfold API.init. split.
  - intros Hsome ->. rewrite bool_decide_eq_true_2 by exact Hsome. reflexivity.
  - intros H.
    assert (E : bool_decide (is_Some (registryFile w)) && negb force = false).
    { destruct H as [H| ->]; [|apply andb_false_r].
      rewrite bool_decide_eq_false_2; [reflexivity|].
      rewrite H. intros [? ?]. discriminate. }
    rewrite E. clear E. eexists. split; [reflexivity|]. simpl.
    repeat split.
    intros filterPool showGlobal ident. unfold API.listLeases.
    erewrite bind_ok; [|apply getRegistry_file; reflexivity].
    unfold ret, getLeases. simpl.
    destruct (negb showGlobal && truthyS _), (truthyS filterPool); reflexivity.
Qed.

(** X14 -- what [check] reports.  A port of 0 is taken for a missing
    argument: [check] rejects with 'Port is required for check action'.
    For any other port, with a registry file there: the port is reported
    leased exactly when some lease of the registry, of whatever pool, has
    that port, and then [details] names the identifier and pool of the
    first such lease and [inUse] is false whatever the probe says; a port
    no lease has is reported in use or available as the probe says.
    Exactly one of [leased], [inUse] and [available] is true, and the
    registry file and the lock are not touched. *)
Theorem check_reports_one_state :
  forall (portChecker : Z -> bool) (p : Z) (w : World) (registry : Registry),
    registryFile w = Some registry ->
    (p = 0 -> API.check portChecker p w = Some (Ok CheckPortRequired, w))
    /\ (p <> 0 ->
        exists r,
          API.check portChecker p w = Some (Ok (Checked r), w)
          /\ (ck_leased r = true <-> exists l, In l (leases registry) /\ port l = p)
          /\ (forall l,
                 List.find (fun l => Z.eqb (port l) p) (leases registry) = Some l ->
                 r = mkCheckResult false true false (Some (identifier l, pool l)))
          /\ (ck_leased r = false ->
              ck_inUse r = portChecker p
              /\ ck_available r = negb (portChecker p)
              /\ ck_details r = None)
          /\ (ck_leased r = true /\ ck_inUse r = false /\ ck_available r = false
              \/ ck_leased r = false /\ ck_inUse r = true /\ ck_available r = false
              \/ ck_leased r = false /\ ck_inUse r = false /\ ck_available r = true)).
Proof.
  intros portChecker p w registry Hf. unfold API.check. split.
  - intros ->. reflexivity.
  - intros Hp. apply truthyZ_true in Hp. rewrite Hp. cbn [negb].
    rewrite (bind_ok _ _ _ _ _ (getRegistry_file w registry Hf)).
    destruct (List.find _ _) as [l|] eqn:E.
    + eexists. split; [reflexivity|]. simpl.
      apply find_port_Some in E.
      split; [split; [intros _; exists l; exact E|reflexivity]|].
      split; [intros l' El; inversion El; reflexivity|].
      split; [discriminate|]. left. repeat split.
    + pose proof (proj1 (find_port_None p (leases registry)) E) as Hnone.
      destruct (portChecker p) eqn:Eprobe;
        (eexists; split; [reflexivity|]; simpl;
         split; [split; [discriminate|intros (l & Hl & El); destruct (Hnone l Hl El)]|];
         split; [discriminate|];
         split; [intros _; repeat split|]); tauto.
Qed.

(** X15 -- which leases [list] returns.  With a registry file there, [list]
    returns, in registry order, the leases that pass two filters.  The
    pool filter keeps the leases of [filterPool], and every lease when it
    is empty.  The identifier filter keeps the leases of the identifier
    given, or of the one detected from the git root when none is given;
    it keeps every lease when [showGlobal] is set, and also when no
    identifier is given and none is detected -- outside a git repository
    the leases of all projects are listed.  A pool the registry does not
    have gives the empty list, not an error. *)
Theorem list_filters_by_identifier_and_pool :
  forall (gitRoot filterPool : string) (showGlobal : bool) (ident : string)
         (w : World) (registry : Registry),
    registryFile w = Some registry ->
    exists found,
      API.listLeases gitRoot filterPool showGlobal ident w = Some (Ok found, w)
      /\ sublist found (leases registry)
      /\ forall l,
           In l found <->
           In l (leases registry)
           /\ (filterPool = "" \/ pool l = filterPool)
           /\ (showGlobal = true
               \/ (ident <> "" /\ identifier l = ident)
               \/ (ident = "" /\ API.getAutoIdentifier gitRoot = "")
               \/ (ident = "" /\ identifier l = API.getAutoIdentifier gitRoot)).
Proof.
  intros gitRoot filterPool showGlobal ident w registry Hf. unfold API.listLeases.
  rewrite (bind_ok _ _ _ _ _ (getRegistry_file w registry Hf)).
  eexists. split; [reflexivity|]. split; [apply getLeases_sublist|].
  intros l. rewrite getLeases_In.
  destruct showGlobal; simpl; [tauto|].
  destruct (truthyS ident) eqn:Ei; simpl.
  - apply truthyS_true in Ei. intuition congruence.
  - apply truthyS_false in Ei. subst ident. intuition congruence.
Qed.

(** X16 -- the variables of [env].  Without an identifier, given or
    detected, [env] throws; so it does when the identifier has no lease.
    Otherwise it resolves to a map that holds, under each name, the port
    of the last lease of the identifier, in registry order, that the name
    is made for -- [POOL_TAG_PORT] in upper case, or [POOL_PORT] for the
    empty tag -- and nothing under the names made for none: when two
    leases of the project get the same name, the later one wins and the
    earlier port is not exported. *)
Theorem env_exports_last_lease_per_name :
  forall (gitRoot : string) (toUpperCase : string -> string) (ident : string)
         (w : World) (registry : Registry),
    registryFile w = Some registry ->
    let who := if truthyS ident then ident else API.getAutoIdentifier gitRoot in
    let mine := List.filter (ofIdentifier who) (leases registry) in
    (who = "" ->
     API.env gitRoot toUpperCase ident w = Some (Throw NotInGitRepository, w))
    /\ (who <> "" -> mine = [] ->
        API.env gitRoot toUpperCase ident w = Some (Throw NoLeasesForProject, w))
    /\ (who <> "" -> mine <> [] ->
        exists envVars,
          API.env gitRoot toUpperCase ident w = Some (Ok envVars, w)
          /\ forall name,
               envVars !! name
               = port <$> List.find
                            (fun l => bool_decide (API.envVarName toUpperCase l = name))
                            (List.rev mine)).
Proof.
  intros gitRoot toUpperCase ident w registry Hf who mine.
  assert (Hres : API.resolveIdentifier gitRoot ident w
                 = if truthyS who then Some (Ok who, w)
                   else Some (Throw NotInGitRepository, w)).
  { unfold API.resolveIdentifier, who.
    destruct (truthyS ident) eqn:Ei; [rewrite Ei; reflexivity|].
    destruct (truthyS (API.getAutoIdentifier gitRoot)); reflexivity. }
  unfold API.env. split; [|split].
  - intros E. apply truthyS_false in E. rewrite E in Hres.
    rewrite (bind_throw _ _ _ _ _ Hres). reflexivity.
  - intros Hwho Hnone. apply truthyS_true in Hwho. rewrite Hwho in Hres.
    rewrite (bind_ok _ _ _ _ _ Hres).
    rewrite (bind_ok _ _ _ _ _ (getRegistry_file w registry Hf)).
    unfold getLeases. simpl. rewrite Hwho. fold mine. rewrite Hnone. reflexivity.
  - intros Hwho Hsome. apply truthyS_true in Hwho. rewrite Hwho in Hres.
    rewrite (bind_ok _ _ _ _ _ Hres).
    rewrite (bind_ok _ _ _ _ _ (getRegistry_file w registry Hf)).
    unfold getLeases. simpl. rewrite Hwho. fold mine.
    destruct mine as [|l0 rest] eqn:Em; [congruence|].
    cbv zeta. cbn [length Nat.eqb]. eexists. split; [reflexivity|].
    intros name. apply fold_insert_lookup.
Qed.

End ReadFacts.

(** ** cleanup: dry runs and repeated runs *)

Module CleanupRunFacts.
Import Reg RegFacts StoreFacts FreeLockFacts.

Section WithCollaborators.

Variable portChecker : Z -> bool.
Variable existsSync : string -> bool.

#[local] Abbreviation staleAt := (Terms.staleAt portChecker existsSync).

Lemma cleanupLocked_spec (isDryRun : bool) (w : World) (registry : Registry) :
  registryFile w = Some registry ->
  API.cleanupLocked portChecker existsSync isDryRun w
  = let stale := staleAt (clock w) registry in
    let kept := List.filter (fun l => negb (sharesStalePort stale l)) (leases registry) in
    if Nat.eqb (length stale) 0 then Some (Ok (mkCleanupResult [] 0 (Some isDryRun)), w)
    else if isDryRun then Some (Ok (mkCleanupResult stale 0 (Some true)), w)
    else
      Some (Ok (mkCleanupResult stale
                  (length (List.filter (sharesStalePort stale) (leases registry)))
                  None),
            set_registryFile w
              (Some (set_lastModified (set_leases registry kept) (clock w)))).
Proof.
  intros Hf. unfold API.cleanupLocked.
  rewrite (bind_ok _ _ _ _ _ (getRegistry_file w registry Hf)).
  unfold bind at 1. unfold dateNow.
  fold (Terms.staleAt portChecker existsSync (clock w) registry). cbv zeta.
  destruct (Nat.eqb _ 0); [reflexivity|].
  destruct isDryRun; [reflexivity|].
  unfold removeStaleLeases.
  rewrite (surjective_pairing (removeWhere _ registry)).
  rewrite removeWhere_count, removeWhere_registry. reflexivity.
Qed.

Lemma cleanup_free (isDryRun : bool) (w : World) (registry : Registry) :
  lockFile w = None ->
  registryFile w = Some registry ->
  API.cleanup portChecker existsSync isDryRun w
  = let stale := staleAt (clock w) registry in
    let kept := List.filter (fun l => negb (sharesStalePort stale l)) (leases registry) in
    if Nat.eqb (length stale) 0 then Some (Ok (mkCleanupResult [] 0 (Some isDryRun)), w)
    else if isDryRun then Some (Ok (mkCleanupResult stale 0 (Some true)), w)
    else
      Some (Ok (mkCleanupResult stale
                  (length (List.filter (sharesStalePort stale) (leases registry)))
                  None),
            set_registryFile w
              (Some (set_lastModified (set_leases registry kept) (clock w)))).
Proof.
  intros Hl Hf. unfold API.cleanup. rewrite withLock_free by exact Hl.
  rewrite (cleanupLocked_spec isDryRun _ registry) by exact Hf.
  cbv zeta. simpl clock. destruct (Nat.eqb _ 0).
  - rewrite unlock_locked by exact Hl. reflexivity.
  - destruct isDryRun.
    + rewrite unlock_locked by exact Hl. reflexivity.
    + rewrite unlock_saved by exact Hl. reflexivity.
Qed.

Lemma staleItems_nil (isPortInUse : option (Z -> bool)) (days now : Z)
  (ls : list Lease) :
  (forall l, In l ls -> staleReason existsSync isPortInUse days now l = None) ->
  staleItems existsSync isPortInUse days now ls = [].
Proof.
  induction ls as [|l ls IH]; simpl; intros H; [reflexivity|].
  rewrite (H l (or_introl eq_refl)). apply IH.
  intros x Hx. apply H. right. exact Hx.
Qed.

(** What a live cleanup keeps has nothing stale in it. *)
Lemma kept_not_stale (now : Z) (registry : Registry) :
  let stale := staleAt now registry in
  staleAt now
    (set_lastModified
       (set_leases registry
          (List.filter (fun l => negb (sharesStalePort stale l)) (leases registry)))
       now)
  = [].
Proof.
  intros stale. unfold Terms.staleAt at 1. unfold findStaleLeases. simpl.
  apply staleItems_nil. intros l Hl. apply filter_In in Hl.
  destruct Hl as [Hin Hkept].
  destruct (staleReason existsSync (Some portChecker) 7 now l) as [reason|] eqn:E;
    [|reflexivity].
  exfalso. apply negb_true_iff in Hkept.
  assert (Hs : sharesStalePort stale l = true).
  { apply CleanupFacts.sharesStalePort_true. exists (l, reason).
    split; [|reflexivity].
    unfold stale, Terms.staleAt, findStaleLeases.
    apply StaleFacts.staleItems_In. tauto. }
  congruence.
Qed.

(** X17 -- a dry run of [cleanup] changes nothing and reports what the
    live run reports.  With the lock free and a registry file there, the
    dry run resolves to the stale items found at the time of the call,
    with [removedCount] 0 and [dryRun] true, and leaves the world exactly
    as it was, time stamp of the file included.  The live run reports the
    same stale items; when there are none it does not write either, and
    its result carries [dryRun: false], whereas the result of a live run
    that removed something has no [dryRun] field. *)
Theorem cleanup_dry_run_changes_nothing :
  forall (w : World) (registry : Registry),
    lockFile w = None ->
    registryFile w = Some registry ->
    let stale := staleAt (clock w) registry in
    API.cleanup portChecker existsSync true w
    = Some (Ok (mkCleanupResult stale 0 (Some true)), w)
    /\ (stale = [] ->
        API.cleanup portChecker existsSync false w
        = Some (Ok (mkCleanupResult [] 0 (Some false)), w))
    /\ (stale <> [] ->
        exists n w',
          API.cleanup portChecker existsSync false w
          = Some (Ok (mkCleanupResult stale n None), w')
          /\ (0 < n)%nat
          /\ w' <> w).
Proof.
  intros w registry Hl Hf stale.
  rewrite !(cleanup_free _ w registry Hl Hf). fold stale. cbv zeta.
  split; [|split].
  - destruct stale; reflexivity.
  - intros ->. reflexivity.
  - intros Hne. destruct stale as [|item items] eqn:Es; [congruence|].
    cbn [length Nat.eqb]. eexists. eexists. split; [reflexivity|].
    assert (Hpos : (0 < length (List.filter (sharesStalePort (item :: items))
                                  (leases registry)))%nat).
    { apply PoolFacts.filter_length_pos. exists (fst item).
      assert (Hin : In item (staleAt (clock w) registry))
        by (fold stale; rewrite Es; left; reflexivity).
      destruct item as [l reason].
      unfold Terms.staleAt, findStaleLeases in Hin.
      apply StaleFacts.staleItems_In in Hin. destruct Hin as [Hin _].
      split; [exact Hin|].
      apply CleanupFacts.sharesStalePort_true. exists (l, reason).
      split; [left; reflexivity|reflexivity]. }
    split; [exact Hpos|].
    intros E. apply (f_equal registryFile) in E. simpl in E. rewrite Hf in E.
    inversion E as [E']. apply (f_equal leases) in E'. simpl in E'.
    pose proof (filter_length_split (sharesStalePort (item :: items))
                  (leases registry)) as Hsplit.
    apply (f_equal (@length Lease)) in E'. lia.
Qed.

(** X18 -- a second [cleanup] finds nothing.  With the lock free and a
    registry file there, after a live [cleanup] has resolved, a [cleanup]
    called again before time passes and with the probe and the file system
    answering as before -- live or dry -- finds no stale lease, removes
    nothing and writes nothing. *)
Theorem cleanup_twice_finds_nothing :
  forall (w w' : World) (registry : Registry) (r : CleanupResult),
    lockFile w = None ->
    registryFile w = Some registry ->
    API.cleanup portChecker existsSync false w = Some (Ok r, w') ->
    forall isDryRun,
      API.cleanup portChecker existsSync isDryRun w'
      = Some (Ok (mkCleanupResult [] 0 (Some isDryRun)), w').
Proof.
  intros w w' registry r Hl Hf H isDryRun.
  rewrite (cleanup_free false w registry Hl Hf) in H. cbv zeta in H.
  destruct (Nat.eqb (length (staleAt (clock w) registry)) 0) eqn:En.
  - inversion H; subst; clear H.
    rewrite (cleanup_free isDryRun w' registry Hl Hf). cbv zeta.
    rewrite En. reflexivity.
  - inversion H; subst; clear H.
    erewrite cleanup_free; [|exact Hl|reflexivity]. cbv zeta. simpl clock.
    rewrite kept_not_stale. reflexivity.
Qed.

End WithCollaborators.
End CleanupRunFacts.

(** ** The identifier of a project *)

Module IdentifierFacts.

Lemma backslashesToSlashes_chars (s : string) (c : ascii) :
  In c (list_ascii_of_string (backslashesToSlashes s)) -> c <> "\"%char.
Proof.
  induction s as [|a s IH]; simpl; [intros []|].
  intros [E|H]; [|exact (IH H)].
  destruct (Ascii.eqb_spec a "\"%char); subst; [discriminate|assumption].
Qed.

Lemma dropColons_chars (s : string) (c : ascii) :
  In c (list_ascii_of_string (dropColons s)) <->
  In c (list_ascii_of_string s) /\ c <> ":"%char.
Proof.
  induction s as [|a s IH]; simpl; [tauto|].
  destruct (Ascii.eqb_spec a ":"%char) as [->|Hne]; simpl; rewrite IH.
  - split; [tauto|]. intros [[E|H] Hc]; [congruence|tauto].
  - split; [|tauto]. intros [E|[H Hc]]; [subst; tauto|tauto].
Qed.

Lemma backslashesToSlashes_id (s : string) :
  (forall c, In c (list_ascii_of_string s) -> c <> "\"%char) ->
  backslashesToSlashes s = s.
Proof.
  induction s as [|a s IH]; simpl; intros H; [reflexivity|].
  destruct (Ascii.eqb_spec a "\"%char) as [->|Hne].
  - destruct (H "\"%char (or_introl eq_refl) eq_refl).
  - f_equal. apply IH. intros c Hc. apply H. right. exact Hc.
Qed.

Lemma dropColons_id (s : string) :
  (forall c, In c (list_ascii_of_string s) -> c <> ":"%char) ->
  dropColons s = s.
Proof.
  induction s as [|a s IH]; simpl; intros H; [reflexivity|].
  destruct (Ascii.eqb_spec a ":"%char) as [->|Hne].
  - destruct (H ":"%char (or_introl eq_refl) eq_refl).
  - f_equal. apply IH. intros c Hc. apply H. right. exact Hc.
Qed.

Lemma normal_chars (s : string) (c : ascii) :
  In c (list_ascii_of_string (dropColons (backslashesToSlashes s))) ->
  c <> ":"%char /\ c <> "\"%char.
Proof.
  intros H. apply dropColons_chars in H. destruct H as [H Hc].
  split; [exact Hc|]. exact (backslashesToSlashes_chars s c H).
Qed.

Lemma normal_id (s : string) :
  (forall c, In c (list_ascii_of_string s) -> c <> ":"%char /\ c <> "\"%char) ->
  dropColons (backslashesToSlashes s) = s.
Proof.
  intros H. rewrite backslashesToSlashes_id by (intros c Hc; apply H; exact Hc).
  apply dropColons_id. intros c Hc. apply H. exact Hc.
Qed.

Lemma getAutoIdentifier_eq (gitRoot : string) :
  API.getAutoIdentifier gitRoot = dropColons (backslashesToSlashes gitRoot).
Proof.
  unfold API.getAutoIdentifier, API.getGitRoot.
  destruct (truthyS gitRoot) eqn:E; [reflexivity|].
  apply ReadFacts.truthyS_false in E. subst. reflexivity.
Qed.

(** X19 -- the identifier detected from the git root is normalised.  It
    holds no backslash and no colon; a root that holds neither is its own
    identifier; normalising twice changes nothing; and a root written with
    backslashes gives the identifier of the same root written with
    slashes, so that [C:\work\app] and [C:/work/app] name one project. *)
Theorem getAutoIdentifier_normalises :
  forall (gitRoot : string),
    (forall c,
        In c (list_ascii_of_string (API.getAutoIdentifier gitRoot)) ->
        c <> ":"%char /\ c <> "\"%char)
    /\ ((forall c, In c (list_ascii_of_string gitRoot) ->
                   c <> ":"%char /\ c <> "\"%char) ->
        API.getAutoIdentifier gitRoot = gitRoot)
    /\ API.getAutoIdentifier (API.getAutoIdentifier gitRoot)
       = API.getAutoIdentifier gitRoot
    /\ API.getAutoIdentifier (backslashesToSlashes gitRoot)
       = API.getAutoIdentifier gitRoot.
Proof.
  intros gitRoot. rewrite !getAutoIdentifier_eq.
  split; [|split; [|split]].
  - intros c. apply normal_chars.
  - apply normal_id.
  - apply normal_id. intros c. apply normal_chars.
  - f_equal. apply backslashesToSlashes_id. intros c.
    apply backslashesToSlashes_chars.
Qed.

End IdentifierFacts.

(** ** Removal by port *)

Module PortRemovalFacts.
Import Reg RegFacts RegQueries.

Lemma map_filter_port (p : Z) (ls : list Lease) :
  List.map port (List.filter (fun l => negb (Z.eqb (port l) p)) ls)
  = List.filter (fun q => negb (Z.eqb q p)) (List.map port ls).
Proof.
  induction ls as [|l ls IH]; simpl; [reflexivity|].
  destruct (Z.eqb (port l) p); simpl; rewrite IH; reflexivity.
Qed.

Lemma filter_filter_ports (p : Z) (ps : list Z) (ls : list Lease) :
  List.filter (fun l => negb (includes ps (port l)))
    (List.filter (fun l => negb (Z.eqb (port l) p)) ls)
  = List.filter (fun l => negb (includes (p :: ps) (port l))) ls.
Proof.
  induction ls as [|l ls IH]; simpl; [reflexivity|].
  destruct (Z.eqb (port l) p) eqn:E; simpl; rewrite IH; reflexivity.
Qed.

Lemma removeByPorts_fold (ps : list Z) :
  forall registry : Registry,
    List.fold_left (fun r p => snd (removeLeasesByPort r p)) ps registry
    = set_leases registry
        (List.filter (fun l => negb (includes ps (port l))) (leases registry)).
Proof.
  induction ps as [|p ps IH]; intros registry; simpl.
  - unfold set_leases.
    replace (List.filter (fun _ => true) (leases registry)) with (leases registry).
    + destruct registry; reflexivity.
    + symmetry. apply RoundTripFacts.filter_all. reflexivity.
  - rewrite IH. unfold removeLeasesByPort, removeWhere, set_leases; simpl.
    f_equal. apply (filter_filter_ports p ps).
Qed.

(** X20 -- removal by port, once and repeated.  [removeLeasesByPort] takes
    out of the registry every lease of the port, in whatever pool, and
    returns how many there were: afterwards [getAllLeasedPorts] gives the
    ports it gave before without that port, in the same order, and the
    pools are untouched.  [removeStaleLeases] leaves the registry that
    [removeLeasesByPort] leaves when called in turn for the port of each
    stale item. *)
Theorem removal_by_port_composes :
  forall (registry : Registry),
    (forall p,
        fst (removeLeasesByPort registry p)
        = List.count_occ Z.eq_dec (getAllLeasedPorts registry) p
        /\ getAllLeasedPorts (snd (removeLeasesByPort registry p))
           = List.filter (fun q => negb (Z.eqb q p)) (getAllLeasedPorts registry)
        /\ ~ In p (getAllLeasedPorts (snd (removeLeasesByPort registry p)))
        /\ pools (snd (removeLeasesByPort registry p)) = pools registry)
    /\ (forall staleLeases,
           snd (removeStaleLeases registry staleLeases)
           = List.fold_left (fun r p => snd (removeLeasesByPort r p))
               (stalePortsOf staleLeases) registry).
Proof.
  intros registry. split.
  - intros p. unfold removeLeasesByPort. rewrite removeWhere_count, removeWhere_registry.
    unfold getAllLeasedPorts. simpl. rewrite map_filter_port.
    split; [|split; [reflexivity|split; [|reflexivity]]].
    + induction (leases registry) as [|l ls IH]; simpl; [reflexivity|].
      destruct (Z.eqb_spec (port l) p) as [E|E]; simpl;
        destruct (Z.eq_dec (port l) p); try congruence; rewrite IH; reflexivity.
    + intros Hin. apply filter_In in Hin. destruct Hin as [_ Hin].
      rewrite Z.eqb_refl in Hin. discriminate.
  - intros staleLeases. rewrite removeByPorts_fold. reflexivity.
Qed.

End PortRemovalFacts.

(** ** A full pool *)

Module FullPoolFacts.
Import Reg RegFacts StoreFacts FreeLockFacts.

Section WithCollaborators.

Variable portChecker : Z -> bool.
Variable gitRoot : string.

Lemma lease_free (pl tg ident wt : string) (w : World) :
  lockFile w = None ->
  pl <> "" -> ident <> "" ->
  API.lease portChecker gitRoot pl tg ident wt w
  = match API.leaseLocked portChecker pl tg ident (effectivePath gitRoot wt)
            (set_lockFile w (Some (clock w))) with
    | Some (r, w2) => Some (r, set_lockFile w2 None)
    | None => None
    end.
Proof.
  intros Hl Hp Hi. rewrite LeaseFacts.lease_unfold by assumption.
  apply withLock_free. exact Hl.
Qed.

(** X21 -- a full pool turns new requests away, whatever the probe says.
    On a registry file the API has produced, with the lock free: when a
    pool whose bounds are safe integers has as many leases as its
    inclusive range has ports, every port of the range is leased in it,
    and a [lease] on that pool for an identifier and tag that have no
    lease there throws 'exhausted' with the bounds of the pool and writes
    nothing. *)
Theorem full_pool_is_exhausted :
  forall (pl tg ident wt : string) (w : World) (registry : Registry) (range : Pool),
    reachable w ->
    lockFile w = None ->
    registryFile w = Some registry ->
    pl <> "" -> ident <> "" ->
    pools registry !! pl = Some range ->
    isSafeInteger (rangeStart range) -> isSafeInteger (rangeEnd range) ->
    Z.of_nat (length (List.filter (inPool pl) (leases registry)))
    = rangeEnd range - rangeStart range + 1 ->
    (forall l, In l (leases registry) ->
               ~ (identifier l = ident /\ pool l = pl /\ tag l = tg)) ->
    (forall q, rangeStart range <= q <= rangeEnd range -> leasedIn registry pl q)
    /\ API.lease portChecker gitRoot pl tg ident wt w
       = Some (Throw (PoolExhausted pl (rangeStart range) (rangeEnd range)), w).
Proof.
  intros pl tg ident wt w registry range Hreach Hl Hf Hp Hi Hr _ _ Hfull Hnew.
  destruct (InvariantFacts.reachable_pool_ports w registry pl range Hreach Hf Hr)
    as [Hnd Hincl].
  assert (Hall : incl (portsOfRange range) (getLeasedPorts registry pl)).
  { apply (List.NoDup_length_incl Hnd); [|exact Hincl].
    rewrite InvariantFacts.portsOfRange_length. unfold getLeasedPorts.
    rewrite length_map. lia. }
  assert (Hleased : forall q, rangeStart range <= q <= rangeEnd range ->
                              leasedIn registry pl q).
  { intros q Hq. apply InvariantFacts.portsOfRange_In in Hq. apply Hall in Hq.
    unfold getLeasedPorts in Hq. apply in_map_iff in Hq.
    destruct Hq as (l & Eq & Hin). apply filter_In in Hin.
    destruct Hin as [Hin Hpool]. unfold inPool in Hpool.
    apply bool_decide_eq_true in Hpool. exists l. tauto. }
  split; [exact Hleased|].
  rewrite lease_free by assumption.
  rewrite (LeaseFacts.leaseLocked_exhausted portChecker pl tg ident _ _ registry range);
    [rewrite unlock_locked by exact Hl; reflexivity|exact Hf|exact Hr| |].
  - apply getExistingLease_None. exact Hnew.
  - apply LeaseFacts.findPort_None. intros q Hq.
    apply LeaseFacts.taken_unavailable. left. apply Hleased. exact Hq.
Qed.

End WithCollaborators.
End FullPoolFacts.

(** ** Pools and leases are changed by different calls *)

Module SeparationFacts.
Import Reg RegFacts StoreFacts EngineFacts.

Ltac same :=
  match goal with
  | H : Some (_, ?w) = Some (_, ?w2) |- _ (view ?w) (view ?w2) =>
      inversion H; subst; reflexivity
  end.

Section WithCollaborators.

Variable portChecker : Z -> bool.
Variable existsSync : string -> bool.
Variable gitRoot : string.

Lemma leaseLocked_pools (pl tg ident wt : string) (w1 w2 : World)
  (r : result LeaseResult) :
  API.leaseLocked portChecker pl tg ident wt w1 = Some (r, w2) ->
  poolsSame (view w1) (view w2).
Proof.
  unfold API.leaseLocked. apply ChangeFacts.getRegistry_related. intros w Hv Hf.
  set (registry := loaded w1) in *.
  unfold bind, lift, validatePool.
  destruct (pools registry !! pl) as [range|] eqn:Hr; [|intros H; same].
  destruct (getExistingLease registry ident pl tg) eqn:He;
    [unfold ret; intros H; same|].
  destruct (API.findPort _ _ _ _) as [p|] eqn:Hp; [|unfold throw; intros H; same].
  destruct (truthyZ p); [|unfold throw; intros H; same].
  unfold dateNow, Store.saveRegistry, ret; simpl. intros H.
  inversion H; subst; clear H.
  unfold poolsSame. rewrite saved_view, (view_file _ _ Hf). reflexivity.
Qed.

Lemma removeWhere_pools (gone : Lease -> bool) (w : World) (registry : Registry) :
  registryFile w = Some registry ->
  poolsSame (view w)
    (view (set_registryFile w
             (Some (set_lastModified (snd (removeWhere gone registry)) (clock w))))).
Proof.
  intros Hf. unfold poolsSame. rewrite saved_view, (view_file _ _ Hf). reflexivity.
Qed.

Lemma releaseLocked_pools (tg : option string) (ident : string) (w1 w2 : World)
  (r : result ReleaseResult) :
  API.releaseLocked tg ident w1 = Some (r, w2) -> poolsSame (view w1) (view w2).
Proof.
  unfold API.releaseLocked. apply ChangeFacts.getRegistry_related. intros w Hv Hf.
  set (registry := loaded w1) in *.
  assert (E : (match tg with
               | Some t => removeLeasesByTag registry ident t
               | None => removeLeasesByIdentifier registry ident
               end) = removeWhere (released tg ident) registry)
    by (destruct tg; reflexivity).
  rewrite E. rewrite (surjective_pairing (removeWhere _ registry)).
  destruct (Nat.eqb _ 0).
  - destruct tg; unfold throw; intros H; same.
  - unfold bind, Store.saveRegistry, ret. intros H. inversion H; subst; clear H.
    apply removeWhere_pools. exact Hf.
Qed.

Lemma cleanupLocked_pools (isDryRun : bool) (w1 w2 : World)
  (r : result CleanupResult) :
  API.cleanupLocked portChecker existsSync isDryRun w1 = Some (r, w2) ->
  poolsSame (view w1) (view w2).
Proof.
  unfold API.cleanupLocked. apply ChangeFacts.getRegistry_related. intros w Hv Hf.
  set (registry := loaded w1) in *.
  unfold bind at 1. unfold dateNow.
  destruct (Nat.eqb _ 0); [unfold ret; intros H; same|].
  destruct isDryRun; [unfold ret; intros H; same|].
  unfold removeStaleLeases.
  rewrite (surjective_pairing (removeWhere _ registry)).
  unfold bind, Store.saveRegistry, ret. intros H. inversion H; subst; clear H.
  apply removeWhere_pools. exact Hf.
Qed.

Lemma poolClearLocked_pools (poolName : string) (w1 w2 : World) (r : result nat) :
  API.poolClearLocked poolName w1 = Some (r, w2) -> poolsSame (view w1) (view w2).
Proof.
  unfold API.poolClearLocked. apply ChangeFacts.getRegistry_related. intros w Hv Hf.
  set (registry := loaded w1) in *.
  destruct (pools registry !! poolName); [|unfold throw; intros H; same].
  unfold clearPoolLeases.
  rewrite (surjective_pairing (removeWhere _ registry)).
  destruct (Nat.eqb _ 0); [unfold ret; intros H; same|].
  unfold bind, Store.saveRegistry, ret. intros H. inversion H; subst; clear H.
  apply removeWhere_pools. exact Hf.
Qed.

Lemma poolAddLocked_leases (poolName : string) (rs re : Z) (w1 w2 : World)
  (r : result PoolResult) :
  API.poolAddLocked poolName rs re w1 = Some (r, w2) ->
  leasesSame (view w1) (view w2).
Proof.
  unfold API.poolAddLocked. apply ChangeFacts.getRegistry_related. intros w Hv Hf.
  set (registry := loaded w1) in *.
  unfold bind, lift, addPool.
  destruct (pools registry !! poolName) eqn:Hp; [intros H; same|].
  unfold Store.saveRegistry, ret. intros H. inversion H; subst; clear H.
  unfold leasesSame. rewrite saved_view, (view_file _ _ Hf). reflexivity.
Qed.

Lemma poolUpdateLocked_leases (poolName : string) (rs re : Z) (w1 w2 : World)
  (r : result PoolResult) :
  API.poolUpdateLocked poolName rs re w1 = Some (r, w2) ->
  leasesSame (view w1) (view w2).
Proof.
  unfold API.poolUpdateLocked. apply ChangeFacts.getRegistry_related.
  intros w Hv Hf. set (registry := loaded w1) in *. cbv zeta.
  destruct (Nat.ltb 0 _) eqn:Haff; [unfold throw; intros H; same|].
  unfold bind, lift, updatePool.
  destruct (pools registry !! poolName) eqn:Hp; [|intros H; same].
  unfold Store.saveRegistry, ret. intros H. inversion H; subst; clear H.
  unfold leasesSame. rewrite saved_view, (view_file _ _ Hf). reflexivity.
Qed.

Lemma poolDeleteLocked_leases (poolName : string) (w1 w2 : World)
  (r : result string) :
  API.poolDeleteLocked poolName w1 = Some (r, w2) ->
  leasesSame (view w1) (view w2).
Proof.
  unfold API.poolDeleteLocked. apply ChangeFacts.getRegistry_related.
  intros w Hv Hf. set (registry := loaded w1) in *.
  unfold bind at 1. unfold lift, deletePool.
  destruct (pools registry !! poolName) eqn:Hp; [|intros H; same].
  destruct (Nat.ltb 0 _) eqn:Hn; [unfold throw; intros H; same|].
  unfold bind, Store.saveRegistry, ret. intros H. inversion H; subst; clear H.
  unfold leasesSame. rewrite saved_view, (view_file _ _ Hf). reflexivity.
Qed.

(** X22 -- the calls on leases leave the pools alone, and the calls on
    pools leave the leases alone.  Whether they resolve or reject: [lease],
    [release], [cleanup] and [poolClear] leave every pool of the registry
    file with the range it had, none added and none removed; [poolAdd],
    [poolUpdate] and [poolDelete] leave the list of leases as it was --
    changing a range moves no lease and deleting a pool drops none.  (A
    missing registry file counts as the default registry.) *)
Theorem calls_change_pools_or_leases :
  forall (c : API.Call) (w w' : World),
    API.run portChecker existsSync gitRoot c w = Some w' ->
    match c with
    | API.CallLease _ _ _ _ | API.CallRelease _ _ | API.CallCleanup _
    | API.CallPoolClear _ =>
        pools (loaded w') = pools (loaded w)
    | API.CallPoolAdd _ _ _ | API.CallPoolUpdate _ _ _ | API.CallPoolDelete _ =>
        leases (loaded w') = leases (loaded w)
    | API.CallRead =>
        pools (loaded w') = pools (loaded w)
        /\ leases (loaded w') = leases (loaded w)
    | API.CallInit _ => True
    end.
Proof.
  assert (Hp : forall st, poolsSame st st) by reflexivity.
  assert (Hl : forall st, leasesSame st st) by reflexivity.
  intros c w w'.
  destruct c as [pl tg ident wt|tg ident|isDryRun|force|poolName rs re
                |poolName rs re|poolName|poolName|]; simpl.
  - intros H. symmetry. change (poolsSame (view w) (view w')). revert H.
    unfold API.lease. destruct (negb (truthyS pl)).
    + unfold API.worldAfter, throw. intros H. inversion H. apply Hp.
    + intros H. apply worldAfter_guard in H;
        [|intros r wg; apply resolveIdentifier_world].
      destruct H as [->|(ident' & _ & H)]; [apply Hp|].
      revert H. apply ChangeFacts.withLock_related; [exact Hp|].
      intros w1 r w2. apply leaseLocked_pools.
  - intros H. symmetry. change (poolsSame (view w) (view w')). revert H.
    unfold API.release. intros H. apply worldAfter_guard in H;
      [|intros r wg; apply resolveIdentifier_world].
    destruct H as [->|(ident' & _ & H)]; [apply Hp|].
    revert H. apply ChangeFacts.withLock_related; [exact Hp|].
    intros w1 r w2. apply releaseLocked_pools.
  - intros H. symmetry. change (poolsSame (view w) (view w')). revert H.
    unfold API.cleanup. apply ChangeFacts.withLock_related; [exact Hp|].
    intros w1 r w2. apply cleanupLocked_pools.
  - trivial.
  - intros H. symmetry. change (leasesSame (view w) (view w')). revert H.
    unfold API.poolAdd. intros H. apply worldAfter_guard in H;
      [|intros r wg; apply PoolFacts.checkPoolArguments_world].
    destruct H as [->|([] & Hc & H)]; [apply Hl|].
    revert H. apply ChangeFacts.withLock_related; [exact Hl|].
    intros w1 r w2. apply poolAddLocked_leases.
  - intros H. symmetry. change (leasesSame (view w) (view w')). revert H.
    unfold API.poolUpdate. intros H. apply worldAfter_guard in H;
      [|intros r wg; apply PoolFacts.checkPoolArguments_world].
    destruct H as [->|([] & Hc & H)]; [apply Hl|].
    revert H. apply ChangeFacts.withLock_related; [exact Hl|].
    intros w1 r w2. apply poolUpdateLocked_leases.
  - intros H. symmetry. change (leasesSame (view w) (view w')). revert H.
    unfold API.poolDelete. destruct (negb (truthyS poolName)).
    + unfold API.worldAfter, throw. intros H. inversion H. apply Hl.
    + apply ChangeFacts.withLock_related; [exact Hl|].
      intros w1 r w2. apply poolDeleteLocked_leases.
  - intros H. symmetry. change (poolsSame (view w) (view w')). revert H.
    unfold API.poolClear. destruct (negb (truthyS poolName)).
    + unfold API.worldAfter, throw. intros H. inversion H. apply Hp.
    + apply ChangeFacts.withLock_related; [exact Hp|].
      intros w1 r w2. apply poolClearLocked_pools.
  - unfold API.worldAfter. rewrite getRegistry_spec. intros H.
    inversion H; subst. split; reflexivity.
Qed.

End WithCollaborators.
End SeparationFacts.

(** ** findStaleLeases for any threshold, with or without a probe *)

Module StaleScanFacts.
Import Reg.

Section WithCollaborators.

Variable existsSync : string -> bool.

Lemma worktree_test (l : Lease) :
  negb (String.eqb (worktreePath l) "") && negb (existsSync (worktreePath l)) = true
  <-> worktreeGone existsSync l.
Proof.
  unfold worktreeGone. rewrite andb_true_iff, !negb_true_iff.
  destruct (String.eqb_spec (worktreePath l) ""); intuition congruence.
Qed.

Lemma staleItems_order (isPortInUse : option (Z -> bool)) (days now : Z)
  (ls : list Lease) :
  sublist (List.map fst (staleItems existsSync isPortInUse days now ls)) ls.
Proof.
  rewrite (CleanupFacts.staleItems_sublist existsSync isPortInUse days now ls).
  apply ShapeFacts.filter_sublist.
Qed.

Lemma staleItems_member (isPortInUse : option (Z -> bool)) (days now : Z)
  (ls : list Lease) (l : Lease) (reason : StaleReason) :
  In (l, reason) (staleItems existsSync isPortInUse days now ls)
  <-> In l ls /\ staleReason existsSync isPortInUse days now l = Some reason.
Proof.
  induction ls as [|x ls IH]; simpl; [tauto|].
  destruct (staleReason existsSync isPortInUse days now x) as [rx|] eqn:Ex;
    simpl; rewrite IH; split.
  - intros [E|[Hl Hr]]; [inversion E; subst; tauto|tauto].
  - intros [[E|Hl] Hr]; [subst; left; congruence|tauto].
  - tauto.
  - intros [[E|Hl] Hr]; [subst; congruence|tauto].
Qed.

Lemma staleReason_no_probe (days now : Z) (l : Lease) (reason : StaleReason) :
  staleReason existsSync None days now l = Some reason
  <-> worktreeGone existsSync l /\ reason = WorktreeMissing.
Proof.
  unfold staleReason. rewrite <- worktree_test.
  destruct (negb (String.eqb (worktreePath l) "")
            && negb (existsSync (worktreePath l))).
  - split; [intros E; inversion E; tauto|intros [_ ->]; reflexivity].
  - destruct (leasedAt l) as [t|]; [destruct (_ >? _)|];
      (split; [discriminate|intros [? _]; discriminate]).
Qed.

Lemma staleReason_probe (probe : Z -> bool) (days now : Z) (l : Lease)
  (reason : StaleReason) :
  staleReason existsSync (Some probe) days now l = Some reason
  <-> (worktreeGone existsSync l /\ reason = WorktreeMissing)
      \/ (~ worktreeGone existsSync l
          /\ (exists t, leasedAt l = Some t
                        /\ now - t > days * 24 * 60 * 60 * 1000)
          /\ probe (port l) = false
          /\ reason = OldAndUnused days).
Proof.
  unfold staleReason, staleThresholdMs. rewrite <- worktree_test.
  destruct (negb (String.eqb (worktreePath l) "")
            && negb (existsSync (worktreePath l))).
  - split.
    + intros E; inversion E; tauto.
    + intros [[_ ->]|[H _]]; [reflexivity|]. destruct H. reflexivity.
  - destruct (leasedAt l) as [t|].
    + destruct (Z.gtb_spec (now - t) (days * 24 * 60 * 60 * 1000)) as [Hold|Hyoung].
      * destruct (probe (port l)); simpl.
        -- split; [discriminate|].
           intros [[? _]|(_ & _ & ? & _)]; discriminate.
        -- split.
           ++ intros E. inversion E. right.
              split; [discriminate|]. split; [exists t; split; [reflexivity|lia]|].
              split; reflexivity.
           ++ intros [[? _]|(_ & _ & _ & ->)]; [discriminate|reflexivity].
      * split; [discriminate|].
        intros [[? _]|(_ & (t' & E & Hold) & _)]; [discriminate|].
        inversion E; subst. lia.
    + split; [discriminate|].
      intros [[? _]|(_ & (t' & E & _) & _)]; discriminate.
Qed.

(** X23 -- [findStaleLeases] with its options.  The items it returns are
    leases of the registry, each at most as often as the registry has it,
    in registry order.  Called without a probe (its default), it reports
    exactly the leases whose worktree path is non-empty and does not
    exist, and no lease for its age, however old.  Called with a probe and
    a threshold of any number of days, it reports those and, among the
    others, exactly the leases taken more than that many days ago whose
    port the probe finds not in use; the reason tells which. *)
Theorem findStaleLeases_with_options :
  forall (isPortInUse : option (Z -> bool)) (staleThresholdDays now : Z)
         (registry : Registry),
    let found :=
      findStaleLeases existsSync isPortInUse staleThresholdDays now registry in
    sublist (List.map fst found) (leases registry)
    /\ (forall l reason,
           isPortInUse = None ->
           (In (l, reason) found
            <-> In l (leases registry)
                /\ worktreeGone existsSync l /\ reason = WorktreeMissing))
    /\ (forall probe l reason,
           isPortInUse = Some probe ->
           (In (l, reason) found
            <-> In l (leases registry)
                /\ ((worktreeGone existsSync l /\ reason = WorktreeMissing)
                    \/ (~ worktreeGone existsSync l
                        /\ (exists t,
                               leasedAt l = Some t
                               /\ now - t > staleThresholdDays * 24 * 60 * 60 * 1000)
                        /\ probe (port l) = false
                        /\ reason = OldAndUnused staleThresholdDays)))).
Proof.
  intros isPortInUse days now registry found. unfold found, findStaleLeases.
  split; [apply staleItems_order|]. split.
  - intros l reason ->. rewrite staleItems_member, staleReason_no_probe. tauto.
  - intros probe l reason ->. rewrite staleItems_member, staleReason_probe. tauto.
Qed.

End WithCollaborators.
End StaleScanFacts.

(** ** release frees the port *)

Module ReleaseFreeFacts.
Import Reg RegFacts StoreFacts EngineFacts.

Section WithCollaborators.

Variable gitRoot : string.

(** X24 -- [release] frees the port.  On a registry file the API has
    produced, with the lock free and an identifier given: when [release]
    matches a lease -- one of the identifier, and of the tag when a tag is
    given -- it resolves, and in the registry it writes no lease of the
    pool of that lease has its port any more, so that the allocator of
    [lease] finds the port not leased in that pool. *)
Theorem release_frees_the_port :
  forall (tg : option string) (ident : string) (w : World) (registry : Registry)
         (l : Lease),
    reachable w ->
    lockFile w = None ->
    registryFile w = Some registry ->
    ident <> "" ->
    In l (leases registry) ->
    identifier l = ident ->
    (forall t, tg = Some t -> tag l = t) ->
    exists r w' registry',
      API.release gitRoot tg ident w = Some (Ok r, w')
      /\ registryFile w' = Some registry'
      /\ ~ leasedIn registry' (pool l) (port l)
      /\ Reg.includes (getLeasedPorts registry' (pool l)) (port l) = false.
Proof.
  intros tg ident w registry l Hreach Hl Hf Hi Hin Hident Htag.
  assert (Hrel : released tg ident l = true)
    by (apply ReleaseFacts.released_true; split; assumption).
  rewrite (RoundTripFacts.release_free gitRoot tg ident w registry Hl Hf Hi).
  cbv zeta.
  assert (Hpos : (0 < length (List.filter (released tg ident) (leases registry)))%nat).
  { apply PoolFacts.filter_length_pos. exists l. split; assumption. }
  destruct (Nat.eqb_spec (length (List.filter (released tg ident) (leases registry))) 0)
    as [E|_]; [lia|].
  eexists. eexists. eexists. split; [reflexivity|]. split; [reflexivity|].
  assert (Hfree : ~ leasedIn
                      (set_lastModified
                         (set_leases registry
                            (List.filter (fun x => negb (released tg ident x))
                               (leases registry))) (clock w))
                      (pool l) (port l)).
  { intros (x & Hx & Hpool & Hport). simpl in Hx. apply filter_In in Hx.
    destruct Hx as [Hx Hkept].
    pose proof (InvariantFacts.reachable_places w Hreach) as Hnd.
    rewrite (view_file _ _ Hf) in Hnd. simpl in Hnd.
    assert (x = l).
    { apply (InvariantFacts.NoDup_map_eq placeOf (leases registry));
        try assumption. unfold placeOf. congruence. }
    subst x. rewrite Hrel in Hkept. discriminate. }
  split; [exact Hfree|].
  destruct (Reg.includes _ _) eqn:E; [|reflexivity].
  exfalso. apply Hfree. apply includes_leasedPorts. exact E.
Qed.

End WithCollaborators.
End ReleaseFreeFacts.

(** ** The further properties on concrete registries *)

(** The registry of one lease, a second after the call that wrote it. *)
Lemma worldOne_reachable : reachable worldOne.
Proof. exact (reach_between None 2000 _ worldLeased_reachable). Qed.

Ltac not_inherited :=
  let H := fresh in
  intros H; unfold inheritedName, objectPrototypeNames in H; simpl in H;
  repeat (destruct H as [H|H]; [discriminate H|]); exact H.

Ltac safe_integer := unfold isSafeInteger, MAX_SAFE_INTEGER; simpl; lia.

Lemma api_keeps_registry_well_formed_witness :
  (forall name range,
      pools regOne !! name = Some range ->
      name <> "" /\ rangeStart range <> 0 /\ rangeEnd range <> 0
      /\ rangeStart range < rangeEnd range)
  /\ (forall l,
         In l (leases regOne) ->
         identifier l <> ""
         /\ exists range,
             pools regOne !! pool l = Some range
             /\ rangeStart range <= port l <= rangeEnd range)
  /\ (forall l l',
         In l (leases regOne) -> In l' (leases regOne) ->
         tripleOf l = tripleOf l' -> l = l').
Proof.
  exact (InvariantFacts.api_keeps_registry_well_formed worldOne regOne
           worldOne_reachable eq_refl).
Defined.

Lemma worldPacked_reachable : reachable worldPacked.
Proof.
  apply (reach_call probeNone onlyHere "/repo"
           (API.CallLease "x" "" "projB" "/b")
           (after (API.lease probeNone "/repo" "x" "" "projA" "/a")
              (after (API.poolAdd "x" 7000 7001) (mkWorld None None 1000)))).
  - apply (reach_call probeNone onlyHere "/repo"
             (API.CallLease "x" "" "projA" "/a")
             (after (API.poolAdd "x" 7000 7001) (mkWorld None None 1000))).
    + apply (reach_call probeNone onlyHere "/repo"
               (API.CallPoolAdd "x" 7000 7001) (mkWorld None None 1000)).
      * apply reach_start.
      * vm_compute. reflexivity.
    + vm_compute. reflexivity.
  - vm_compute. reflexivity.
Qed.

Lemma api_leases_a_port_once_per_pool_witness :
  List.NoDup (List.map placeOf (leases regPacked))
  /\ (forall l l',
         In l (leases regPacked) -> In l' (leases regPacked) ->
         pool l = pool l' -> port l = port l' -> l = l').
Proof.
  exact (InvariantFacts.api_leases_a_port_once_per_pool worldPacked regPacked
           worldPacked_reachable eq_refl).
Defined.

Lemma calls_remove_leases_or_append_one_witness :
  sublist (leases (loaded (mkWorld None (Some regOne) 1000)))
    (leases (loaded (mkWorld None None 1000)))
  \/ exists l,
      leases (loaded (mkWorld None (Some regOne) 1000))
      = (leases (loaded (mkWorld None None 1000)) ++ [l])%list.
Proof.
  apply (ShapeFacts.calls_remove_leases_or_append_one probeNone onlyHere "/repo"
           (API.CallLease "frontend" "" "proj" "/p") (mkWorld None None 1000)).
  vm_compute. reflexivity.
Defined.

Lemma rejected_call_keeps_registry_file_witness :
  fileKept (mkWorld None None 5)
    (mkWorld None (Some (set_lastModified Reg.getDefaultRegistry 5)) 5)
  /\ fileKept worldOne worldOne.
Proof.
  split.
  - apply (proj1 (RejectFacts.rejected_call_keeps_registry_file probeNone onlyHere
                    "/repo" (mkWorld None None 5)
                    (mkWorld None (Some (set_lastModified Reg.getDefaultRegistry 5)) 5)
                    (UnknownPool "nope"))
             "nope" "" "proj" "/p").
    vm_compute. reflexivity.
  - apply (proj1 (proj2 (proj2 (proj2 (proj2 (proj2
             (RejectFacts.rejected_call_keeps_registry_file probeNone onlyHere
                "/repo" worldOne worldOne (PoolHasLeases "frontend" 1)))))))
             "frontend").
    vm_compute. reflexivity.
Defined.

Lemma acquireLock_outcomes_witness :
  Lock.acquireLock 30000 worldOne
  = Some (Ok tt, set_lockFile worldOne (Some 2000))
  /\ Lock.acquireLock 30000 worldStaleLock
     = Some (Ok tt, set_lockFile worldStaleLock (Some 70000))
  /\ exists r w',
      Lock.acquireLock 30000 worldHeld = Some (r, w')
      /\ registryFile w' = Some regOne
      /\ 2000 <= clock w'
      /\ match r with
         | Ok _ =>
             (exists t, lockFile w' = Some t /\ 2000 <= t <= clock w')
             /\ (forall m, Some 1000 = Some m ->
                           clock w' - m > Lock.STALE_LOCK_AGE_MS)
         | Throw e =>
             e = LockTimeout 30000
             /\ clock w' - 2000 > 30000
             /\ lockFile w' = Some 1000
             /\ exists m, Some 1000 = Some m
                          /\ 2000 - m <= Lock.STALE_LOCK_AGE_MS
         end.
Proof.
  split; [|split].
  - apply (proj1 (LockOutcomeFacts.acquireLock_outcomes 30000 worldOne)).
    reflexivity.
  - apply (proj1 (proj2 (LockOutcomeFacts.acquireLock_outcomes 30000 worldStaleLock))
             1000).
    + reflexivity.
    + vm_compute. reflexivity.
  - exact (proj2 (proj2 (LockOutcomeFacts.acquireLock_outcomes 30000 worldHeld))).
Defined.

(** In front of the marker of [worldHeld], one second old, [acquireLock]
    ends with the timeout, the marker still fresh; in front of the marker
    of [worldAgingLock], 40 seconds old, it ends with the lock, the marker
    of the other process having turned older than 60 seconds. *)
Example acquireLock_on_worldHeld :
  exists w',
    Lock.acquireLock 30000 worldHeld = Some (Throw (LockTimeout 30000), w')
    /\ lockFile w' = Some 1000
    /\ clock w' - 1000 <= Lock.STALE_LOCK_AGE_MS.
Proof.
  eexists. split; [vm_compute; reflexivity|].
  split; [reflexivity|]. vm_compute. discriminate.
Qed.

Example acquireLock_on_worldAgingLock :
  exists w',
    Lock.acquireLock 30000 worldAgingLock = Some (Ok tt, w')
    /\ lockFile w' = Some (clock w')
    /\ clock w' - 1000 > Lock.STALE_LOCK_AGE_MS.
Proof.
  eexists. split; [vm_compute; reflexivity|].
  split; [reflexivity|]. vm_compute. reflexivity.
Qed.


(** On [worldHeld] the marker is still fresh when [lease] comes back, and
    [lease] has thrown the timeout; on [worldAgingLock] the marker turns
    older than 60 seconds while [lease] polls, and [lease] takes the
    lock. *)
Example lease_on_worldHeld :
  exists w',
    API.lease probeNone "/repo" "frontend" "" "proj2" "/p" worldHeld
    = Some (Throw (LockTimeout 30000), w')
    /\ clock w' - 1000 <= Lock.STALE_LOCK_AGE_MS
    /\ registryFile w' = Some regOne
    /\ lockFile w' = Some 1000.
Proof.
  eexists. split; [vm_compute; reflexivity|].
  split; [vm_compute; discriminate|]. split; reflexivity.
Qed.

Example lease_on_worldAgingLock :
  exists r w',
    API.lease probeNone "/repo" "frontend" "" "proj2" "/p" worldAgingLock
    = Some (Ok r, w')
    /\ lr_port r = 3301
    /\ clock w' - 1000 > Lock.STALE_LOCK_AGE_MS
    /\ lockFile w' = None.
Proof.
  eexists. eexists. split; [vm_compute; reflexivity|].
  split; [reflexivity|]. split; [vm_compute; reflexivity|reflexivity].
Qed.


Lemma lease_ignores_other_pools_witness :
  fst <$> API.lease probeNone "/repo" "b" "" "p2" "/here"
            (mkWorld None (Some regSharedA) 2000)
  = fst <$> API.lease probeNone "/repo" "b" "" "p2" "/here"
              (mkWorld None (Some regSharedNone) 2000).
Proof.
  apply (BlindFacts.lease_ignores_other_pools probeNone "/repo" "b" "" "p2" "/here"
           (mkWorld None (Some regSharedA) 2000)
           (mkWorld None (Some regSharedNone) 2000) regSharedA regSharedNone);
    reflexivity.
Defined.

(** In [regSharedA] the port 8000 is leased in pool [a], and [lease] on
    pool [b] hands out 8000 all the same. *)
Example lease_on_regSharedA :
  fst <$> API.lease probeNone "/repo" "b" "" "p2" "/here"
            (mkWorld None (Some regSharedA) 2000)
  = Some (Ok (mkLeaseResult 8000 (newLease 8000 "b" "p2" "/here" "" 2000))).
Proof. vm_compute. reflexivity. Qed.

Lemma release_undoes_fresh_lease_witness :
  API.release "/repo" (Some "api") "proj"
    (mkWorld None
       (Some (withNewLease regOne (newLease 5300 "backend" "proj" "/p" "api" 2000)
                2000)) 2000)
  = Some (Ok (mkReleaseResult 1 [leaseOne]),
          set_registryFile worldOne (Some (set_lastModified regOne 2000))).
Proof.
  apply (RoundTripFacts.release_undoes_fresh_lease probeNone "/repo"
           "backend" "api" "proj" "/p" worldOne
           (mkWorld None
              (Some (withNewLease regOne
                       (newLease 5300 "backend" "proj" "/p" "api" 2000) 2000)) 2000)
           regOne
           (mkLeaseResult 5300 (newLease 5300 "backend" "proj" "/p" "api" 2000))).
  - reflexivity.
  - reflexivity.
  - discriminate.
  - intros l [<-|[]] _. discriminate.
  - vm_compute. reflexivity.
Defined.

Lemma poolClear_empties_pool_for_delete_witness :
  API.poolClear "nope" worldOne = Some (Throw (PoolDoesNotExist "nope"), worldOne)
  /\ exists w' registry',
      API.poolClear "frontend" worldOne
      = Some (Ok (length (List.filter (Reg.inPool "frontend") (leases regOne))), w')
      /\ registryFile w' = Some registry'
      /\ pools registry' = pools regOne
      /\ leases registry'
         = List.filter (fun l => negb (Reg.inPool "frontend" l)) (leases regOne)
      /\ (List.filter (Reg.inPool "frontend") (leases regOne) = [] -> w' = worldOne)
      /\ API.poolDelete "frontend" w'
         = Some (Ok "frontend",
                 set_registryFile worldOne
                   (Some (withoutPool registry' "frontend" (clock worldOne)))).
Proof.
  split.
  - apply (proj1 (PoolCycleFacts.poolClear_empties_pool_for_delete "nope" worldOne
                    regOne eq_refl eq_refl ltac:(discriminate))).
    + reflexivity.
    + not_inherited.
  - apply (proj2 (PoolCycleFacts.poolClear_empties_pool_for_delete "frontend"
                    worldOne regOne eq_refl eq_refl ltac:(discriminate))).
    eexists. reflexivity.
Defined.

Lemma poolAdd_then_poolDelete_restores_witness :
  API.poolAdd "frontend" 8000 8099 (mkWorld None (Some regOne) 1000)
  = Some (Throw (PoolAlreadyExists "frontend"), mkWorld None (Some regOne) 1000)
  /\ exists w' registry',
      API.poolAdd "api" 3300 3499 (mkWorld None (Some regOne) 1000)
      = Some (Ok (mkPoolResult "api" 3300 3499), w')
      /\ registryFile w' = Some registry'
      /\ pools registry' !! "api" = Some (mkPool 3300 3499)
      /\ (forall other, other <> "api" ->
                        pools registry' !! other = pools regOne !! other)
      /\ leases registry' = leases regOne
      /\ API.poolDelete "api" w'
         = Some (Ok "api",
                 set_registryFile (mkWorld None (Some regOne) 1000)
                   (Some (set_lastModified regOne 1000))).
Proof.
  split.
  - apply (proj1 (PoolCycleFacts.poolAdd_then_poolDelete_restores
                    "frontend" 8000 8099 (mkWorld None (Some regOne) 1000)
                    regOne worldLeased_reachable eq_refl eq_refl
                    ltac:(discriminate) ltac:(discriminate) ltac:(discriminate)
                    ltac:(lia))).
    eexists. reflexivity.
  - apply (proj2 (PoolCycleFacts.poolAdd_then_poolDelete_restores
                    "api" 3300 3499 (mkWorld None (Some regOne) 1000)
                    regOne worldLeased_reachable eq_refl eq_refl
                    ltac:(discriminate) ltac:(discriminate) ltac:(discriminate)
                    ltac:(lia))).
    + reflexivity.
    + not_inherited.
Defined.

Lemma init_resets_without_lock_witness :
  API.init false worldHeld = Some (Throw RegistryAlreadyExists, worldHeld)
  /\ exists w',
      API.init true worldHeld
      = Some (Ok (set_lastModified Reg.getDefaultRegistry (clock worldHeld)), w')
      /\ registryFile w'
         = Some (set_lastModified
                   {| version := "1.0";
                      pools := <["frontend" := mkPool 3300 3499]>
                                 (<["backend" := mkPool 5300 5499]>
                                    (<["storybook" := mkPool 6300 6499]> ∅));
                      leases := [];
                      lastModified := None |} (clock worldHeld))
      /\ lockFile w' = lockFile worldHeld
      /\ clock w' = clock worldHeld
      /\ forall filterPool showGlobal ident,
           API.listLeases "/repo" filterPool showGlobal ident w' = Some (Ok [], w').
Proof.
  split.
  - apply (proj1 (ReadFacts.init_resets_without_lock "/repo" false worldHeld)).
    + eexists. reflexivity.
    + reflexivity.
  - apply (proj2 (ReadFacts.init_resets_without_lock "/repo" true worldHeld)).
    right. reflexivity.
Defined.

Lemma check_reports_one_state_witness :
  API.check probeAll 0 worldOne = Some (Ok CheckPortRequired, worldOne)
  /\ exists r,
      API.check probeAll 3300 worldOne = Some (Ok (Checked r), worldOne)
      /\ (ck_leased r = true <-> exists l, In l (leases regOne) /\ port l = 3300)
      /\ (forall l,
             List.find (fun l => Z.eqb (port l) 3300) (leases regOne) = Some l ->
             r = mkCheckResult false true false (Some (identifier l, pool l)))
      /\ (ck_leased r = false ->
          ck_inUse r = probeAll 3300
          /\ ck_available r = negb (probeAll 3300)
          /\ ck_details r = None)
      /\ (ck_leased r = true /\ ck_inUse r = false /\ ck_available r = false
          \/ ck_leased r = false /\ ck_inUse r = true /\ ck_available r = false
          \/ ck_leased r = false /\ ck_inUse r = false /\ ck_available r = true).
Proof.
  split.
  - apply (proj1 (ReadFacts.check_reports_one_state probeAll 0 worldOne regOne eq_refl)).
    reflexivity.
  - apply (proj2 (ReadFacts.check_reports_one_state probeAll 3300 worldOne regOne
                    eq_refl)).
    discriminate.
Defined.

Lemma list_filters_by_identifier_and_pool_witness :
  exists found,
    API.listLeases "" "backend" false "" worldTags = Some (Ok found, worldTags)
    /\ sublist found (leases regTags)
    /\ forall l,
         In l found <->
         In l (leases regTags)
         /\ ("backend" = "" \/ pool l = "backend")
         /\ (false = true
             \/ ("" <> "" /\ identifier l = "")
             \/ ("" = "" /\ API.getAutoIdentifier "" = "")
             \/ ("" = "" /\ identifier l = API.getAutoIdentifier "")).
Proof.
  exact (ReadFacts.list_filters_by_identifier_and_pool "" "backend" false ""
           worldTags regTags eq_refl).
Defined.

(** Outside a git repository and without an identifier, [list] on pool
    [backend] returns the leases of [backend] of every project. *)
Example list_outside_repository :
  API.listLeases "" "backend" false "" worldTags
  = Some (Ok [leaseDefaultTag; leaseApiTag], worldTags).
Proof. vm_compute. reflexivity. Qed.

Lemma env_exports_last_lease_per_name_witness :
  exists envVars,
    API.env "/repo" upperString "proj" worldNames = Some (Ok envVars, worldNames)
    /\ forall name,
         envVars !! name
         = port <$> List.find
                      (fun l => bool_decide (API.envVarName upperString l = name))
                      (List.rev (List.filter (Reg.ofIdentifier "proj")
                                   (leases regNames))).
Proof.
  apply (proj2 (proj2 (ReadFacts.env_exports_last_lease_per_name "/repo" upperString
                         "proj" worldNames regNames eq_refl))).
  - discriminate.
  - discriminate.
Defined.

(** The leases tagged [api] and [API] both ask for [BACKEND_API_PORT]; the
    later one gets it. *)
Example env_on_regNames :
  match API.env "/repo" upperString "proj" worldNames with
  | Some (Ok envVars, _) =>
      envVars !! "BACKEND_API_PORT" = Some 5302
      /\ envVars !! "BACKEND_PORT" = Some 5300
      /\ envVars !! "FRONTEND_PORT" = None
  | _ => False
  end.
Proof. vm_compute. repeat split. Qed.

Lemma cleanup_dry_run_changes_nothing_witness :
  (API.cleanup probeNone onlyHere true worldShared
   = Some (Ok (mkCleanupResult (staleAt probeNone onlyHere 2000 regShared) 0
                 (Some true)), worldShared)
   /\ exists n w',
       API.cleanup probeNone onlyHere false worldShared
       = Some (Ok (mkCleanupResult (staleAt probeNone onlyHere 2000 regShared) n
                     None), w')
       /\ (0 < n)%nat
       /\ w' <> worldShared)
  /\ API.cleanup probeAll everywhere false worldOne
     = Some (Ok (mkCleanupResult [] 0 (Some false)), worldOne).
Proof.
  split; [split|].
  - apply (proj1 (CleanupRunFacts.cleanup_dry_run_changes_nothing probeNone onlyHere
                    worldShared regShared eq_refl eq_refl)).
  - apply (proj2 (proj2 (CleanupRunFacts.cleanup_dry_run_changes_nothing probeNone
                           onlyHere worldShared regShared eq_refl eq_refl))).
    vm_compute. discriminate.
  - apply (proj1 (proj2 (CleanupRunFacts.cleanup_dry_run_changes_nothing probeAll
                           everywhere worldOne regOne eq_refl eq_refl))).
    vm_compute. reflexivity.
Defined.

Lemma cleanup_twice_finds_nothing_witness :
  API.cleanup probeNone onlyHere false
    (mkWorld None (Some (set_lastModified (set_leases regShared []) 2000)) 2000)
  = Some (Ok (mkCleanupResult [] 0 (Some false)),
          mkWorld None (Some (set_lastModified (set_leases regShared []) 2000)) 2000)
  /\ API.cleanup probeNone onlyHere true
       (mkWorld None (Some (set_lastModified (set_leases regShared []) 2000)) 2000)
     = Some (Ok (mkCleanupResult [] 0 (Some true)),
             mkWorld None (Some (set_lastModified (set_leases regShared []) 2000))
               2000).
Proof.
  split;
    apply (CleanupRunFacts.cleanup_twice_finds_nothing probeNone onlyHere worldShared
             (mkWorld None (Some (set_lastModified (set_leases regShared []) 2000))
                2000)
             regShared (mkCleanupResult [(leaseGone, Reg.WorktreeMissing)] 2 None)
             eq_refl eq_refl);
    vm_compute; reflexivity.
Defined.

Lemma getAutoIdentifier_normalises_witness :
  API.getAutoIdentifier "/work/app" = "/work/app"
  /\ API.getAutoIdentifier "C:\work\app" = API.getAutoIdentifier "C:/work/app".
Proof.
  split.
  - apply (proj1 (proj2 (IdentifierFacts.getAutoIdentifier_normalises "/work/app"))).
    intros c Hc. simpl in Hc.
    repeat (destruct Hc as [<-|Hc]; [split; discriminate|]). destruct Hc.
  - symmetry.
    exact (proj2 (proj2 (proj2
             (IdentifierFacts.getAutoIdentifier_normalises "C:\work\app")))).
Defined.

Example getAutoIdentifier_windows :
  API.getAutoIdentifier "C:\work\app" = "C/work/app".
Proof. reflexivity. Qed.

Lemma full_pool_is_exhausted_witness :
  (forall q, 7000 <= q <= 7001 -> leasedIn regPacked "x" q)
  /\ API.lease probeNone "/repo" "x" "" "projC" "/c" worldPacked
     = Some (Throw (PoolExhausted "x" 7000 7001), worldPacked).
Proof.
  apply (FullPoolFacts.full_pool_is_exhausted probeNone "/repo"
           "x" "" "projC" "/c" worldPacked regPacked (mkPool 7000 7001)
           worldPacked_reachable eq_refl eq_refl).
  - discriminate.
  - discriminate.
  - reflexivity.
  - safe_integer.
  - safe_integer.
  - reflexivity.
  - intros l [<-|[<-|[]]] [Ei _]; discriminate Ei.
Defined.

Lemma calls_change_pools_or_leases_witness :
  leases (loaded (mkWorld None (Some (withPool regOne "backend" 5000 5999 2000)) 2000))
  = leases (loaded worldOne)
  /\ pools (loaded (mkWorld None
                      (Some (set_lastModified (set_leases regOne []) 2000)) 2000))
     = pools (loaded worldOne).
Proof.
  split.
  - apply (SeparationFacts.calls_change_pools_or_leases probeNone onlyHere "/repo"
             (API.CallPoolUpdate "backend" 5000 5999) worldOne).
    vm_compute. reflexivity.
  - apply (SeparationFacts.calls_change_pools_or_leases probeNone onlyHere "/repo"
             (API.CallRelease None "proj") worldOne).
    vm_compute. reflexivity.
Defined.

Lemma findStaleLeases_with_options_witness :
  (In (leaseGone, Reg.WorktreeMissing)
     (Reg.findStaleLeases onlyHere None 7 eightDays regShared)
   <-> In leaseGone (leases regShared)
       /\ worktreeGone onlyHere leaseGone
       /\ Reg.WorktreeMissing = Reg.WorktreeMissing)
  /\ (In (leaseHere, Reg.OldAndUnused 7)
        (Reg.findStaleLeases onlyHere (Some probeNone) 7 eightDays regShared)
      <-> In leaseHere (leases regShared)
          /\ ((worktreeGone onlyHere leaseHere
               /\ Reg.OldAndUnused 7 = Reg.WorktreeMissing)
              \/ (~ worktreeGone onlyHere leaseHere
                  /\ (exists t,
                         leasedAt leaseHere = Some t
                         /\ eightDays - t > 7 * 24 * 60 * 60 * 1000)
                  /\ probeNone (port leaseHere) = false
                  /\ Reg.OldAndUnused 7 = Reg.OldAndUnused 7))).
Proof.
  split.
  - exact (proj1 (proj2 (StaleScanFacts.findStaleLeases_with_options onlyHere None 7
                           eightDays regShared))
             leaseGone Reg.WorktreeMissing eq_refl).
  - exact (proj2 (proj2 (StaleScanFacts.findStaleLeases_with_options onlyHere
                           (Some probeNone) 7 eightDays regShared))
             probeNone leaseHere (Reg.OldAndUnused 7) eq_refl).
Defined.

(** Without a probe the old lease [leaseHere], whose worktree exists, is
    not reported; with a probe that finds its port unused it is. *)
Example findStaleLeases_on_regShared :
  Reg.findStaleLeases onlyHere None 7 eightDays regShared
  = [(leaseGone, Reg.WorktreeMissing)]
  /\ Reg.findStaleLeases onlyHere (Some probeNone) 7 eightDays regShared
     = [(leaseGone, Reg.WorktreeMissing); (leaseHere, Reg.OldAndUnused 7)].
Proof. split; reflexivity. Qed.

Lemma release_frees_the_port_witness :
  exists r w' registry',
    API.release "/repo" (Some "") "projA" worldPacked = Some (Ok r, w')
    /\ registryFile w' = Some registry'
    /\ ~ leasedIn registry' "x" 7000
    /\ Reg.includes (Reg.getLeasedPorts registry' "x") 7000 = false.
Proof.
  apply (ReleaseFreeFacts.release_frees_the_port "/repo"
           (Some "") "projA" worldPacked regPacked
           {| port := 7000; pool := "x"; identifier := "projA";
              worktreePath := "/a"; tag := ""; leasedAt := Some 1000 |}
           worldPacked_reachable eq_refl eq_refl).
  - discriminate.
  - left. reflexivity.
  - reflexivity.
  - intros t E. inversion E. reflexivity.
Defined.
